(** * sailfish: finite-volume Euler / SRHD drivers

    A shallow embedding of the stage drivers, the 1D and 2D update kernels,
    the MinMod limiter and the SRHD patch boundary exchange.

    Numbers.  The C kernels and the numpy drivers compute in IEEE doubles.
    Here a double is an exact rational ([Qc], the canonical rationals, whose
    equality is Leibniz equality): rounding, infinities, NaN and the sign of
    zero are not represented.  Every statement below is a statement about
    this exact-arithmetic reading of the code.

    Arrays.  A numpy array of shape [[ni] x NQ] is a list of cells, a cell
    being the vector of its NQ components; a C pointer [&p[NCONS * i]] is
    the cell [i] of that list.  Arrays live in a store and are passed by
    reference, as in Python. *)

From Stdlib Require Import QArith Qcanon Lqa.
From stdpp Require Import base numbers list vector strings gmap.

Local Open Scope Qc_scope.

(** ** Exact arithmetic helpers *)

(** Goals about the order of [Qc] are sent to [lra] over [Q]. *)
Ltac qc_order :=
  repeat match goal with
         | H : @eq Qc _ _ |- _ => apply (f_equal this) in H
         | H : ¬ @eq Qc _ _ |- _ =>
             let K := fresh in
             assert (K := λ E, H (Qc_is_canon _ _ E)); clear H
         | |- @eq Qc _ _ => apply Qc_is_canon
         | |- ¬ @eq Qc _ _ => let E := fresh in intros E; apply (f_equal this) in E
         end;
  unfold Qclt, Qcle, Qcminus, Qcplus, Qcopp, Qcmult, Q2Qc in *;
  cbn [this] in *;
  repeat match goal with
         | H : context [Qred ?q] |- _ => rewrite (Qred_correct q) in H
         | |- context [Qred ?q] => rewrite (Qred_correct q)
         end;
  try lra.

(** The literals of the C sources. *)
Definition c0_5 : Qc := Q2Qc (1 # 2).
Definition c0_25 : Qc := Q2Qc (1 # 4).

(** ** The MinMod limiter ([plm_minmod], a device function) *)

(** [#define min2(a, b) ((a) < (b) ? (a) : (b))] *)
Definition min2 (a b : Qc) : Qc := if decide (a < b) then a else b.

(** [#define min3(a, b, c) min2(a, min2(b, c))] *)
Definition min3 (a b c : Qc) : Qc := min2 a (min2 b c).

(** C's [fabs]. *)
Definition fabs (x : Qc) : Qc := if decide (x < 0) then - x else x.

(** C's [copysign(m, x)]: the magnitude of [m] with the sign of [x].  The only
    zero of the rationals is the positive one, of sign plus. *)
Definition copysign (m x : Qc) : Qc := if decide (x < 0) then - fabs m else fabs m.

(** [#define sign(x) copysign(1.0, x)] *)
Definition sign (x : Qc) : Qc := copysign 1 x.

(** [#define minabs(a, b, c) min3(fabs(a), fabs(b), fabs(c))] *)
Definition minabs (a b c : Qc) : Qc := min3 (fabs a) (fabs b) (fabs c).

Definition plm_minmod (yl yc yr plm_theta : Qc) : Qc :=
  let a := (yc - yl) * plm_theta in
  let b := (yr - yl) * c0_5 in
  let c := (yr - yc) * plm_theta in
  c0_25 * fabs (sign a + sign b) * (sign a + sign c) * minabs a b c.

(** ** Cells, arrays and the C loop macros *)

Local Close Scope Qc_scope.

(** A cell of [n] components ([double x[n]]). *)
Abbreviation cell := (vec Qc).

(** Modelled from the spec: [NCONS] is a macro of the kernel module
    ([new_kernels], not part of the sources at hand); section 3 gives
    [NQ = 3] for 1D Euler and [NQ = 4] for 2D Euler. *)
Definition NCONS (DIM : nat) : nat := DIM + 2.
#[global] Arguments NCONS : simpl never.

(** A one-dimensional Euler array, of shape [[ni] x 3]. *)
Abbreviation array := (list (cell (NCONS 1))).

(** An array of the SRHD solver, of shape [[n] x 4]. *)
Abbreviation patch_array := (list (vec Qc 4)).

(** A two-dimensional Euler array of shape [[ni, nj] x 4], stored row-major
    as in the C kernels: the cell [(i, j)] is the cell [i * nj + j] of
    [cells2]. *)
Record array2 : Type := Array2 {
  shape0 : nat;
  shape1 : nat;
  cells2 : list (cell (NCONS 2));
}.

#[global] Instance Qc_inhabited : Inhabited Qc := populate 0%Qc.

(** [x[q]] and [p[i]]; a read of [p] past its end yields the zero cell, which
    the kernels never do on the buffers the drivers hand them. *)
Definition at_q {n} (x : cell n) (q : fin n) : Qc := x !!! q.
Definition at_i {n} (p : list (cell n)) (i : nat) : cell n := p !!! i.

(** [for (int q = 0; q < n; ++q) x[q] = f(q);] on a local [double x[n]]. *)
Definition for_q (n : nat) (f : fin n → Qc) : cell n := fun_to_vec f.

(** numpy's [a.size] and [a.shape[0]]. *)
Definition size {n} (a : list (cell n)) : nat := length a * n.
Definition shape {n} (a : list (cell n)) : nat := length a.

(** Modelled from the spec: [FOR_RANGE_1D(i0, i1)] is a macro of the kernel
    module; sections 3 and 4.5 give the index range of such a loop as the
    half-open interval [[i0, i1)], one independent iteration per index. *)
Definition FOR_RANGE_1D {S : Type} (i0 i1 : nat) (body : nat → S → S) (s : S) : S :=
  foldl (λ s i, body i s) s (seq i0 (i1 - i0)).

(** Modelled from the spec: [FOR_EACH_1D(ni)] is the same loop over [[0, ni)]. *)
Definition FOR_EACH_1D {S : Type} (ni : nat) (body : nat → S → S) (s : S) : S :=
  FOR_RANGE_1D 0 ni body s.

(** Modelled from the spec: [FOR_RANGE_2D(i0, i1, j0, j1)] ranges over the
    pairs of [[i0, i1) x [j0, j1)] (section 9, third open question). *)
Definition FOR_RANGE_2D {S : Type} (i0 i1 j0 j1 : nat)
    (body : nat → nat → S → S) (s : S) : S :=
  FOR_RANGE_1D i0 i1 (λ i, FOR_RANGE_1D j0 j1 (λ j, body i j)) s.

(** ** The Euler device functions

    [lib_euler] is imported by the solver module but is not part of the
    sources at hand; its three device functions, as compiled for [DIM]
    dimensions, are parameters.  Each reads its input cells and fills its
    output cell. *)
Class lib_euler (DIM : nat) := LibEuler {
  prim_to_cons : cell (NCONS DIM) → cell (NCONS DIM);
  cons_to_prim : cell (NCONS DIM) → cell (NCONS DIM);
  (** [riemann_hlle(pl, pr, flux, direction)] *)
  riemann_hlle : cell (NCONS DIM) → cell (NCONS DIM) → nat → cell (NCONS DIM);
}.

(** ** The store and the driver monad

    Arrays are Python objects: a driver holds references ([loc]) into a store.
    A location that holds no array stands for an argument that is not an
    array.  The state also records the kernels launched so far. *)
Definition loc : Type := nat.

Inductive launch : Type :=
  | compute_godunov_fluxes_launch (p f : loc)
  | update_prim_launch (args : list loc) (urk : option loc) (rk : Qc)
  | prim_to_cons_array_launch (p u : loc)
  | srhd_1d_conserved_to_primitive_launch (conserved primitive : loc) (scale_factor : Qc)
  | srhd_1d_advance_rk_launch (conserved0 primitive1 conserved1 conserved2 : loc)
      (scale_factor_initial scale_factor_derivative time rk_param dt : Qc).

Record state (A : Type) : Type := State {
  arrays : gmap loc A;
  launched : list launch;
}.
Arguments State {A} _ _.
Arguments arrays {A} _.
Arguments launched {A} _.

Inductive exn : Type :=
  | ValueError (msg : string)
  | AttributeError (msg : string)
  | TypeError (msg : string)
  | UnboundLocalError (msg : string).

Inductive result (T : Type) : Type :=
  | Ok (x : T)
  | Raise (e : exn).
Arguments Ok {T} _.
Arguments Raise {T} _.

(** A computation returns or raises, and in both cases leaves a state. *)
Definition M (A T : Type) : Type := state A → result T * state A.

#[global] Instance M_ret {A} : MRet (M A) := λ T x s, (Ok x, s).

#[global] Instance M_bind {A} : MBind (M A) := λ T U k m s,
  match m s with
  | (Ok x, s') => k x s'
  | (Raise e, s') => (Raise e, s')
  end.

Definition raise {A T} (e : exn) : M A T := λ s, (Raise e, s).

Definition read {A} (l : loc) : M A A :=
  λ s, match arrays s !! l with
       | Some a => (Ok a, s)
       | None => (Raise (TypeError "not an array"), s)
       end.

Definition write {A} (l : loc) (a : A) : M A unit :=
  λ s, (Ok (), State (<[l := a]> (arrays s)) (launched s)).

(** Allocation of a new array object; its contents may depend on where it
    lands (uninitialised memory). *)
Definition alloc {A} (contents : loc → A) : M A loc :=
  λ s, let l := fresh (dom (arrays s)) in
       (Ok l, State (<[l := contents l]> (arrays s)) (launched s)).

Definition launching {A} (k : launch) : M A unit :=
  λ s, (Ok (), State (arrays s) (launched s ++ [k])).

(** [for x in xs: body(x)], the loop body updating the local variables [v]. *)
Fixpoint for_in {A X V} (xs : list X) (body : X → V → M A V) (v : V) : M A V :=
  match xs with
  | [] => mret v
  | x :: xs => v ← body x v; for_in xs body v
  end.

(** [p.copy()] *)
Definition copy {A} (p : loc) : M A loc := a ← read p; alloc (λ _, a).

(** [xp.empty_like] hands out uninitialised memory: [uninitialised n l k] is
    whatever the cell [k] of the array of [n]-cells allocated at [l]
    happens to hold. *)
Class memory := Memory { uninitialised : ∀ n, loc → nat → cell n }.

(** The array module chosen by [exec_mode]. *)
Inductive array_module : Type := numpy | cupy.

Definition numpy_or_cupy (exec_mode : string) : option array_module :=
  if decide (exec_mode = "gpu") then Some cupy
  else if decide (exec_mode = "cpu") then Some numpy
  else None.

Definition empty_like {mem : memory} (xp : option array_module) (p : loc) : M array loc :=
  match xp with
  | None => raise (AttributeError "'NoneType' object has no attribute 'empty_like'")
  | Some _ => P ← read p; alloc (λ l, uninitialised (NCONS 1) l <$> seq 0 (length P))
  end.

Definition empty_like2 {mem : memory} (xp : option array_module) (p : loc) : M array2 loc :=
  match xp with
  | None => raise (AttributeError "'NoneType' object has no attribute 'empty_like'")
  | Some _ =>
      P ← read p;
      alloc (λ l, Array2 (shape0 P) (shape1 P)
                    (uninitialised (NCONS 2) l <$> seq 0 (length (cells2 P))))
  end.

(** A kernel argument that may be [None] (a null pointer on the C side, never
    dereferenced by a kernel compiled with [RUNGE_KUTTA == 0]). *)
Definition read_opt {A} (null : A) (l : option loc) : M A A :=
  match l with
  | Some l => read l
  | None => mret null
  end.

(** ** The kernel classes *)

(** An instance of a [@kernel_class]: the two flags its [define_macros]
    turns into [RUNGE_KUTTA] and [PLM]. *)
Record KernelClass : Type := Kernels {
  runge_kutta : bool;
  plm : bool;
}.

Module FluxPerFaceSolver.
Section kernels.
Context {euler : lib_euler 1}.
Variable self : KernelClass.

  (** The face states [pm], [pp] of the face between the cells [i] and [i + 1]. *)
Definition pm (p : array) (plm_theta : Qc) (i : nat) : cell (NCONS 1) :=
    if plm self then
      let pl := at_i p (i - 1) in
      let pc := at_i p (i + 0) in
      let pr := at_i p (i + 1) in
      for_q (NCONS 1) (λ q,
        at_q pc q + c0_5 * plm_minmod (at_q pl q) (at_q pc q) (at_q pr q) plm_theta)%Qc
    else
      let pc := at_i p (i + 0) in
      for_q (NCONS 1) (λ q, at_q pc q).

Definition pp (p : array) (plm_theta : Qc) (i : nat) : cell (NCONS 1) :=
    if plm self then
      let pc := at_i p (i + 0) in
      let pr := at_i p (i + 1) in
      let ps := at_i p (i + 2) in
      for_q (NCONS 1) (λ q,
        at_q pr q - c0_5 * plm_minmod (at_q pc q) (at_q pr q) (at_q ps q) plm_theta)%Qc
    else
      let pr := at_i p (i + 1) in
      for_q (NCONS 1) (λ q, at_q pr q).

  (** [KERNEL void compute_godunov_fluxes(double *p, double *f, double plm_theta, int ni)] *)
Definition compute_godunov_fluxes_kernel
      (p f : array) (plm_theta : Qc) (ni : nat) : array :=
    FOR_RANGE_1D 1 (ni - 2) (λ i f,
      <[i + 1 := riemann_hlle (pm p plm_theta i) (pp p plm_theta i) 1]> f) f.

  (** The conserved state of one cell after the flux difference and the
      optional blend: the loop over [q] of the update kernel. *)
Definition uc (pc fm fp urk_i : cell (NCONS 1)) (dt dx rk : Qc) : cell (NCONS 1) :=
    let uc := prim_to_cons pc in
    for_q 3 (λ q,
      let u := (at_q uc q - (at_q fp q - at_q fm q) * dt / dx)%Qc in
      if runge_kutta self then
        let u := (u * (1 - rk))%Qc in
        (u + rk * at_q urk_i q)%Qc
      else u).

  (** [KERNEL void update_prim(double *p, double *f, double *urk, double dt,
      double dx, double rk, int ni)]: the cell [i] of [p] is read and written
      in place. *)
Definition update_prim_kernel
      (p f urk : array) (dt dx rk : Qc) (ni : nat) : array :=
    FOR_RANGE_1D 2 (ni - 2) (λ i p,
      let pc := at_i p (i + 0) in
      let fm := at_i f (i + 0) in
      let fp := at_i f (i + 1) in
      <[i := cons_to_prim (uc pc fm fp (at_i urk i) dt dx rk)]> p) p.

  (** [KERNEL void prim_to_cons_array(double *p, double *u, int ni)] *)
Definition prim_to_cons_array_kernel (p u : array) (ni : nat) : array :=
    FOR_RANGE_1D 1 (ni - 1) (λ i u, <[i := prim_to_cons (at_i p i)]> u) u.

  (** The Python wrappers: each returns the launch shape and the kernel
      arguments, [ni] being taken from the array.  The drivers pass distinct
      buffers; a wrapper reads its arguments, then writes the one buffer its
      kernel writes. *)
Definition compute_godunov_fluxes (p f : loc) (plm_theta : Qc) : M array unit :=
    P ← read p; F ← read f;
    launching (compute_godunov_fluxes_launch p f);;
    write f (compute_godunov_fluxes_kernel P F plm_theta (shape P)).

Definition update_prim (p f : loc) (urk : option loc) (dt dx rk : Qc) : M array unit :=
    P ← read p; F ← read f; URK ← read_opt [] urk;
    launching (update_prim_launch [p; f] urk rk);;
    write p (update_prim_kernel P F URK dt dx rk (size P / 3)).

Definition prim_to_cons_array (p u : loc) : M array unit :=
    P ← read p; U ← read u;
    launching (prim_to_cons_array_launch p u);;
    write u (prim_to_cons_array_kernel P U (size P / 3)).
End kernels.
End FluxPerFaceSolver.

Module FluxPerZoneSolver.
Section kernels.
Context {euler : lib_euler 1}.
Variable self : KernelClass.

  (** The four face states of the cell [i]: [plp], [pcm] on its left face,
      [pcp], [prm] on its right face. *)
Definition plp (prd : array) (plm_theta : Qc) (i : nat) : cell (NCONS 1) :=
    if plm self then
      let pk := at_i prd (i - 2) in
      let pl := at_i prd (i - 1) in
      let pc := at_i prd (i + 0) in
      for_q (NCONS 1) (λ q,
        let gl := plm_minmod (at_q pk q) (at_q pl q) (at_q pc q) plm_theta in
        at_q pl q + c0_5 * gl)%Qc
    else
      let pl := at_i prd (i - 1) in
      for_q (NCONS 1) (λ q, at_q pl q).

Definition pcm (prd : array) (plm_theta : Qc) (i : nat) : cell (NCONS 1) :=
    if plm self then
      let pl := at_i prd (i - 1) in
      let pc := at_i prd (i + 0) in
      let pr := at_i prd (i + 1) in
      for_q (NCONS 1) (λ q,
        let gc := plm_minmod (at_q pl q) (at_q pc q) (at_q pr q) plm_theta in
        at_q pc q - c0_5 * gc)%Qc
    else
      let pc := at_i prd (i + 0) in
      for_q (NCONS 1) (λ q, at_q pc q).

Definition pcp (prd : array) (plm_theta : Qc) (i : nat) : cell (NCONS 1) :=
    if plm self then
      let pl := at_i prd (i - 1) in
      let pc := at_i prd (i + 0) in
      let pr := at_i prd (i + 1) in
      for_q (NCONS 1) (λ q,
        let gc := plm_minmod (at_q pl q) (at_q pc q) (at_q pr q) plm_theta in
        at_q pc q + c0_5 * gc)%Qc
    else
      let pc := at_i prd (i + 0) in
      for_q (NCONS 1) (λ q, at_q pc q).

Definition prm (prd : array) (plm_theta : Qc) (i : nat) : cell (NCONS 1) :=
    if plm self then
      let pc := at_i prd (i + 0) in
      let pr := at_i prd (i + 1) in
      let ps := at_i prd (i + 2) in
      for_q (NCONS 1) (λ q,
        let gr := plm_minmod (at_q pc q) (at_q pr q) (at_q ps q) plm_theta in
        at_q pr q - c0_5 * gr)%Qc
    else
      let pr := at_i prd (i + 1) in
      for_q (NCONS 1) (λ q, at_q pr q).

  (** The conserved state of the cell [i] after the flux difference and the
      optional blend. *)
Definition uc (prd urk : array) (dt dx rk plm_theta : Qc) (i : nat) : cell (NCONS 1) :=
    let fm := riemann_hlle (plp prd plm_theta i) (pcm prd plm_theta i) 1 in
    let fp := riemann_hlle (pcp prd plm_theta i) (prm prd plm_theta i) 1 in
    let uc := prim_to_cons (at_i prd (i + 0)) in
    for_q (NCONS 1) (λ q,
      let u := (at_q uc q - (at_q fp q - at_q fm q) * dt / dx)%Qc in
      if runge_kutta self then
        let u := (u * (1 - rk))%Qc in
        (u + rk * at_q (at_i urk i) q)%Qc
      else u).

  (** [KERNEL void update_prim(double *prd, double *pwr, double *urk, double dt,
      double dx, double rk, double plm_theta, int ni)] *)
Definition update_prim_kernel
      (prd pwr urk : array) (dt dx rk plm_theta : Qc) (ni : nat) : array :=
    FOR_RANGE_1D 2 (ni - 2) (λ i pwr,
      <[i := cons_to_prim (uc prd urk dt dx rk plm_theta i)]> pwr) pwr.

  (** [KERNEL void prim_to_cons_array(double *p, double *u, int ni)] *)
Definition prim_to_cons_array_kernel (p u : array) (ni : nat) : array :=
    FOR_RANGE_1D 1 (ni - 1) (λ i u, <[i := prim_to_cons (at_i p i)]> u) u.

Definition update_prim (prd pwr : loc) (urk : option loc)
      (dt dx rk plm_theta : Qc) : M array unit :=
    PRD ← read prd; PWR ← read pwr; URK ← read_opt [] urk;
    launching (update_prim_launch [prd; pwr] urk rk);;
    write pwr (update_prim_kernel PRD PWR URK dt dx rk plm_theta (shape PRD)).

Definition prim_to_cons_array (p u : loc) : M array unit :=
    P ← read p; U ← read u;
    launching (prim_to_cons_array_launch p u);;
    write u (prim_to_cons_array_kernel P U (size P / 3)).
End kernels.
End FluxPerZoneSolver.

Module FluxPerZoneSolver2D.
Section kernels.
Context {euler : lib_euler 2}.
Variable self : KernelClass.

  (** [&prd[i * si + j * sj]] with [si = NCONS * nj] and [sj = NCONS]. *)
Definition at_ij (a : list (cell (NCONS 2))) (nj i j : nat) : cell (NCONS 2) := a !!! (i * nj + j).

Section zone.
Variables (prd : list (cell (NCONS 2))) (plm_theta : Qc) (nj i j : nat).

Let pcc := at_ij prd nj (i + 0) (j + 0).
Let pkc := at_ij prd nj (i - 2) (j + 0).
Let plc := at_ij prd nj (i - 1) (j + 0).
Let prc := at_ij prd nj (i + 1) (j + 0).
Let psc := at_ij prd nj (i + 2) (j + 0).
Let pck := at_ij prd nj (i + 0) (j - 2).
Let pcl := at_ij prd nj (i + 0) (j - 1).
Let pcr := at_ij prd nj (i + 0) (j + 1).
Let pcs := at_ij prd nj (i + 0) (j + 2).

Definition pilp : cell (NCONS 2) :=
      if plm self then
        for_q (NCONS 2) (λ q,
          let gil := plm_minmod (at_q pkc q) (at_q plc q) (at_q pcc q) plm_theta in
          at_q plc q + c0_5 * gil)%Qc
      else for_q (NCONS 2) (λ q, at_q plc q).

Definition picm : cell (NCONS 2) :=
      if plm self then
        for_q (NCONS 2) (λ q,
          let gic := plm_minmod (at_q plc q) (at_q pcc q) (at_q prc q) plm_theta in
          at_q pcc q - c0_5 * gic)%Qc
      else for_q (NCONS 2) (λ q, at_q pcc q).

Definition picp : cell (NCONS 2) :=
      if plm self then
        for_q (NCONS 2) (λ q,
          let gic := plm_minmod (at_q plc q) (at_q pcc q) (at_q prc q) plm_theta in
          at_q pcc q + c0_5 * gic)%Qc
      else for_q (NCONS 2) (λ q, at_q pcc q).

Definition pirm : cell (NCONS 2) :=
      if plm self then
        for_q (NCONS 2) (λ q,
          let gir := plm_minmod (at_q pcc q) (at_q prc q) (at_q psc q) plm_theta in
          at_q prc q - c0_5 * gir)%Qc
      else for_q (NCONS 2) (λ q, at_q prc q).

Definition pjlp : cell (NCONS 2) :=
      if plm self then
        for_q (NCONS 2) (λ q,
          let gjl := plm_minmod (at_q pck q) (at_q pcl q) (at_q pcc q) plm_theta in
          at_q pcl q + c0_5 * gjl)%Qc
      else for_q (NCONS 2) (λ q, at_q pcl q).

Definition pjcm : cell (NCONS 2) :=
      if plm self then
        for_q (NCONS 2) (λ q,
          let gjc := plm_minmod (at_q pcl q) (at_q pcc q) (at_q pcr q) plm_theta in
          at_q pcc q - c0_5 * gjc)%Qc
      else for_q (NCONS 2) (λ q, at_q pcc q).

Definition pjcp : cell (NCONS 2) :=
      if plm self then
        for_q (NCONS 2) (λ q,
          let gjc := plm_minmod (at_q pcl q) (at_q pcc q) (at_q pcr q) plm_theta in
          at_q pcc q + c0_5 * gjc)%Qc
      else for_q (NCONS 2) (λ q, at_q pcc q).

Definition pjrm : cell (NCONS 2) :=
      if plm self then
        for_q (NCONS 2) (λ q,
          let gjr := plm_minmod (at_q pcc q) (at_q pcr q) (at_q pcs q) plm_theta in
          at_q pcr q - c0_5 * gjr)%Qc
      else for_q (NCONS 2) (λ q, at_q pcr q).

Definition ucc (urk : list (cell (NCONS 2))) (dt dx rk : Qc) : cell (NCONS 2) :=
      let fm := riemann_hlle pilp picm 1 in
      let fp := riemann_hlle picp pirm 1 in
      let gm := riemann_hlle pjlp pjcm 2 in
      let gp := riemann_hlle pjcp pjrm 2 in
      let ucc := prim_to_cons pcc in
      for_q (NCONS 2) (λ q,
        let u := (at_q ucc q
                  - (at_q fp q - at_q fm q + at_q gp q - at_q gm q) * dt / dx)%Qc in
        if runge_kutta self then
          let u := (u * (1 - rk))%Qc in
          (u + rk * at_q (at_ij urk nj i j) q)%Qc
        else u).
End zone.

  (** [KERNEL void update_prim(double *prd, double *pwr, double *urk, double dt,
      double dx, double rk, double plm_theta, int ni, int nj)] *)
Definition update_prim_kernel
      (prd pwr urk : list (cell (NCONS 2))) (dt dx rk plm_theta : Qc) (ni nj : nat) : list (cell (NCONS 2)) :=
    FOR_RANGE_2D 2 (ni - 2) 2 (nj - 2) (λ i j pwr,
      <[i * nj + j := cons_to_prim (ucc prd plm_theta nj i j urk dt dx rk)]> pwr) pwr.

  (** [KERNEL void prim_to_cons_array(double *p, double *u, int ni)] *)
Definition prim_to_cons_array_kernel (p u : list (cell (NCONS 2))) (ni : nat) : list (cell (NCONS 2)) :=
    FOR_EACH_1D ni (λ i u, <[i := prim_to_cons (p !!! i)]> u) u.

Definition null2 : array2 := Array2 0 0 [].

Definition update_prim (prd pwr : loc) (urk : option loc)
      (dt dx rk plm_theta : Qc) : M array2 unit :=
    PRD ← read prd; PWR ← read pwr; URK ← read_opt null2 urk;
    launching (update_prim_launch [prd; pwr] urk rk);;
    write pwr (Array2 (shape0 PWR) (shape1 PWR)
                 (update_prim_kernel (cells2 PRD) (cells2 PWR) (cells2 URK)
                    dt dx rk plm_theta (shape0 PRD) (shape1 PRD))).

  (** [nq = p.shape[-1]]; the launch covers [p.size // nq] cells. *)
Definition prim_to_cons_array (p u : loc) : M array2 unit :=
    P ← read p; U ← read u;
    launching (prim_to_cons_array_launch p u);;
    write u (Array2 (shape0 U) (shape1 U)
               (prim_to_cons_array_kernel (cells2 P) (cells2 U) (shape0 P * shape1 P))).
End kernels.
End FluxPerZoneSolver2D.

(** ** Solver registries *)

(** The four instances a registry class holds once its [init] has run. *)
Record SolverClass : Type := Registry {
  fwd_pcm : KernelClass;
  rkn_pcm : KernelClass;
  fwd_plm : KernelClass;
  rkn_plm : KernelClass;
}.

(** [SolverClass.get]: a recognised reconstruction with an unrecognised
    [time_integration] falls off the end of the function and yields [None]. *)
Definition get {A} (cls : SolverClass) (time_integration reconstruction : string)
    : M A (option KernelClass) :=
  if decide (reconstruction = "pcm") then
    if decide (time_integration = "fwd") then mret (Some (fwd_pcm cls))
    else if decide (time_integration ∈ ["rk1"; "rk2"; "rk3"]) then mret (Some (rkn_pcm cls))
    else mret None
  else if decide (reconstruction = "plm") then
    if decide (time_integration = "fwd") then mret (Some (fwd_plm cls))
    else if decide (time_integration ∈ ["rk1"; "rk2"; "rk3"]) then mret (Some (rkn_plm cls))
    else mret None
  else
    raise (ValueError ("no solver config " +:+ time_integration +:+ "/" +:+ reconstruction)).

(** [FPFSolvers], [FPZSolvers] and [FPZSolvers2D] after [init()]; the kernel
    class of the instances is the one the driver branch calls. *)
Definition registry_init : SolverClass := {|
  fwd_pcm := {| plm := false; runge_kutta := false |};
  rkn_pcm := {| plm := false; runge_kutta := true |};
  fwd_plm := {| plm := true; runge_kutta := false |};
  rkn_plm := {| plm := true; runge_kutta := true |};
|}.
Definition FPFSolvers : SolverClass := registry_init.
Definition FPZSolvers : SolverClass := registry_init.
Definition FPZSolvers2D : SolverClass := registry_init.

(** ** The stage drivers *)

(** The [if / elif] chain on [time_integration]: [fwd] binds no [rks]. *)
Definition stage_coefficients {A} (time_integration : string) : M A (option (list Qc)) :=
  if decide (time_integration = "fwd") then mret None
  else if decide (time_integration = "rk1") then mret (Some [0%Qc])
  else if decide (time_integration = "rk2") then mret (Some [0%Qc; c0_5])
  else if decide (time_integration = "rk3") then
    mret (Some [0; Q2Qc 3 / Q2Qc 4; 1 / Q2Qc 3]%Qc)
  else
    raise (ValueError ("time_integration must be [fwd|r1k|rk2|rk3], got "
                       +:+ time_integration)).

(** Reading the methods of the solver [get] returned. *)
Definition methods_of {A} (solver : option KernelClass) : M A KernelClass :=
  match solver with
  | Some solver => mret solver
  | None => raise (AttributeError "'NoneType' object has no attribute 'update_prim'")
  end.

(** Reading the local variable [rks]. *)
Definition bound {A} (rks : option (list Qc)) : M A (list Qc) :=
  match rks with
  | Some rks => mret rks
  | None => raise (UnboundLocalError "rks")
  end.

Section drivers.
Context {euler : lib_euler 1} {euler2 : lib_euler 2} {mem : memory}.

Definition update_prim (p : loc) (dt dx : Qc) (fluxing reconstruction : string)
      (plm_theta : Qc) (time_integration exec_mode : string) : M array loc :=
    let xp := numpy_or_cupy exec_mode in
    rks ← stage_coefficients time_integration;
    if decide (fluxing = "per_face") then
      solver ← get FPFSolvers time_integration reconstruction;
      solver ← methods_of solver;
      f ← empty_like xp p;
      if decide (time_integration = "fwd") then
        FluxPerFaceSolver.compute_godunov_fluxes solver p f plm_theta;;
        FluxPerFaceSolver.update_prim solver p f None dt dx 0%Qc;;
        mret p
      else
        urk ← empty_like xp p;
        FluxPerFaceSolver.prim_to_cons_array p urk;;
        rks ← bound rks;
        for_in rks (λ rk _,
          FluxPerFaceSolver.compute_godunov_fluxes solver p f plm_theta;;
          FluxPerFaceSolver.update_prim solver p f (Some urk) dt dx rk) ();;
        mret p
    else if decide (fluxing = "per_zone") then
      solver ← get FPZSolvers time_integration reconstruction;
      solver ← methods_of solver;
      let prd := p in
      pwr ← copy p;
      if decide (time_integration = "fwd") then
        FluxPerZoneSolver.update_prim solver prd pwr None dt dx 0%Qc plm_theta;;
        let '(prd, pwr) := (pwr, prd) in
        mret prd
      else
        urk ← empty_like xp prd;
        FluxPerZoneSolver.prim_to_cons_array prd urk;;
        rks ← bound rks;
        '(prd, pwr) ← for_in rks (λ rk '(prd, pwr),
          FluxPerZoneSolver.update_prim solver prd pwr (Some urk) dt dx rk plm_theta;;
          mret (pwr, prd)) (prd, pwr);
        mret prd
    else
      raise (ValueError ("unknown fluxing " +:+ fluxing)).

Definition update_prim2d (p : loc) (dt dx : Qc) (fluxing reconstruction : string)
      (plm_theta : Qc) (time_integration exec_mode : string) : M array2 loc :=
    let xp := numpy_or_cupy exec_mode in
    rks ← stage_coefficients time_integration;
    if decide (fluxing ≠ "per_zone") then
      raise (ValueError "only fluxing=per_zone supported in 2d")
    else
      solver ← get FPZSolvers2D time_integration reconstruction;
      solver ← methods_of solver;
      let prd := p in
      pwr ← copy p;
      if decide (time_integration = "fwd") then
        FluxPerZoneSolver2D.update_prim solver prd pwr None dt dx 0%Qc plm_theta;;
        let '(prd, pwr) := (pwr, prd) in
        mret prd
      else
        urk ← empty_like2 xp prd;
        FluxPerZoneSolver2D.prim_to_cons_array prd urk;;
        rks ← bound rks;
        '(prd, pwr) ← for_in rks (λ rk '(prd, pwr),
          FluxPerZoneSolver2D.update_prim solver prd pwr (Some urk) dt dx rk plm_theta;;
          mret (pwr, prd)) (prd, pwr);
        mret prd.
End drivers.

(** ** Grid geometry *)

Definition Qc_of_nat (n : nat) : Qc := Qc_of_Z (Z.of_nat n).

(** numpy's [linspace(start, stop, num)]: [num] evenly spaced samples, both
    end points included. *)
Definition linspace (start stop : Qc) (num : nat) : list Qc :=
  match num with
  | 0 => []
  | 1 => [start]
  | _ =>
      let step := ((stop - start) / Qc_of_nat (num - 1))%Qc in
      (λ i, start + Qc_of_nat i * step)%Qc <$> seq 0 num
  end.

(** The slices [xv[1:]] and [xv[:-1]] of a one-dimensional array. *)
Definition from_1 (xv : list Qc) : list Qc := drop 1 xv.
Definition upto_last (xv : list Qc) : list Qc := take (length xv - 1) xv.

Definition cell_centers_1d (ni : nat) : list Qc :=
  let xv := linspace 0 1 ni in
  let xc := (λ x, c0_5 * x)%Qc <$> zip_with Qcplus (from_1 xv) (upto_last xv) in
  xc.

(** ** The SRHD patch solver ([srhd_1d.py]) *)

(** Python slice bounds on an axis of length [n]: a negative bound counts
    from the end, and every bound is clipped to [[0, n]]. *)
Definition slice_bound (n : nat) (k : Z) : nat :=
  if decide (k < 0)%Z then Z.to_nat (Z.max 0 (Z.of_nat n + k))
  else Nat.min (Z.to_nat k) n.

Definition slice_bounds (n : nat) (start stop : option Z) : nat * nat :=
  let lo := from_option (slice_bound n) 0 start in
  let hi := from_option (slice_bound n) n stop in
  (lo, Nat.max lo hi).

(** [a[start:stop]] *)
Definition get_slice (a : patch_array) (start stop : option Z) : patch_array :=
  let '(lo, hi) := slice_bounds (length a) start stop in
  take (hi - lo) (drop lo a).

(** [a[start:stop] = v]: the rows of [v] replace the slice when there are as
    many, a single row is broadcast, anything else is numpy's broadcast error. *)
Definition set_slice (a : patch_array) (start stop : option Z) (v : patch_array)
    : result patch_array :=
  let '(lo, hi) := slice_bounds (length a) start stop in
  if decide (length v = hi - lo) then Ok (take lo a ++ v ++ drop hi a)
  else if decide (length v = 1) then
    Ok (take lo a ++ replicate (hi - lo) (v !!! 0) ++ drop hi a)
  else Raise (ValueError "could not broadcast input array").

(** [dst[d0:d1] = src[s0:s1]] on two array objects. *)
Definition assign_slice (dst : loc) (d0 d1 : option Z) (src : loc) (s0 s1 : option Z)
    : M patch_array unit :=
  SRC ← read src;
  DST ← read dst;
  match set_slice DST d0 d1 (get_slice SRC s0 s1) with
  | Ok DST' => write dst DST'
  | Raise e => raise e
  end.

(** The SRHD native library ([sailfish.library], compiled C) is not part of
    the sources at hand; its entry points are parameters.  Each returns the
    new contents of the one buffer it writes: [conserved] for
    [primitive_to_conserved], [primitive] for [conserved_to_primitive], the
    last conserved buffer for [advance_rk] (spec, section 4.9). *)
Class Library := NativeLibrary {
  srhd_1d_primitive_to_conserved :
    nat → list Qc → patch_array → patch_array → Qc → nat → patch_array;
  srhd_1d_conserved_to_primitive :
    nat → list Qc → patch_array → patch_array → Qc → nat → patch_array;
  srhd_1d_advance_rk :
    nat → list Qc → patch_array → patch_array → patch_array → patch_array →
    Qc → Qc → Qc → Qc → Qc → nat → patch_array;
}.

Module Patch.
Record t : Type := Make {
    num_zones : nat;
    faces : list Qc;
    coordinates : nat;
    scale_factor_initial : Qc;
    scale_factor_derivative : Qc;
    time : Qc;
    time0 : Qc;
    primitive1 : loc;
    conserved0 : loc;
    conserved1 : loc;
    conserved2 : loc;
  }.

Section methods.
Context {lib : Library}.

Definition scale_factor (self : t) : Qc :=
    (scale_factor_initial self + scale_factor_derivative self * time self)%Qc.

Definition recompute_primitive (self : t) : M patch_array unit :=
    C1 ← read (conserved1 self);
    P1 ← read (primitive1 self);
    launching (srhd_1d_conserved_to_primitive_launch
                 (conserved1 self) (primitive1 self) (scale_factor self));;
    write (primitive1 self)
      (srhd_1d_conserved_to_primitive (num_zones self) (faces self) C1 P1
         (scale_factor self) (coordinates self)).

  (** The method mutates [self]; the updated object is returned. *)
Definition advance_rk (self : t) (rk_param dt : Qc) : M patch_array t :=
    recompute_primitive self;;
    C0 ← read (conserved0 self);
    P1 ← read (primitive1 self);
    C1 ← read (conserved1 self);
    C2 ← read (conserved2 self);
    launching (srhd_1d_advance_rk_launch
                 (conserved0 self) (primitive1 self) (conserved1 self) (conserved2 self)
                 (scale_factor_initial self) (scale_factor_derivative self)
                 (time self) rk_param dt);;
    write (conserved2 self)
      (srhd_1d_advance_rk (num_zones self) (faces self) C0 P1 C1 C2
         (scale_factor_initial self) (scale_factor_derivative self)
         (time self) rk_param dt (coordinates self));;
    let time' := (time0 self * rk_param + (time0 self + dt) * (1 - rk_param))%Qc in
    mret {| num_zones := num_zones self;
            faces := faces self;
            coordinates := coordinates self;
            scale_factor_initial := scale_factor_initial self;
            scale_factor_derivative := scale_factor_derivative self;
            time := time';
            time0 := time0 self;
            primitive1 := primitive1 self;
            conserved0 := conserved0 self;
            conserved1 := conserved2 self;
            conserved2 := conserved1 self |}.

  (** [self.time0 = self.time; self.conserved0[...] = self.conserved1[...]]:
      the rows of [conserved1] are copied into the buffer [conserved0].  The
      updated object is returned; were the assignment to raise (two buffers
      of different shapes), the object would keep its new [time0]. *)
Definition new_timestep (self : t) : M patch_array t :=
    let self' := {| num_zones := num_zones self;
                    faces := faces self;
                    coordinates := coordinates self;
                    scale_factor_initial := scale_factor_initial self;
                    scale_factor_derivative := scale_factor_derivative self;
                    time := time self;
                    time0 := time self;
                    primitive1 := primitive1 self;
                    conserved0 := conserved0 self;
                    conserved1 := conserved1 self;
                    conserved2 := conserved2 self |} in
    assign_slice (conserved0 self') None None (conserved1 self') None None;;
    mret self'.

  (** The property [primitive]. *)
Definition primitive (self : t) : M patch_array loc :=
    recompute_primitive self;;
    mret (primitive1 self).
End methods.
End Patch.

Module Solver.
Record t : Type := Make {
    boundary_condition : string;
    num_guard : nat;
    num_cons : nat;
    num_zones : nat;
    patches : list Patch.t;
  }.

#[global] Instance patch_inhabited : Inhabited Patch.t :=
    populate (Patch.Make 0 [] 0 0%Qc 0%Qc 0%Qc 0%Qc 0 0 0 0).

Definition set_bc (self : t) (al a0 ar : loc) (index : nat) : M patch_array unit :=
    let ng := Z.of_nat (num_guard self) in
    let bc := boundary_condition self in
    if decide (bc = "periodic") then
      assign_slice a0 None (Some ng) al (Some (-2 * ng)%Z) (Some (- ng)%Z);;
      assign_slice a0 (Some (- ng)%Z) None ar (Some ng) (Some (2 * ng)%Z)
    else if decide (bc = "outflow") then
      (if decide (index = 0) then
         assign_slice a0 None (Some ng) a0 (Some ng) (Some (2 * ng)%Z)
       else
         assign_slice a0 None (Some ng) al (Some (-2 * ng)%Z) (Some (- ng)%Z));;
      (if decide (Z.of_nat index = Z.of_nat (length (patches self)) - 1)%Z then
         assign_slice a0 (Some (- ng)%Z) None a0 (Some (-2 * ng)%Z) (Some (- ng)%Z)
       else
         assign_slice a0 (Some (- ng)%Z) None ar (Some ng) (Some (2 * ng)%Z))
    else
      raise (ValueError "boundary condition must be 'periodic | outflow'").

  (** The first loop of [advance_rk]: the guard exchange of every patch with
      its two neighbours on the ring. *)
Definition exchange_guards (self : t) : M patch_array unit :=
    let patches := patches self in
    let num_patches := length patches in
    for_in (seq 0 num_patches) (λ i _,
      let pl := patches !!! ((i + num_patches - 1) mod num_patches) in
      let p0 := patches !!! i in
      let pr := patches !!! ((i + num_patches + 1) mod num_patches) in
      set_bc self (Patch.primitive1 pl) (Patch.primitive1 p0) (Patch.primitive1 pr) i;;
      set_bc self (Patch.conserved1 pl) (Patch.conserved1 p0) (Patch.conserved1 pr) i) ().

  (** [for patch in self.patches: patch.advance_rk(rk_param, dt)] *)
Fixpoint advance_patches {lib : Library} (patches : list Patch.t) (rk_param dt : Qc)
      : M patch_array (list Patch.t) :=
    match patches with
    | [] => mret []
    | patch :: patches =>
        patch ← Patch.advance_rk patch rk_param dt;
        patches ← advance_patches patches rk_param dt;
        mret (patch :: patches)
    end.

Definition advance_rk {lib : Library} (self : t) (rk_param dt : Qc) : M patch_array t :=
    exchange_guards self;;
    patches' ← advance_patches (patches self) rk_param dt;
    mret {| boundary_condition := boundary_condition self;
            num_guard := num_guard self;
            num_cons := num_cons self;
            num_zones := num_zones self;
            patches := patches' |}.

  (** [for patch in self.patches: patch.new_timestep()] *)
Fixpoint new_timestep_patches (patches : list Patch.t) : M patch_array (list Patch.t) :=
    match patches with
    | [] => mret []
    | patch :: patches =>
        patch ← Patch.new_timestep patch;
        patches ← new_timestep_patches patches;
        mret (patch :: patches)
    end.

Definition new_timestep (self : t) : M patch_array t :=
    patches' ← new_timestep_patches (patches self);
    mret {| boundary_condition := boundary_condition self;
            num_guard := num_guard self;
            num_cons := num_cons self;
            num_zones := num_zones self;
            patches := patches' |}.

  (** The property [time]: [self.patches[0].time], an [IndexError] ([None])
      on a solver without patches. *)
Definition time (self : t) : option Qc := Patch.time <$> patches self !! 0.
End Solver.

(** ** The stages in the words of the specification

    Section 4.5 to 4.7: a stage replaces every interior cell [c] of
    [[2, ni - 2)] by [cons_to_prim] of [u_c - (F+ - F-) * dt / dx], blended
    as [(1 - alpha) * u_c + alpha * U_rk[c]] when the solver is a Runge-Kutta
    one, and leaves the guard cells alone. *)

Definition interior (ni c : nat) : Prop := 2 ≤ c < ni - 2.

#[global] Instance interior_dec ni c : Decision (interior ni c) :=
  and_dec (decide (2 ≤ c)) (decide (c < ni - 2)).

Definition flux_difference (u fm fp : cell (NCONS 1)) (dt dx : Qc) : cell (NCONS 1) :=
  for_q 3 (λ q, at_q u q - (at_q fp q - at_q fm q) * dt / dx)%Qc.

Definition blend (alpha : Qc) (u urk_c : cell (NCONS 1)) : cell (NCONS 1) :=
  for_q 3 (λ q, (1 - alpha) * at_q u q + alpha * at_q urk_c q)%Qc.

Section stages.
Context {euler : lib_euler 1}.
Variables (solver : KernelClass) (U_rk : array) (dt dx plm_theta : Qc).

(** The flux through the face between the cells [k - 1] and [k], which the
    per-face solver keeps in [F[k]]. *)
Definition face_flux (X : array) (k : nat) : cell (NCONS 1) :=
  riemann_hlle (FluxPerFaceSolver.pm solver X plm_theta (k - 1))
               (FluxPerFaceSolver.pp solver X plm_theta (k - 1)) 1.

(** The two fluxes a cell of the per-zone solver computes for itself. *)
Definition zone_flux_minus (X : array) (c : nat) : cell (NCONS 1) :=
  riemann_hlle (FluxPerZoneSolver.plp solver X plm_theta c)
               (FluxPerZoneSolver.pcm solver X plm_theta c) 1.

Definition zone_flux_plus (X : array) (c : nat) : cell (NCONS 1) :=
  riemann_hlle (FluxPerZoneSolver.pcp solver X plm_theta c)
               (FluxPerZoneSolver.prm solver X plm_theta c) 1.

Definition stage_cell (fm fp : cell (NCONS 1)) (alpha : Qc) (pc urk_c : cell (NCONS 1)) : cell (NCONS 1) :=
  let u := flux_difference (prim_to_cons pc) fm fp dt dx in
  cons_to_prim (if runge_kutta solver then blend alpha u urk_c else u).

Definition face_stage (X : array) (alpha : Qc) : array :=
  imap (λ c pc,
    if decide (interior (length X) c) then
      stage_cell (face_flux X c) (face_flux X (c + 1)) alpha pc (at_i U_rk c)
    else pc) X.

Definition zone_stage (X : array) (alpha : Qc) : array :=
  imap (λ c pc,
    if decide (interior (length X) c) then
      stage_cell (zone_flux_minus X c) (zone_flux_plus X c) alpha pc (at_i U_rk c)
    else pc) X.
End stages.

(** The launches of the per-zone stages: the two buffers trade places after
    every stage. *)
Fixpoint zone_stage_launches (prd pwr urk : loc) (rks : list Qc) : list launch :=
  match rks with
  | [] => []
  | rk :: rks =>
      update_prim_launch [prd; pwr] (Some urk) rk :: zone_stage_launches pwr prd urk rks
  end.

(** The launches of the per-face stages. *)
Definition face_stage_launches (p f urk : loc) (rks : list Qc) : list launch :=
  rk ← rks; [compute_godunov_fluxes_launch p f; update_prim_launch [p; f] (Some urk) rk].

(** Two arrays of one shape that hold the same guard cells. *)
Definition same_guards (A B : array) : Prop :=
  length A = length B ∧ ∀ c, ¬ interior (length A) c → A !! c = B !! c.

(** [U_rk = prim_to_cons(P)], on every cell the conversion kernel covers:
    [prim_to_cons_array] of the 1D solvers loops over [[1, ni - 1)]. *)
Definition frozen {euler : lib_euler 1} (P U : array) : Prop :=
  length U = length P ∧
  ∀ c, 1 ≤ c < length P - 1 → U !! c = Some (prim_to_cons (at_i P c)).

(** The kernel class [get] selects for a valid configuration. *)
Definition solver_of (time_integration reconstruction : string) : KernelClass :=
  {| runge_kutta := bool_decide (time_integration ≠ "fwd");
     plm := bool_decide (reconstruction = "plm") |}.

(** The cell centers of section 3: [x_i = (i + 1/2) / ni] for [i] in [[0, ni)]. *)
Definition uniform_cell_centers (ni : nat) : list Qc :=
  (λ i, (Qc_of_nat i + c0_5) / Qc_of_nat ni)%Qc <$> seq 0 ni.

(** ** The guard exchange in the words of the specification *)

(** The [ng] interior rows next to the right guard ([a[-2 * ng : -ng]]) and
    next to the left guard ([a[ng : 2 * ng]]). *)
Definition right_edge (ng : nat) (A : patch_array) : patch_array :=
  take ng (drop (length A - 2 * ng) A).
Definition left_edge (ng : nat) (A : patch_array) : patch_array :=
  take ng (drop ng A).

(** A patch array with its two guard regions replaced. *)
Definition with_guards (ng : nat) (L A R : patch_array) : patch_array :=
  L ++ take (length A - 2 * ng) (drop ng A) ++ R.

(** [A0'] is [A0] with its guards filled: from the interior edges of the
    neighbours [AL] and [AR], or, under [outflow] at the two ends of the
    domain, from the interior edge of [A0] itself. *)
Definition guards_filled (bc : string) (ng num_patches index : nat)
    (AL A0 AR A0' : patch_array) : Prop :=
  length A0' = length A0 ∧
  (∀ k, ng ≤ k < length A0 - ng → A0' !! k = A0 !! k) ∧
  (∀ k, k < ng →
     A0' !! k = if decide (bc = "outflow" ∧ index = 0) then A0 !! (ng + k)
                else AL !! (length AL - 2 * ng + k)) ∧
  (∀ k, k < ng →
     A0' !! (length A0 - ng + k)
     = if decide (bc = "outflow" ∧ index = num_patches - 1)
       then A0 !! (length A0 - 2 * ng + k)
       else AR !! (ng + k)).

(** The array the exchange leaves in the patch [index] of a ring of
    [num_patches] patches whose arrays are [A 0], [A 1], ... *)
Definition exchanged (bc : string) (ng num_patches : nat) (A : nat → patch_array)
    (index : nat) : patch_array :=
  let A0 := A index in
  let L := if decide (bc = "outflow" ∧ index = 0) then left_edge ng A0
           else right_edge ng (A ((index + num_patches - 1) mod num_patches)) in
  let R := if decide (bc = "outflow" ∧ index = num_patches - 1) then right_edge ng A0
           else left_edge ng (A ((index + num_patches + 1) mod num_patches)) in
  with_guards ng L A0 R.

(** The contents of a ring of arrays [A] once the patches before [i] have
    had their guards filled, and the state of the exchange loop at that
    point: [AP] and [AC] are the primitive and conserved arrays it started
    from. *)
Definition served (bc : string) (ng num_patches : nat) (A : nat → patch_array)
    (i j : nat) : patch_array :=
  if decide (j < i) then exchanged bc ng num_patches A j else A j.

Definition exchange_inv (self : Solver.t) (AP AC : nat → patch_array)
    (s0 : state patch_array) (i : nat) (s : state patch_array) : Prop :=
  let ps := Solver.patches self in
  let sv := served (Solver.boundary_condition self) (Solver.num_guard self) (length ps) in
  launched s = launched s0 ∧
  (∀ j, j < length ps → arrays s !! Patch.primitive1 (ps !!! j) = Some (sv AP i j)) ∧
  (∀ j, j < length ps → arrays s !! Patch.conserved1 (ps !!! j) = Some (sv AC i j)).


(** ** A concrete configuration

    Ideal-gas conversions with [gamma = 5/3] (spec, section 4.1), and a local
    Lax-Friedrichs flux of unit wave speed in the place of HLLE, whose wave
    speeds need a square root; a memory whose fresh cells hold sevens; and
    the eight-cell shock tube of scenario S1. *)

Definition gamma_law_index : Qc := (Q2Qc 5 / Q2Qc 3)%Qc.

Definition ideal_gas_prim_to_cons (p : cell (NCONS 1)) : cell (NCONS 1) :=
  let rho := at_q p 0%fin in
  let v := at_q p 1%fin in
  let pre := at_q p 2%fin in
  [# rho; rho * v; pre / (gamma_law_index - 1) + c0_5 * rho * v * v]%Qc.

Definition ideal_gas_cons_to_prim (u : cell (NCONS 1)) : cell (NCONS 1) :=
  let rho := at_q u 0%fin in
  let mom := at_q u 1%fin in
  let nrg := at_q u 2%fin in
  [# rho; mom / rho; (nrg - c0_5 * mom * mom / rho) * (gamma_law_index - 1)]%Qc.

Definition ideal_gas_flux (p : cell (NCONS 1)) : cell (NCONS 1) :=
  let rho := at_q p 0%fin in
  let v := at_q p 1%fin in
  let pre := at_q p 2%fin in
  let nrg := at_q (ideal_gas_prim_to_cons p) 2%fin in
  [# rho * v; rho * v * v + pre; (nrg + pre) * v]%Qc.

Definition lax_friedrichs (pl pr : cell (NCONS 1)) (direction : nat) : cell (NCONS 1) :=
  for_q 3 (λ q,
    c0_5 * (at_q (ideal_gas_flux pl) q + at_q (ideal_gas_flux pr) q)
    - c0_5 * (at_q (ideal_gas_prim_to_cons pr) q - at_q (ideal_gas_prim_to_cons pl) q))%Qc.

Definition ideal_gas : lib_euler 1 :=
  LibEuler 1 ideal_gas_prim_to_cons ideal_gas_cons_to_prim lax_friedrichs.

(** In two dimensions only the error paths are run: the device functions
    may be anything. *)
Definition still_gas : lib_euler 2 := LibEuler 2 id id (λ pl _ _, pl).

Definition sevens : memory := Memory (λ n _ _, vreplicate n (Q2Qc 7)).
Definition nines : memory := Memory (λ n _ _, vreplicate n (Q2Qc 9)).

Definition left_state : cell (NCONS 1) := [# 1%Qc; 0%Qc; 1%Qc].
Definition right_state : cell (NCONS 1) := [# Q2Qc (1 # 10); 0%Qc; Q2Qc (1 # 8)].

Definition shocktube : array :=
  [left_state; left_state; left_state; left_state;
   right_state; right_state; right_state; right_state].

Definition shocktube_state : state array := State {[ 5 := shocktube ]} [].

(** The shock tube with its face array and the conserved states [U_rk]
    of a Runge-Kutta step. *)
Definition shocktube_stage : state array :=
  State {[ 5 := shocktube; 6 := replicate 8 (vreplicate 3 (Q2Qc 7));
           7 := ideal_gas_prim_to_cons <$> shocktube ]} [].

Definition empty_state2 : state array2 := State ∅ [].

(** A ring of three SRHD patches of three zones each, with a native library
    that copies its input buffer. *)
Definition copying_library : Library := {|
  srhd_1d_primitive_to_conserved := λ _ _ primitive _ _ _, primitive;
  srhd_1d_conserved_to_primitive := λ _ _ conserved _ _ _, conserved;
  srhd_1d_advance_rk := λ _ _ _ _ conserved1 _ _ _ _ _ _ _, conserved1;
|}.

Definition numbered_row (k : Z) : cell 4 := [# Qc_of_Z k; 0%Qc; 0%Qc; 0%Qc].

Definition numbered_rows (b : Z) : patch_array :=
  (λ k, numbered_row (b + k)) <$> [0; 1; 2; 3; 4; 5; 6]%Z.

Definition ring_patch (l : loc) : Patch.t :=
  Patch.Make 3 [] 0 1%Qc (Q2Qc 2) (Q2Qc 3) (Q2Qc 3) l (l + 20) (l + 10) (l + 30).

Definition ring_solver (bc : string) : Solver.t :=
  Solver.Make bc 2 4 9 [ring_patch 0; ring_patch 1; ring_patch 2].

Definition ring_state : state patch_array :=
  State {[ 0 := numbered_rows 0; 1 := numbered_rows 10; 2 := numbered_rows 20;
           10 := numbered_rows 100; 11 := numbered_rows 110; 12 := numbered_rows 120;
           20 := numbered_rows 200; 30 := numbered_rows 300 ]} [].

(** A ring of four patches of one zone each: five rows with the guards,
    fewer interior rows than guard rows. *)
Definition short_rows (b : Z) : patch_array :=
  (λ k, numbered_row (b + k)) <$> [0; 1; 2; 3; 4]%Z.

Definition short_patch (l : loc) : Patch.t :=
  Patch.Make 1 [] 0 1%Qc (Q2Qc 2) (Q2Qc 3) (Q2Qc 3) l (l + 20) (l + 10) (l + 30).

Definition short_ring : Solver.t :=
  Solver.Make "periodic" 2 4 4 [short_patch 0; short_patch 1; short_patch 2; short_patch 3].

Definition short_ring_state : state patch_array :=
  State {[ 0 := short_rows 0; 1 := short_rows 10; 2 := short_rows 20; 3 := short_rows 30;
           10 := short_rows 100; 11 := short_rows 110; 12 := short_rows 120;
           13 := short_rows 130 ]} [].

(** ** Further definitions for the properties of the drivers *)

(** The stages a value of [time_integration] stands for: [fwd] is one stage
    of coefficient 0 computed by a kernel compiled without the blend. *)
Definition stages_of (time_integration : string) : list Qc :=
  if decide (time_integration = "rk2") then [0%Qc; c0_5]
  else if decide (time_integration = "rk3") then [0; Q2Qc 3 / Q2Qc 4; 1 / Q2Qc 3]%Qc
  else [0%Qc].


(** A tube of six cells at rest in the left state. *)
Definition still_tube : state array := State {[ 5 := replicate 6 left_state ]} [].


(** ** Patch geometry of the 2D driver *)

(** What the arithmetic of the geometry functions can raise: a division of a
    float by the integer 0 (ZeroDivisionError), a shift by a negative count
    (ValueError), numpy's [linspace] asked for a negative number of samples
    (ValueError), and an integer operand too large to convert to a float
    (OverflowError). *)
Inductive geometry_error : Type :=
  | ZeroDivisionError
  | NegativeShiftCount
  | NegativeSampleCount
  | OverflowError.

#[global] Instance geometry_ret : MRet (sum geometry_error) := λ _ x, inr x.

#[global] Instance geometry_bind : MBind (sum geometry_error) := λ _ _ k m,
  match m with
  | inl e => inl e
  | inr x => k x
  end.

(** The integers Python converts to a float: the largest double is
    [2^1024 - 2^971], and an integer that rounds past it does not convert. *)
Definition fits_float (n : Z) : Prop := (Z.abs n < 2 ^ 1024 - 2 ^ 970)%Z.

#[global] Instance fits_float_dec n : Decision (fits_float n) :=
  decide (Z.abs n < 2 ^ 1024 - 2 ^ 970)%Z.

(** The conversion of the integer operand of a float operation; the value is
    kept exact. *)
Definition float_of_int (n : Z) : geometry_error + Qc :=
  if decide (fits_float n) then inr (Qc_of_Z n) else inl OverflowError.

(** [x / n] for a float [x] and an integer [n]: [n] is converted, then a
    zero divisor raises. *)
Definition float_div_int (x : Qc) (n : Z) : geometry_error + Qc :=
  d ← float_of_int n;
  if decide (n = 0)%Z then inl ZeroDivisionError else inr (x / d)%Qc.

(** [n * x] for an integer [n] and a float [x]. *)
Definition int_mul_float (n : Z) (x : Qc) : geometry_error + Qc :=
  f ← float_of_int n; mret (f * x)%Qc.

(** [1 << level], which Python refuses for a negative count.  The result is
    taken to fit in memory. *)
Definition shift_1 (level : Z) : geometry_error + Z :=
  if decide (level < 0)%Z then inl NegativeShiftCount else inr (Z.shiftl 1 level).

(** A patch index [(level, (i, j))]. *)
Definition patch_index : Type := Z * (Z * Z).

Definition patch_spacing (index : patch_index) (nz np : Z)
    : geometry_error + (Qc * Qc) :=
  let '(level, (i, j)) := index in
  d ← float_div_int 1 np;
  d ← float_div_int d nz;
  k ← shift_1 level;
  dx ← float_div_int d k;
  d ← float_div_int 1 np;
  d ← float_div_int d nz;
  k ← shift_1 level;
  dy ← float_div_int d k;
  mret (dx, dy).

Definition patch_extent (index : patch_index) (nz np : Z)
    : geometry_error + ((Qc * Qc) * (Qc * Qc)) :=
  let '(level, (i, j)) := index in
  d ← float_div_int 1 np;
  k ← shift_1 level;
  dx ← float_div_int d k;
  d ← float_div_int 1 np;
  k ← shift_1 level;
  dy ← float_div_int d k;
  a ← int_mul_float (i + 0) dx;
  let x0 := (- c0_5 + a)%Qc in
  a ← int_mul_float (i + 1) dx;
  let x1 := (- c0_5 + a)%Qc in
  a ← int_mul_float (j + 0) dy;
  let y0 := (- c0_5 + a)%Qc in
  a ← int_mul_float (j + 1) dy;
  let y1 := (- c0_5 + a)%Qc in
  mret ((x0, x1), (y0, y1)).







(** The position of the patch edge [i] at a refinement level. *)
Definition patch_edge (np level i : Z) : Qc :=
  (- c0_5 + Qc_of_Z i * (1 / Qc_of_Z np / Qc_of_Z (2 ^ level)))%Qc.


(** ** Further definitions for the properties of the SRHD solver *)

(** The object [Patch.advance_rk] leaves, the kernels it launches and the
    buffers a patch owns. *)
Definition advanced (rk_param dt : Qc) (self : Patch.t) : Patch.t :=
  Patch.Make (Patch.num_zones self) (Patch.faces self) (Patch.coordinates self)
    (Patch.scale_factor_initial self) (Patch.scale_factor_derivative self)
    (Patch.time0 self * rk_param + (Patch.time0 self + dt) * (1 - rk_param))%Qc
    (Patch.time0 self) (Patch.primitive1 self) (Patch.conserved0 self)
    (Patch.conserved2 self) (Patch.conserved1 self).

Definition patch_launches (rk_param dt : Qc) (self : Patch.t) : list launch :=
  [srhd_1d_conserved_to_primitive_launch
     (Patch.conserved1 self) (Patch.primitive1 self) (Patch.scale_factor self);
   srhd_1d_advance_rk_launch (Patch.conserved0 self) (Patch.primitive1 self)
     (Patch.conserved1 self) (Patch.conserved2 self)
     (Patch.scale_factor_initial self) (Patch.scale_factor_derivative self)
     (Patch.time self) rk_param dt].

Definition patch_buffers (self : Patch.t) : list loc :=
  [Patch.primitive1 self; Patch.conserved0 self; Patch.conserved1 self; Patch.conserved2 self].

(** The array a location holds, and the arrays the two kernels of a patch
    compute from a state. *)
Definition array_of (s : state patch_array) (l : loc) : patch_array :=
  default [] (arrays s !! l).

Definition recomputed_primitive {lib : Library} (s : state patch_array) (self : Patch.t)
    : patch_array :=
  srhd_1d_conserved_to_primitive (Patch.num_zones self) (Patch.faces self)
    (array_of s (Patch.conserved1 self)) (array_of s (Patch.primitive1 self))
    (Patch.scale_factor self) (Patch.coordinates self).

Definition advanced_conserved {lib : Library} (s : state patch_array) (self : Patch.t)
    (rk_param dt : Qc) : patch_array :=
  srhd_1d_advance_rk (Patch.num_zones self) (Patch.faces self)
    (array_of s (Patch.conserved0 self)) (recomputed_primitive s self)
    (array_of s (Patch.conserved1 self)) (array_of s (Patch.conserved2 self))
    (Patch.scale_factor_initial self) (Patch.scale_factor_derivative self)
    (Patch.time self) rk_param dt (Patch.coordinates self).

(** The ring of three patches with every buffer of every patch allocated. *)
Definition full_ring_state : state patch_array :=
  State (list_to_map ((λ l : nat, (l, numbered_rows (10 * Z.of_nat l)))
                        <$> [0; 1; 2; 10; 11; 12; 20; 21; 22; 30; 31; 32])) [].

(** The object [Patch.new_timestep] leaves. *)
Definition restarted (self : Patch.t) : Patch.t :=
  Patch.Make (Patch.num_zones self) (Patch.faces self) (Patch.coordinates self)
    (Patch.scale_factor_initial self) (Patch.scale_factor_derivative self)
    (Patch.time self) (Patch.time self) (Patch.primitive1 self)
    (Patch.conserved0 self) (Patch.conserved1 self) (Patch.conserved2 self).

(** ** Further definitions for the properties of the 2D driver *)

(** The cells [(i, j)] of a [[ni, nj]] array that a stage of the 2D solver
    writes: those two or more cells away from every edge. *)
Definition interior2 (ni nj i j : nat) : Prop := 2 ≤ i < ni - 2 ∧ 2 ≤ j < nj - 2.

#[global] Instance interior2_dec ni nj i j : Decision (interior2 ni nj i j) :=
  and_dec (and_dec (decide (2 ≤ i)) (decide (i < ni - 2)))
          (and_dec (decide (2 ≤ j)) (decide (j < nj - 2))).

(** One stage of the 2D solver on the array [X]: the interior cell [(i, j)],
    stored at [c = i * nj + j], becomes [cons_to_prim] of the conserved state
    [ucc] the kernel computes there, the other cells stay. *)
Definition zone_stage2d {euler : lib_euler 2} (solver : KernelClass)
    (U_rk : list (cell (NCONS 2))) (dt dx plm_theta : Qc) (X : array2) (alpha : Qc)
    : array2 :=
  let nj := shape1 X in
  Array2 (shape0 X) nj
    (imap (λ c pc,
       if decide (interior2 (shape0 X) nj (c / nj) (c mod nj)) then
         cons_to_prim
           (FluxPerZoneSolver2D.ucc solver (cells2 X) plm_theta nj (c / nj) (c mod nj)
              U_rk dt dx alpha)
       else pc) (cells2 X)).

(** A numpy array of shape [[ni, nj, 4]] holds [ni * nj] cells. *)
Definition well_shaped (X : array2) : Prop := length (cells2 X) = shape0 X * shape1 X.

(** Two arrays of one shape that hold the same cells outside the interior. *)
Definition same_frame (A B : array2) : Prop :=
  shape0 A = shape0 B ∧ shape1 A = shape1 B ∧
  length (cells2 A) = length (cells2 B) ∧
  ∀ c, ¬ interior2 (shape0 A) (shape1 A) (c / shape1 A) (c mod shape1 A) →
       cells2 A !! c = cells2 B !! c.

(** A five by five grid of numbered cells, and device functions for which
    the conserved variables are the primitive ones and the flux through a
    face is the state on its left. *)
Definition upwind2 : lib_euler 2 := LibEuler 2 id id (λ pl _ _, pl).

Definition numbered_cell2 (k : nat) : cell (NCONS 2) := [# Qc_of_nat k; 0%Qc; 0%Qc; 1%Qc].

Definition grid5 : array2 := Array2 5 5 (numbered_cell2 <$> seq 0 25).

Definition grid5_state : state array2 := State {[ 5 := grid5 ]} [].

(** A six by five grid at rest in one state. *)
Definition still_grid : state array2 :=
  State {[ 5 := Array2 6 5 (replicate (6 * 5) (numbered_cell2 1)) ]} [].

(** ** Configuration maps ([flatten_dict], [dict_section]) *)

(** A Python [dict] with string keys, in insertion order: the list of its
    [items()].  A configuration is a dict whose values are leaves or dicts. *)
Inductive config (V : Type) : Type :=
  | Leaf (x : V)
  | Node (d : config_dict V)
with config_dict (V : Type) : Type :=
  | dnil
  | dcons (k : string) (v : config V) (rest : config_dict V).
Arguments Leaf {V} _.
Arguments Node {V} _.
Arguments dnil {V}.
Arguments dcons {V} _ _ _.

(** [d[k] = v]: the value of an existing key is replaced where it stands, a
    new key goes to the end. *)
Definition dict_set {X} (d : list (string * X)) (k : string) (v : X) : list (string * X) :=
  if decide (k ∈ d.*1) then (λ kv, if decide (kv.1 = k) then (k, v) else kv) <$> d
  else d ++ [(k, v)].

(** [dict(items)] *)
Definition dict_of {X} (items : list (string * X)) : list (string * X) :=
  foldl (λ d kv, dict_set d kv.1 kv.2) [] items.

(** [d.get(k)] *)
Fixpoint dict_get {X} (d : list (string * X)) (k : string) : option X :=
  match d with
  | [] => None
  | (k', v) :: d' => if decide (k' = k) then Some v else dict_get d' k
  end.

(** [parent_key + sep + k if parent_key else k] *)
Definition new_key (parent_key sep k : string) : string :=
  if decide (parent_key = "") then k else parent_key +:+ sep +:+ k.

(** The loop of [flatten_dict], which builds the list [items]; a nested
    dict contributes the items of its own flattening. *)
Fixpoint flatten_items {V} (d : config_dict V) (parent_key sep : string)
    : list (string * V) :=
  match d with
  | dnil => []
  | dcons k v rest =>
      let new_key := new_key parent_key sep k in
      (match v with
       | Node d' => dict_of (flatten_items d' new_key sep)
       | Leaf x => [(new_key, x)]
       end) ++ flatten_items rest parent_key sep
  end.

Definition flatten_dict {V} (d : config_dict V) (parent_key sep : string)
    : list (string * V) :=
  dict_of (flatten_items d parent_key sep).

(** The character of ["."]. *)
Definition dot : Ascii.ascii := Ascii.ascii_of_nat 46.

(** [k.index(c)] for a one-character [c]: the position of its first
    occurrence, [None] standing for the [ValueError] of a missing one. *)
Fixpoint index_of (c : Ascii.ascii) (k : string) : option nat :=
  match k with
  | EmptyString => None
  | String c' k' => if decide (c' = c) then Some 0 else S <$> index_of c k'
  end.

(** [k[i:]] *)
Fixpoint string_from (i : nat) (k : string) : string :=
  match i, k with
  | 0, _ => k
  | S i, EmptyString => EmptyString
  | S i, String _ k' => string_from i k'
  end.

(** One item of the dict comprehension of [dict_section]: a key that starts
    with [section] is stored without its text up to the first dot, and
    [k.index] raises when the key holds no dot. *)
Definition dict_section_item {X} (section : string)
    (acc : result (list (string * X))) (kv : string * X) : result (list (string * X)) :=
  match acc with
  | Raise e => Raise e
  | Ok r =>
      if String.prefix section kv.1 then
        match index_of dot kv.1 with
        | Some i => Ok (dict_set r (string_from (i + 1) kv.1) kv.2)
        | None => Raise (ValueError "substring not found")
        end
      else Ok r
  end.

(** [dict_section]: the items of [d] are visited in order. *)
Definition dict_section {X} (d : list (string * X)) (section : string)
    : result (list (string * X)) :=
  foldl (dict_section_item section) (Ok []) d.

(** [d[k1][k2]...[kn]] *)
Fixpoint config_get {V} (d : config_dict V) (k : string) : option (config V) :=
  match d with
  | dnil => None
  | dcons k' v rest => if decide (k' = k) then Some v else config_get rest k
  end.

Fixpoint nested_get {V} (d : config_dict V) (path : list string) : option (config V) :=
  match path with
  | [] => None
  | k :: path' =>
      match path' with
      | [] => config_get d k
      | _ =>
          match config_get d k with
          | Some (Node d') => nested_get d' path'
          | _ => None
          end
      end
  end.

(** ["k1.k2...kn"] *)
Fixpoint join_path (path : list string) : string :=
  match path with
  | [] => ""
  | k :: path' =>
      match path' with
      | [] => k
      | _ => k +:+ "." +:+ join_path path'
      end
  end.

(** The keys of a dict, and the configurations whose keys, at every level,
    are distinct within their dict, non-empty and free of dots. *)
Fixpoint config_keys {V} (d : config_dict V) : list string :=
  match d with
  | dnil => []
  | dcons k _ rest => k :: config_keys rest
  end.

Definition plain_key (k : string) : Prop := k ≠ "" ∧ index_of dot k = None.

Fixpoint plain_config {V} (v : config V) : Prop :=
  match v with
  | Leaf _ => True
  | Node d => plain_dict d
  end
with plain_dict {V} (d : config_dict V) : Prop :=
  match d with
  | dnil => True
  | dcons k v rest =>
      plain_key k ∧ (k ∉ config_keys rest) ∧ plain_config v ∧ plain_dict rest
  end.

(** The dicts whose dict-valued keys are not empty. *)
Fixpoint named_sections {V} (d : config_dict V) : Prop :=
  match d with
  | dnil => True
  | dcons k v rest =>
      (match v with Node _ => k ≠ "" | Leaf _ => True end) ∧ named_sections rest
  end.

(** A configuration with two sections and a top-level scalar. *)
Definition config_example : config_dict nat :=
  dcons "driver"
    (Node (dcons "nz" (Leaf 1) (dcons "mesh" (Node (dcons "n" (Leaf 2) dnil)) dnil)))
    (dcons "physics" (Node (dcons "gamma" (Leaf 3) dnil))
       (dcons "verbose" (Leaf 0) dnil)).

(** The items of a dict with every key renamed. *)
Definition map_keys {X} (f : string → string) (l : list (string * X)) : list (string * X) :=
  (λ kv, (f kv.1, kv.2)) <$> l.

(** A string that continues a key: nothing, or a dot and more. *)
Definition key_end (e : string) : Prop := e = "" ∨ ∃ t, e = "." +:+ t.

(** A flat key that is [K], or [K] followed by a dot and more. *)
Definition under (K s : string) : Prop := ∃ e, key_end e ∧ s = K +:+ e.

(** ** The initial state of the 1D simulation *)


(** * Lemmas and theorems *)

Local Open Scope Qc_scope.

(** ** Properties of the limiter *)

Section limiter.

Lemma fabs_nonneg x : 0 <= fabs x.
  Proof. unfold fabs. case_decide; qc_order. Qed.

Lemma fabs_opp x : fabs (- x) = fabs x.
  Proof. unfold fabs. repeat case_decide; qc_order. Qed.

Lemma fabs_0 : fabs 0 = 0.
  Proof. reflexivity. Qed.

Lemma sign_opp x : x ≠ 0 → sign (- x) = - sign x.
  Proof.
    intros Hx. unfold sign, copysign.
    repeat case_decide; try reflexivity; try (symmetry; apply Qcopp_involutive);
      exfalso; qc_order.
  Qed.

Lemma min2_0_l y : 0 <= y → min2 0 y = 0.
  Proof. intros Hy. unfold min2. case_decide; qc_order. Qed.

Lemma min2_0_r x : 0 <= x → min2 x 0 = 0.
  Proof. intros Hx. unfold min2. case_decide; qc_order. Qed.

Lemma min2_nonneg x y : 0 <= x → 0 <= y → 0 <= min2 x y.
  Proof. intros Hx Hy. unfold min2. by case_decide. Qed.

Lemma minabs_0 a b c : a = 0 ∨ b = 0 ∨ c = 0 → minabs a b c = 0.
  Proof.
    unfold minabs, min3. intros [-> | [-> | ->]]; rewrite fabs_0.
    - apply min2_0_l, min2_nonneg; apply fabs_nonneg.
    - rewrite min2_0_l by apply fabs_nonneg. apply min2_0_r, fabs_nonneg.
    - rewrite min2_0_r by apply fabs_nonneg. apply min2_0_r, fabs_nonneg.
  Qed.

Lemma minabs_opp a b c : minabs (- a) (- b) (- c) = minabs a b c.
  Proof. unfold minabs. by rewrite !fabs_opp. Qed.

End limiter.

(** C7: for every [y] and every [plm_theta], the limited slope of three equal
    samples is zero: [plm_minmod(y, y, y, plm_theta) = 0]. *)
Theorem plm_minmod_equal_samples (y plm_theta : Qc) :
  plm_minmod y y y plm_theta = 0.
Proof.
  unfold plm_minmod.
  replace ((y - y) * plm_theta) with 0 by ring.
  replace ((y - y) * c0_5) with 0 by ring.
  rewrite minabs_0 by auto. ring.
Qed.

(** C8: the limiter is antisymmetric under negation of its three samples:
    [plm_minmod(-yl, -yc, -yr, plm_theta) = - plm_minmod(yl, yc, yr, plm_theta)]. *)
Theorem plm_minmod_antisymmetric (yl yc yr plm_theta : Qc) :
  plm_minmod (- yl) (- yc) (- yr) plm_theta = - plm_minmod yl yc yr plm_theta.
Proof.
  unfold plm_minmod.
  replace ((- yc - - yl) * plm_theta) with (- ((yc - yl) * plm_theta)) by ring.
  replace ((- yr - - yl) * c0_5) with (- ((yr - yl) * c0_5)) by ring.
  replace ((- yr - - yc) * plm_theta) with (- ((yr - yc) * plm_theta)) by ring.
  generalize ((yc - yl) * plm_theta), ((yr - yl) * c0_5), ((yr - yc) * plm_theta).
  intros a b c. rewrite minabs_opp.
  destruct (decide (a = 0)) as [Ha | Ha];
    [rewrite (minabs_0 a b c) by auto; ring |].
  destruct (decide (b = 0)) as [Hb | Hb];
    [rewrite (minabs_0 a b c) by auto; ring |].
  destruct (decide (c = 0)) as [Hc | Hc];
    [rewrite (minabs_0 a b c) by auto; ring |].
  rewrite !sign_opp by done.
  replace (- sign a + - sign b) with (- (sign a + sign b)) by ring.
  rewrite fabs_opp. ring.
Qed.

Example plm_minmod_monotone_samples :
  plm_minmod 0 1 2 2 = 1 ∧ plm_minmod 0 1 0 2 = 0 ∧ plm_minmod 2 1 0 2 = - 1.
Proof. repeat split; by apply (bool_decide_unpack _). Qed.

Section limiter_more.

Lemma sign_nonneg x : 0 <= x → sign x = 1.
Proof. intros Hx. unfold sign, copysign. case_decide; [exfalso; qc_order | reflexivity]. Qed.

Lemma sign_neg x : x < 0 → sign x = - (1).
Proof. intros Hx. unfold sign, copysign. case_decide; [reflexivity | exfalso; qc_order]. Qed.

Lemma plm_minmod_mixed_ac a b c :
  (a < 0 ∧ 0 <= c) ∨ (0 <= a ∧ c < 0) →
  c0_25 * fabs (sign a + sign b) * (sign a + sign c) * minabs a b c = 0.
Proof.
  intros [[Ha Hb] | [Ha Hb]].
  - rewrite (sign_neg a), (sign_nonneg c) by done. ring.
  - rewrite (sign_nonneg a), (sign_neg c) by done. ring.
Qed.

Lemma Qc_sign_cases x : x < 0 ∨ x = 0 ∨ 0 < x.
Proof.
  destruct (decide (x < 0)); [by left|]. destruct (decide (x = 0)); [by right; left|].
  right; right. qc_order.
Qed.

Lemma Qcmult_pos_pos x y : 0 < x → 0 < y → 0 < x * y.
Proof.
  intros Hx Hy. pose proof (Qcmult_lt_compat_r 0 x y Hy Hx) as E.
  by rewrite Qcmult_0_l in E.
Qed.

Lemma Qcmult_neg_neg x y : x < 0 → y < 0 → 0 < x * y.
Proof.
  intros Hx Hy. replace (x * y) with ((- x) * (- y)) by ring.
  apply Qcmult_pos_pos; qc_order.
Qed.

Lemma Qcmult_pos_neg x y : 0 < x → y < 0 → x * y < 0.
Proof.
  intros Hx Hy. assert (0 < x * (- y)) by (apply Qcmult_pos_pos; qc_order).
  replace (x * - y) with (- (x * y)) in * by ring. qc_order.
Qed.

Lemma Qcmult_neg_pos x y : x < 0 → 0 < y → x * y < 0.
Proof. intros Hx Hy. rewrite Qcmult_comm. by apply Qcmult_pos_neg. Qed.

Lemma plm_minmod_zero_abc a b c :
  a = 0 ∨ b = 0 ∨ c = 0 →
  c0_25 * fabs (sign a + sign b) * (sign a + sign c) * minabs a b c = 0.
Proof. intros H. rewrite minabs_0 by done. apply Qcmult_0_r. Qed.

End limiter_more.

(** X1: the limited slope vanishes at a local extremum of the three samples,
    whatever [plm_theta] is. *)
Theorem plm_minmod_extremum (yl yc yr plm_theta : Qc) :
  (yc - yl) * (yr - yc) <= 0 → plm_minmod yl yc yr plm_theta = 0.
Proof.
  intros Hext. unfold plm_minmod. cbv zeta.
  generalize ((yr - yl) * c0_5). intros b.
  generalize dependent (yc - yl). intros dl. generalize (yr - yc). intros dr Hext.
  destruct (Qc_sign_cases plm_theta) as [Ht | [-> | Ht]];
    [| apply plm_minmod_zero_abc; left; apply Qcmult_0_r |].
  all: destruct (Qc_sign_cases dl) as [Hl | [-> | Hl]];
    [| apply plm_minmod_zero_abc; left; apply Qcmult_0_l |].
  all: destruct (Qc_sign_cases dr) as [Hr | [-> | Hr]];
    [| apply plm_minmod_zero_abc; right; right; apply Qcmult_0_l |].
  all: try (exfalso; first [ pose proof (Qcmult_neg_neg _ _ Hl Hr)
                           | pose proof (Qcmult_pos_pos _ _ Hl Hr) ];
            clear -Hext H; qc_order).
  all: apply plm_minmod_mixed_ac.
  - right. split; [apply Qclt_le_weak; by apply Qcmult_neg_neg | by apply Qcmult_pos_neg].
  - left. split; [by apply Qcmult_pos_neg | apply Qclt_le_weak; by apply Qcmult_neg_neg].
  - left. split; [by apply Qcmult_neg_pos | apply Qclt_le_weak; by apply Qcmult_pos_pos].
  - right. split; [apply Qclt_le_weak; by apply Qcmult_pos_pos | by apply Qcmult_neg_pos].
Qed.

Lemma plm_minmod_extremum_witness : 
  (1 - 0) * (0 - 1) <= 0 ∧ plm_minmod 0 1 0 (Q2Qc 2) = 0.
Proof.
  assert (H : (1 - 0) * (0 - 1) <= 0) by (apply (bool_decide_unpack _); vm_compute; exact I).
  split; [exact H|]. exact (plm_minmod_extremum 0 1 0 (Q2Qc 2) H).
Defined.

Local Close Scope Qc_scope.

(** ** Loops over index ranges

    A kernel loop that writes one slot per index is a pointwise map of the
    array it writes. *)

Section loops.
Context {T : Type} `{Inhabited T}.

Lemma foldl_insert_in_place (h : nat → T → T) (lo n : nat) (l : list T) :
  foldl (λ l i, <[i := h i (l !!! (i + 0))]> l) l (seq lo n)
  = imap (λ k x, if bool_decide (lo ≤ k < lo + n) then h k x else x) l.
Proof.
  induction n as [|n IH].
  - cbn. apply list_eq. intros k. rewrite list_lookup_imap.
    rewrite bool_decide_eq_false_2 by lia. by destruct (l !! k).
  - rewrite seq_S, foldl_snoc, IH. apply list_eq. intros k.
    rewrite Nat.add_0_r.
    destruct (decide (k = lo + n)) as [-> | Hk].
    + destruct (l !! (lo + n)) as [x|] eqn:Hx.
      * rewrite list_lookup_insert_eq
          by (rewrite length_imap; by eapply lookup_lt_Some).
        rewrite list_lookup_imap, Hx. cbn.
        rewrite bool_decide_eq_true_2 by lia. f_equal. f_equal.
        apply list_lookup_total_correct.
        rewrite list_lookup_imap, Hx. cbn.
        by rewrite bool_decide_eq_false_2 by lia.
      * rewrite list_insert_ge by
          (rewrite length_imap; by apply lookup_ge_None).
        by rewrite !list_lookup_imap, Hx.
    + rewrite list_lookup_insert_ne by done.
      rewrite !list_lookup_imap. destruct (l !! k); [|done]. cbn.
      f_equal. apply (f_equal (λ b : bool, if b then _ else _)).
      apply bool_decide_ext. lia.
Qed.

Lemma FOR_RANGE_1D_in_place (h : nat → T → T) (i0 i1 : nat) (l : list T) :
  FOR_RANGE_1D i0 i1 (λ i l, <[i := h i (l !!! (i + 0))]> l) l
  = imap (λ k x, if bool_decide (i0 ≤ k < i1) then h k x else x) l.
Proof.
  unfold FOR_RANGE_1D. rewrite foldl_insert_in_place.
  apply imap_ext. intros k x _.
  apply (f_equal (λ b : bool, if b then _ else _)).
  apply bool_decide_ext. lia.
Qed.

Lemma FOR_RANGE_1D_insert (g : nat → T) (i0 i1 : nat) (l : list T) :
  FOR_RANGE_1D i0 i1 (λ i l, <[i := g i]> l) l
  = imap (λ k x, if bool_decide (i0 ≤ k < i1) then g k else x) l.
Proof. apply (FOR_RANGE_1D_in_place (λ k _, g k)). Qed.

Lemma FOR_RANGE_1D_insert_next (g : nat → T) (i0 i1 : nat) (l : list T) :
  FOR_RANGE_1D i0 i1 (λ i l, <[i + 1 := g i]> l) l
  = imap (λ k x, if bool_decide (i0 + 1 ≤ k < i1 + 1) then g (k - 1) else x) l.
Proof.
  unfold FOR_RANGE_1D.
  transitivity (foldl (λ l k, <[k := g (k - 1)]> l) l (seq (i0 + 1) (i1 - i0))).
  - generalize (i1 - i0) as n. intros n. revert l i0.
    induction n as [|n IH]; intros l i0; [done|].
    cbn. rewrite IH. replace (S i0 + 1) with (S (i0 + 1)) by lia.
    replace (i0 + 1 - 1) with i0 by lia. done.
  - pose proof (FOR_RANGE_1D_insert (λ k, g (k - 1)) (i0 + 1) (i1 + 1) l) as E.
    unfold FOR_RANGE_1D in E. replace (i1 + 1 - (i0 + 1)) with (i1 - i0) in E by lia.
    exact E.
Qed.
End loops.

(** ** Cells and shapes *)

Section cells.
Lemma at_q_for_q n f q : at_q (for_q n f) q = f q.
Proof. unfold at_q, for_q. apply lookup_fun_to_vec. Qed.

Lemma for_q_ext n f g : (∀ q, f q = g q) → for_q n f = for_q n g.
Proof.
  intros E. apply vec_eq. intros q. unfold for_q. by rewrite !lookup_fun_to_vec.
Qed.

Lemma size_array (P : array) : size P / 3 = length P.
Proof. unfold size. by apply Nat.div_mul. Qed.
End cells.

(** ** The kernels as stages

    On buffers of one length each update kernel computes the stage of the
    specification; the per-face update reads only fluxes the flux kernel has
    just written. *)

Section kernel_lemmas.
Context {euler : lib_euler 1}.

Lemma zone_uc_stage self X U dt dx rk θ c :
  cons_to_prim (FluxPerZoneSolver.uc self X U dt dx rk θ c)
  = stage_cell self dt dx (zone_flux_minus self θ X c) (zone_flux_plus self θ X c)
      rk (at_i X c) (at_i U c).
Proof.
  unfold FluxPerZoneSolver.uc, stage_cell, zone_flux_minus, zone_flux_plus.
  rewrite Nat.add_0_r. f_equal.
  unfold blend, flux_difference. change (NCONS 1) with 3.
  destruct (runge_kutta self); [|done].
  apply for_q_ext. intros q. rewrite at_q_for_q. ring.
Qed.

Lemma zone_kernel_stage self A B U dt dx rk θ :
  same_guards A B →
  FluxPerZoneSolver.update_prim_kernel self A B U dt dx rk θ (shape A)
  = zone_stage self U dt dx θ A rk.
Proof.
  intros [Hlen Hg]. unfold FluxPerZoneSolver.update_prim_kernel, zone_stage, shape.
  rewrite FOR_RANGE_1D_insert. apply list_eq. intros c.
  rewrite !list_lookup_imap. case_decide as Hc.
  - rewrite bool_decide_eq_true_2 by exact Hc.
    assert (c < length A) as Hlt by (unfold interior in Hc; lia).
    destruct (lookup_lt_is_Some_2 A c Hlt) as [x Hx].
    destruct (lookup_lt_is_Some_2 B c ltac:(lia)) as [y Hy].
    rewrite Hx, Hy. cbn [fmap option_fmap option_map]. f_equal. rewrite zone_uc_stage. f_equal.
    unfold at_i. by apply list_lookup_total_correct.
  - rewrite bool_decide_eq_false_2 by exact Hc.
    rewrite <- (Hg c Hc). by destruct (A !! c).
Qed.

Lemma zone_stage_same_guards self U dt dx θ A rk :
  same_guards A (zone_stage self U dt dx θ A rk).
Proof.
  unfold zone_stage. split; [by rewrite length_imap|].
  intros c Hc. rewrite list_lookup_imap. destruct (A !! c); [cbn|done].
  by rewrite decide_False.
Qed.

Lemma same_guards_sym A B : same_guards A B → same_guards B A.
Proof. intros [E G]. split; [done|]. intros c Hc. symmetry. apply G. by rewrite E. Qed.

Lemma same_guards_trans A B C : same_guards A B → same_guards B C → same_guards A C.
Proof.
  intros [E1 G1] [E2 G2]. split; [congruence|]. intros c Hc.
  rewrite G1 by done. apply G2. by rewrite <- E1.
Qed.

Lemma same_guards_refl A : same_guards A A.
Proof. by split. Qed.

Lemma face_uc_stage self pc fm fp urk_c dt dx rk :
  cons_to_prim (FluxPerFaceSolver.uc self pc fm fp urk_c dt dx rk)
  = stage_cell self dt dx fm fp rk pc urk_c.
Proof.
  unfold FluxPerFaceSolver.uc, stage_cell. f_equal.
  unfold blend, flux_difference. change (NCONS 1) with 3.
  destruct (runge_kutta self); [|done].
  apply for_q_ext. intros q. rewrite at_q_for_q. ring.
Qed.

Lemma fluxes_kernel_lookup self P F θ k :
  length F = length P → 2 ≤ k < length P - 1 →
  at_i (FluxPerFaceSolver.compute_godunov_fluxes_kernel self P F θ (shape P)) k
  = face_flux self θ P k.
Proof.
  intros Hlen Hk. unfold FluxPerFaceSolver.compute_godunov_fluxes_kernel, shape, at_i.
  rewrite FOR_RANGE_1D_insert_next. apply list_lookup_total_correct.
  rewrite list_lookup_imap.
  destruct (lookup_lt_is_Some_2 F k ltac:(lia)) as [y ->]. cbn.
  rewrite bool_decide_eq_true_2 by lia. done.
Qed.

Lemma face_kernel_stage self X F U dt dx rk θ :
  length F = length X →
  FluxPerFaceSolver.update_prim_kernel self X
    (FluxPerFaceSolver.compute_godunov_fluxes_kernel self X F θ (shape X))
    U dt dx rk (size X / 3)
  = face_stage self U dt dx θ X rk.
Proof.
  intros Hlen. rewrite size_array.
  unfold FluxPerFaceSolver.update_prim_kernel, face_stage.
  set (F' := FluxPerFaceSolver.compute_godunov_fluxes_kernel self X F θ (shape X)).
  etrans; [apply (FOR_RANGE_1D_in_place (λ i pc, cons_to_prim (DIM:=1)
    (FluxPerFaceSolver.uc self pc (at_i F' (i + 0)) (at_i F' (i + 1)) (at_i U i) dt dx rk)))|].
  subst F'. apply imap_ext. intros c pc Hpc. case_decide as Hc.
  - rewrite bool_decide_eq_true_2 by exact Hc.
    unfold interior in Hc.
    rewrite face_uc_stage, Nat.add_0_r, !fluxes_kernel_lookup by (done || lia). done.
  - by rewrite bool_decide_eq_false_2 by exact Hc.
Qed.
End kernel_lemmas.

(** ** Running the drivers *)

Section monad.
Context {A : Type}.

Lemma bind_ok {T U} (m : M A T) (k : T → M A U) s x s' :
  m s = (Ok x, s') → (m ≫= k) s = k x s'.
Proof. intros E. unfold mbind, M_bind. by rewrite E. Qed.

Lemma bind_raise {T U} (m : M A T) (k : T → M A U) s e s' :
  m s = (Raise e, s') → (m ≫= k) s = (Raise e, s').
Proof. intros E. unfold mbind, M_bind. by rewrite E. Qed.

Lemma read_ok (s : state A) l a : arrays s !! l = Some a → read l s = (Ok a, s).
Proof. intros E. unfold read. by rewrite E. Qed.

Lemma read_opt_ok (s : state A) null l a :
  from_option (λ l, arrays s !! l = Some a) (a = null) l →
  read_opt null l s = (Ok a, s).
Proof. destruct l; cbn; [apply read_ok | by intros ->]. Qed.

Lemma fresh_loc_None (m : gmap loc A) : m !! fresh (dom m) = None.
Proof. apply not_elem_of_dom, is_fresh. Qed.

Lemma fresh_loc_ne (m : gmap loc A) l : is_Some (m !! l) → l ≠ fresh (dom m).
Proof. intros [a Ha] ->. by rewrite fresh_loc_None in Ha. Qed.
End monad.

Ltac mrun tac := erewrite bind_ok; [| solve [tac]].

(** The per-zone wrappers and the per-zone stage loop. *)

Section runs.
Context {euler : lib_euler 1}.

Lemma zone_update_prim_run self (s : state array) prd pwr urk PRD PWR URK dt dx rk θ :
  arrays s !! prd = Some PRD → arrays s !! pwr = Some PWR →
  from_option (λ l, arrays s !! l = Some URK) (URK = []) urk →
  FluxPerZoneSolver.update_prim self prd pwr urk dt dx rk θ s
  = (Ok (), State (<[pwr := FluxPerZoneSolver.update_prim_kernel self PRD PWR URK
                              dt dx rk θ (shape PRD)]> (arrays s))
                  (launched s ++ [update_prim_launch [prd; pwr] urk rk])).
Proof.
  intros Hprd Hpwr Hurk. unfold FluxPerZoneSolver.update_prim.
  mrun ltac:(by apply read_ok). mrun ltac:(by apply read_ok).
  mrun ltac:(by apply read_opt_ok). done.
Qed.

Lemma prim_to_cons_array_kernel_imap P U ni :
  FluxPerZoneSolver.prim_to_cons_array_kernel P U ni
  = imap (λ k x, if bool_decide (1 ≤ k < ni - 1) then prim_to_cons (at_i P k) else x) U.
Proof. unfold FluxPerZoneSolver.prim_to_cons_array_kernel. apply FOR_RANGE_1D_insert. Qed.

Lemma prim_to_cons_array_frozen P U :
  length U = length P →
  frozen P (FluxPerZoneSolver.prim_to_cons_array_kernel P U (length P)).
Proof.
  intros Hlen. rewrite prim_to_cons_array_kernel_imap. split.
  - by rewrite length_imap.
  - intros c Hc. rewrite list_lookup_imap.
    destruct (lookup_lt_is_Some_2 U c ltac:(lia)) as [y Hy].
    change (NCONS 1) with 3 in *. rewrite Hy. cbn.
    by rewrite bool_decide_eq_true_2.
Qed.

Lemma zone_prim_to_cons_array_run (s : state array) p u P U :
  arrays s !! p = Some P → arrays s !! u = Some U →
  FluxPerZoneSolver.prim_to_cons_array p u s
  = (Ok (), State (<[u := FluxPerZoneSolver.prim_to_cons_array_kernel P U (size P / 3)]> (arrays s))
                  (launched s ++ [prim_to_cons_array_launch p u])).
Proof.
  intros Hp Hu. unfold FluxPerZoneSolver.prim_to_cons_array.
  mrun ltac:(by apply read_ok). mrun ltac:(by apply read_ok). done.
Qed.

Lemma zone_stages_run self urk U dt dx θ rks :
  ∀ (s : state array) prd pwr X Y,
    prd ≠ pwr → urk ≠ prd → urk ≠ pwr →
    arrays s !! prd = Some X → arrays s !! pwr = Some Y →
    arrays s !! urk = Some U → same_guards X Y →
    ∃ s',
      for_in rks (λ rk '(prd, pwr),
        FluxPerZoneSolver.update_prim self prd pwr (Some urk) dt dx rk θ;;
        mret (pwr, prd)) (prd, pwr) s
      = (Ok (if Nat.even (length rks) then (prd, pwr) else (pwr, prd)), s') ∧
      arrays s' !! (if Nat.even (length rks) then prd else pwr)
      = Some (foldl (zone_stage self U dt dx θ) X rks) ∧
      launched s' = launched s ++ zone_stage_launches prd pwr urk rks ∧
      (length rks ≤ 1 → arrays s' !! prd = Some X) ∧
      ∀ l, l ≠ prd → l ≠ pwr → arrays s' !! l = arrays s !! l.
Proof.
  induction rks as [|rk rks IH]; intros s prd pwr X Y Hne Hu1 Hu2 HX HY HU HG.
  - exists s. cbn. by rewrite app_nil_r.
  - cbn [for_in].
    mrun ltac:(mrun ltac:(by eapply zone_update_prim_run); reflexivity).
    rewrite zone_kernel_stage by done.
    set (X' := zone_stage self U dt dx θ X rk).
    edestruct (IH (State (<[pwr := X']> (arrays s)) (launched s ++ [update_prim_launch [prd; pwr] (Some urk) rk]))
                 pwr prd X' X) as (s' & Hrun & Hres & Htr & Hone & Hfr); try done.
    { cbn. by rewrite lookup_insert_eq. }
    { cbn. by rewrite lookup_insert_ne. }
    { cbn. by rewrite lookup_insert_ne. }
    { apply same_guards_sym, zone_stage_same_guards. }
    exists s'. rewrite Hrun. cbn [length]. rewrite Nat.even_succ, <- Nat.negb_even.
    split; [by destruct (Nat.even (length rks))|].
    split; [cbn [foldl]; fold X'; rewrite <- Hres; by destruct (Nat.even (length rks))|].
    split; [rewrite Htr; cbn; by rewrite <- app_assoc|].
    split.
    + intros Hlen. destruct rks; [|cbn in Hlen; lia].
      cbn in Hrun. injection Hrun as <-. cbn. by rewrite lookup_insert_ne.
    + intros l Hl1 Hl2. rewrite Hfr by done. cbn. by rewrite lookup_insert_ne.
Qed.
End runs.

(** Configuration look-ups, and [update_prim] on the per-zone path. *)

Section driver_lemmas.
Context {euler : lib_euler 1}.

Lemma get_run {A} ti recon (s : state A) :
  ti ∈ ["fwd"; "rk1"; "rk2"; "rk3"] → recon ∈ ["pcm"; "plm"] →
  get registry_init ti recon s = (Ok (Some (solver_of ti recon)), s).
Proof.
  rewrite !elem_of_cons, !elem_of_nil.
  intros [-> | [-> | [-> | [-> | []]]]] [-> | [-> | []]]; reflexivity.
Qed.

Lemma get_raise {A} ti recon (s : state A) :
  recon ∉ ["pcm"; "plm"] →
  get registry_init ti recon s
  = (Raise (ValueError ("no solver config " +:+ ti +:+ "/" +:+ recon)), s).
Proof.
  rewrite !elem_of_cons, elem_of_nil. intros Hr. unfold get.
  rewrite !decide_False by tauto. done.
Qed.

Lemma numpy_or_cupy_valid exec :
  exec ∈ ["cpu"; "gpu"] → ∃ xp, numpy_or_cupy exec = Some xp.
Proof.
  rewrite !elem_of_cons, elem_of_nil. intros [-> | [-> | []]]; by eexists.
Qed.

Lemma copy_run {A} (s : state A) p a :
  arrays s !! p = Some a →
  copy p s = (Ok (fresh (dom (arrays s))),
              State (<[fresh (dom (arrays s)) := a]> (arrays s)) (launched s)).
Proof. intros Hp. unfold copy. mrun ltac:(by apply read_ok). done. Qed.

Lemma empty_like_run {mem : memory} (s : state array) xp p P :
  arrays s !! p = Some P →
  empty_like (Some xp) p s
  = (Ok (fresh (dom (arrays s))),
     State (<[fresh (dom (arrays s)) :=
                uninitialised (NCONS 1) (fresh (dom (arrays s))) <$> seq 0 (length P)]> (arrays s))
           (launched s)).
Proof. intros Hp. unfold empty_like. mrun ltac:(by apply read_ok). done. Qed.

Lemma stage_coefficients_run {A} ti (s : state A) :
  ti ∈ ["fwd"; "rk1"; "rk2"; "rk3"] →
  ∃ rks, stage_coefficients ti s = (Ok rks, s) ∧
    (ti, rks) ∈ [("fwd", None); ("rk1", Some [0%Qc]); ("rk2", Some [0%Qc; c0_5]);
                 ("rk3", Some [0; Q2Qc 3 / Q2Qc 4; 1 / Q2Qc 3]%Qc)].
Proof.
  rewrite !elem_of_cons, !elem_of_nil.
  intros [-> | [-> | [-> | [-> | []]]]]; eexists; (split; [reflexivity|]);
    rewrite !elem_of_cons; tauto.
Qed.

Lemma stage_coefficients_raise {A} ti (s : state A) :
  ti ∉ ["fwd"; "rk1"; "rk2"; "rk3"] →
  stage_coefficients ti s
  = (Raise (ValueError ("time_integration must be [fwd|r1k|rk2|rk3], got " +:+ ti)), s).
Proof.
  rewrite !elem_of_cons, elem_of_nil. intros Hr. unfold stage_coefficients.
  rewrite !decide_False by tauto. done.
Qed.

Context {mem : memory}.

Lemma update_prim_per_zone_rk (s : state array) p P dt dx recon θ ti exec rks :
  arrays s !! p = Some P →
  recon ∈ ["pcm"; "plm"] → exec ∈ ["cpu"; "gpu"] →
  (ti, Some rks) ∈ [("rk1", Some [0%Qc]); ("rk2", Some [0%Qc; c0_5]);
                    ("rk3", Some [0; Q2Qc 3 / Q2Qc 4; 1 / Q2Qc 3]%Qc)] →
  let pwr := fresh (dom (arrays s)) in
  let urk := fresh (dom (<[pwr := P]> (arrays s))) in
  let U := FluxPerZoneSolver.prim_to_cons_array_kernel P
             (uninitialised (NCONS 1) urk <$> seq 0 (length P)) (length P) in
  let r := if Nat.even (length rks) then p else pwr in
  ∃ s',
    update_prim p dt dx "per_zone" recon θ ti exec s = (Ok r, s') ∧
    arrays s' !! r = Some (foldl (zone_stage (solver_of ti recon) U dt dx θ) P rks) ∧
    arrays s' !! urk = Some U ∧
    launched s' = launched s ++ prim_to_cons_array_launch p urk
                               :: zone_stage_launches p pwr urk rks ∧
    p ≠ pwr ∧ urk ≠ p ∧ urk ≠ pwr ∧
    (length rks ≤ 1 → arrays s' !! p = Some P) ∧
    ∀ l, l ≠ p → l ≠ pwr → l ≠ urk → arrays s' !! l = arrays s !! l.
Proof.
  intros Hp Hrecon Hexec Hti pwr urk U r.
  assert (ti ∈ ["fwd"; "rk1"; "rk2"; "rk3"] ∧ ti ≠ "fwd") as [Hti' Hfwd].
  { rewrite !elem_of_cons, elem_of_nil in Hti. rewrite !elem_of_cons.
    destruct Hti as [E | [E | [E | []]]]; injection E as -> _; split; auto; done. }
  assert (stage_coefficients (A:=array) ti s = (Ok (Some rks), s)) as Hrks.
  { rewrite !elem_of_cons, elem_of_nil in Hti.
    destruct Hti as [E | [E | [E | []]]]; injection E as -> ->; reflexivity. }
  destruct (numpy_or_cupy_valid exec Hexec) as [xp Hxp].
  assert (p ≠ pwr) as Hne1 by (apply fresh_loc_ne; by eexists).
  assert (urk ≠ p) as Hne2.
  { apply not_eq_sym, fresh_loc_ne. rewrite lookup_insert_ne by done. by eexists. }
  assert (urk ≠ pwr) as Hne3.
  { apply not_eq_sym, fresh_loc_ne. rewrite lookup_insert_eq. by eexists. }
  unfold update_prim. rewrite Hxp.
  mrun ltac:(exact Hrks).
  rewrite decide_False by done. rewrite decide_True by done.
  mrun ltac:(by apply get_run). mrun ltac:(reflexivity).
  mrun ltac:(by apply copy_run).
  rewrite decide_False by done.
  mrun ltac:(apply empty_like_run; cbn; by rewrite lookup_insert_ne).
  cbn [arrays launched]. fold pwr. fold urk.
  mrun ltac:(apply zone_prim_to_cons_array_run; cbn;
             [by rewrite !lookup_insert_ne | by rewrite lookup_insert_eq]).
  mrun ltac:(reflexivity).
  rewrite size_array. fold U. cbn [arrays launched].
  edestruct (zone_stages_run (solver_of ti recon) urk U dt dx θ rks
     (State (<[urk := U]> (<[urk := uninitialised (NCONS 1) urk <$> seq 0 (length P)]>
               (<[pwr := P]> (arrays s))))
            (launched s ++ [prim_to_cons_array_launch p urk])) p pwr P P)
    as (s' & Hrun & Hres & Htr & Hone & Hfr); try done.
  { cbn. by rewrite !lookup_insert_ne. }
  { cbn. rewrite lookup_insert_ne by done. rewrite lookup_insert_ne by done.
    by rewrite lookup_insert_eq. }
  { cbn. by rewrite lookup_insert_eq. }
  exists s'. mrun ltac:(exact Hrun). subst r.
  split; [by destruct (Nat.even (length rks))|].
  split; [exact Hres|].
  split; [rewrite Hfr by done; cbn; by rewrite lookup_insert_eq|].
  split; [rewrite Htr; cbn; by rewrite <- app_assoc|].
  do 3 (split; [done|]).
  split; [exact Hone|].
  intros l Hl1 Hl2 Hl3. rewrite Hfr by done. cbn. by rewrite !lookup_insert_ne.
Qed.

Lemma update_prim_per_zone_fwd (s : state array) p P dt dx recon θ exec :
  arrays s !! p = Some P →
  recon ∈ ["pcm"; "plm"] →
  let pwr := fresh (dom (arrays s)) in
  update_prim p dt dx "per_zone" recon θ "fwd" exec s
  = (Ok pwr,
     State (<[pwr := zone_stage (solver_of "fwd" recon) [] dt dx θ P 0%Qc]> (<[pwr := P]> (arrays s)))
           (launched s ++ [update_prim_launch [p; pwr] None 0%Qc])).
Proof.
  intros Hp Hrecon pwr.
  assert (p ≠ pwr) as Hne1 by (apply fresh_loc_ne; by eexists).
  unfold update_prim.
  mrun ltac:(reflexivity).
  rewrite decide_False by done. rewrite decide_True by done.
  mrun ltac:(apply get_run; [by constructor | done]). mrun ltac:(reflexivity).
  mrun ltac:(by apply copy_run).
  rewrite decide_True by done.
  mrun ltac:(eapply zone_update_prim_run; cbn;
             [by rewrite lookup_insert_ne | by rewrite lookup_insert_eq | done]).
  rewrite zone_kernel_stage by apply same_guards_refl. done.
Qed.
End driver_lemmas.

(** The per-face wrappers and the per-face stage loop. *)

Section face_runs.
Context {euler : lib_euler 1}.

Lemma face_fluxes_run self (s : state array) p f P F θ :
  arrays s !! p = Some P → arrays s !! f = Some F →
  FluxPerFaceSolver.compute_godunov_fluxes self p f θ s
  = (Ok (), State (<[f := FluxPerFaceSolver.compute_godunov_fluxes_kernel self P F θ (shape P)]>
                     (arrays s))
                  (launched s ++ [compute_godunov_fluxes_launch p f])).
Proof.
  intros Hp Hf. unfold FluxPerFaceSolver.compute_godunov_fluxes.
  mrun ltac:(by apply read_ok). mrun ltac:(by apply read_ok). done.
Qed.

Lemma face_update_prim_run self (s : state array) p f urk P F URK dt dx rk :
  arrays s !! p = Some P → arrays s !! f = Some F →
  from_option (λ l, arrays s !! l = Some URK) (URK = []) urk →
  FluxPerFaceSolver.update_prim self p f urk dt dx rk s
  = (Ok (), State (<[p := FluxPerFaceSolver.update_prim_kernel self P F URK dt dx rk
                            (size P / 3)]> (arrays s))
                  (launched s ++ [update_prim_launch [p; f] urk rk])).
Proof.
  intros Hp Hf Hurk. unfold FluxPerFaceSolver.update_prim.
  mrun ltac:(by apply read_ok). mrun ltac:(by apply read_ok).
  mrun ltac:(by apply read_opt_ok). done.
Qed.

Lemma face_prim_to_cons_array_run (s : state array) p u P U :
  arrays s !! p = Some P → arrays s !! u = Some U →
  FluxPerFaceSolver.prim_to_cons_array p u s
  = (Ok (), State (<[u := FluxPerZoneSolver.prim_to_cons_array_kernel P U (size P / 3)]> (arrays s))
                  (launched s ++ [prim_to_cons_array_launch p u])).
Proof.
  intros Hp Hu. unfold FluxPerFaceSolver.prim_to_cons_array.
  mrun ltac:(by apply read_ok). mrun ltac:(by apply read_ok). done.
Qed.

Lemma length_fluxes_kernel self P F θ ni :
  length (FluxPerFaceSolver.compute_godunov_fluxes_kernel self P F θ ni) = length F.
Proof.
  unfold FluxPerFaceSolver.compute_godunov_fluxes_kernel.
  by rewrite FOR_RANGE_1D_insert_next, length_imap.
Qed.

(** One stage of the per-face solver: the flux kernel, then the update. *)
Lemma face_stage_run self (s : state array) p f urk X F URK dt dx rk θ :
  p ≠ f → from_option (λ l, l ≠ f) True urk →
  arrays s !! p = Some X → arrays s !! f = Some F →
  from_option (λ l, arrays s !! l = Some URK) (URK = []) urk →
  length F = length X →
  (FluxPerFaceSolver.compute_godunov_fluxes self p f θ;;
   FluxPerFaceSolver.update_prim self p f urk dt dx rk) s
  = (Ok (),
     State (<[p := face_stage self URK dt dx θ X rk]>
              (<[f := FluxPerFaceSolver.compute_godunov_fluxes_kernel self X F θ (shape X)]>
                 (arrays s)))
           (launched s ++ [compute_godunov_fluxes_launch p f; update_prim_launch [p; f] urk rk])).
Proof.
  intros Hne Hurkf Hp Hf Hurk Hlen.
  mrun ltac:(by apply face_fluxes_run).
  erewrite face_update_prim_run; cbn [arrays launched].
  - rewrite face_kernel_stage by done. by rewrite <- app_assoc.
  - by rewrite lookup_insert_ne.
  - by rewrite lookup_insert_eq.
  - destruct urk as [u|]; cbn in *; [|done]. by rewrite lookup_insert_ne.
Qed.

Lemma face_stages_run self p f urk U dt dx θ rks :
  p ≠ f → urk ≠ p → urk ≠ f →
  ∀ (s : state array) X F,
    arrays s !! p = Some X → arrays s !! f = Some F → arrays s !! urk = Some U →
    length F = length X →
    ∃ s',
      for_in rks (λ rk _,
        FluxPerFaceSolver.compute_godunov_fluxes self p f θ;;
        FluxPerFaceSolver.update_prim self p f (Some urk) dt dx rk) () s
      = (Ok (), s') ∧
      arrays s' !! p = Some (foldl (face_stage self U dt dx θ) X rks) ∧
      launched s' = launched s ++ face_stage_launches p f urk rks ∧
      ∀ l, l ≠ p → l ≠ f → arrays s' !! l = arrays s !! l.
Proof.
  intros Hne Hu1 Hu2.
  induction rks as [|rk rks IH]; intros s X F Hp Hf HU Hlen.
  - exists s. cbn. by rewrite app_nil_r.
  - cbn [for_in].
    mrun ltac:(by apply (face_stage_run self s p f (Some urk) X F U)).
    set (F' := FluxPerFaceSolver.compute_godunov_fluxes_kernel self X F θ (shape X)).
    set (X' := face_stage self U dt dx θ X rk).
    destruct (IH (State (<[p := X']> (<[f := F']> (arrays s)))
                    (launched s ++ [compute_godunov_fluxes_launch p f;
                                    update_prim_launch [p; f] (Some urk) rk])) X' F')
      as (s' & Hrun & Hres & Htr & Hfr).
    { cbn. by rewrite lookup_insert_eq. }
    { cbn. rewrite lookup_insert_ne by done. by rewrite lookup_insert_eq. }
    { cbn. by rewrite !lookup_insert_ne. }
    { subst X' F'. unfold face_stage. rewrite length_imap, <- Hlen.
      apply length_fluxes_kernel. }
    exists s'. split; [exact Hrun|]. split; [exact Hres|]. split.
    + rewrite Htr. cbn. by rewrite <- app_assoc.
    + intros l Hl1 Hl2. rewrite Hfr by done. cbn. by rewrite !lookup_insert_ne.
Qed.
End face_runs.

(** [update_prim] on the per-face path. *)

Section face_driver.
Context {euler : lib_euler 1} {mem : memory}.

Lemma face_stage_run_then {T} (k : () → M array T) self (s : state array)
    p f urk X F URK dt dx rk θ :
  p ≠ f → from_option (λ l, l ≠ f) True urk →
  arrays s !! p = Some X → arrays s !! f = Some F →
  from_option (λ l, arrays s !! l = Some URK) (URK = []) urk →
  length F = length X →
  (FluxPerFaceSolver.compute_godunov_fluxes self p f θ;;
   FluxPerFaceSolver.update_prim self p f urk dt dx rk ≫= k) s
  = k ()
     (State (<[p := face_stage self URK dt dx θ X rk]>
              (<[f := FluxPerFaceSolver.compute_godunov_fluxes_kernel self X F θ (shape X)]>
                 (arrays s)))
           (launched s ++ [compute_godunov_fluxes_launch p f; update_prim_launch [p; f] urk rk])).
Proof.
  intros Hne Hurkf Hp Hf Hurk Hlen.
  mrun ltac:(by apply face_fluxes_run).
  mrun ltac:(eapply face_update_prim_run; cbn [arrays launched];
             [by rewrite lookup_insert_ne | by rewrite lookup_insert_eq
             | destruct urk as [u|]; cbn in *; [by rewrite lookup_insert_ne | done]]).
  cbn [arrays launched]. rewrite face_kernel_stage by done. by rewrite <- app_assoc.
Qed.

Lemma update_prim_per_face_fwd (s : state array) p P dt dx recon θ exec :
  arrays s !! p = Some P →
  recon ∈ ["pcm"; "plm"] → exec ∈ ["cpu"; "gpu"] →
  let f := fresh (dom (arrays s)) in
  let F := uninitialised (NCONS 1) f <$> seq 0 (length P) in
  let self := solver_of "fwd" recon in
  update_prim p dt dx "per_face" recon θ "fwd" exec s
  = (Ok p,
     State (<[p := face_stage self [] dt dx θ P 0%Qc]>
              (<[f := FluxPerFaceSolver.compute_godunov_fluxes_kernel self P F θ (shape P)]>
                 (<[f := F]> (arrays s))))
           (launched s ++ [compute_godunov_fluxes_launch p f;
                           update_prim_launch [p; f] None 0%Qc])).
Proof.
  intros Hp Hrecon Hexec f F self.
  destruct (numpy_or_cupy_valid exec Hexec) as [xp Hxp].
  assert (p ≠ f) as Hne1 by (apply fresh_loc_ne; by eexists).
  unfold update_prim. rewrite Hxp.
  mrun ltac:(reflexivity).
  rewrite decide_True by done.
  mrun ltac:(apply get_run; [by constructor | done]). mrun ltac:(reflexivity).
  mrun ltac:(by apply empty_like_run).
  rewrite decide_True by done. fold f F.
  erewrite (face_stage_run_then _ _ _ p f None P F []); try done.
  - cbn. by rewrite lookup_insert_ne.
  - cbn. by rewrite lookup_insert_eq.
  - subst F. by rewrite length_fmap, length_seq.
Qed.

Lemma update_prim_per_face_rk (s : state array) p P dt dx recon θ ti exec rks :
  arrays s !! p = Some P →
  recon ∈ ["pcm"; "plm"] → exec ∈ ["cpu"; "gpu"] →
  (ti, Some rks) ∈ [("rk1", Some [0%Qc]); ("rk2", Some [0%Qc; c0_5]);
                    ("rk3", Some [0; Q2Qc 3 / Q2Qc 4; 1 / Q2Qc 3]%Qc)] →
  let f := fresh (dom (arrays s)) in
  let F := uninitialised (NCONS 1) f <$> seq 0 (length P) in
  let urk := fresh (dom (<[f := F]> (arrays s))) in
  let U := FluxPerZoneSolver.prim_to_cons_array_kernel P
             (uninitialised (NCONS 1) urk <$> seq 0 (length P)) (length P) in
  ∃ s',
    update_prim p dt dx "per_face" recon θ ti exec s = (Ok p, s') ∧
    arrays s' !! p = Some (foldl (face_stage (solver_of ti recon) U dt dx θ) P rks) ∧
    arrays s' !! urk = Some U ∧
    launched s' = launched s ++ prim_to_cons_array_launch p urk
                               :: face_stage_launches p f urk rks ∧
    p ≠ f ∧ urk ≠ p ∧ urk ≠ f ∧
    ∀ l, l ≠ p → l ≠ f → l ≠ urk → arrays s' !! l = arrays s !! l.
Proof.
  intros Hp Hrecon Hexec Hti f F urk U.
  assert (ti ∈ ["fwd"; "rk1"; "rk2"; "rk3"] ∧ ti ≠ "fwd") as [Hti' Hfwd].
  { rewrite !elem_of_cons, elem_of_nil in Hti. rewrite !elem_of_cons.
    destruct Hti as [E | [E | [E | []]]]; injection E as -> _; split; auto; done. }
  assert (stage_coefficients (A:=array) ti s = (Ok (Some rks), s)) as Hrks.
  { rewrite !elem_of_cons, elem_of_nil in Hti.
    destruct Hti as [E | [E | [E | []]]]; injection E as -> ->; reflexivity. }
  destruct (numpy_or_cupy_valid exec Hexec) as [xp Hxp].
  assert (p ≠ f) as Hne1 by (apply fresh_loc_ne; by eexists).
  assert (urk ≠ p) as Hne2.
  { apply not_eq_sym, fresh_loc_ne. rewrite lookup_insert_ne by done. by eexists. }
  assert (urk ≠ f) as Hne3.
  { apply not_eq_sym, fresh_loc_ne. rewrite lookup_insert_eq. by eexists. }
  assert (length F = length P) as HF by (subst F; by rewrite length_fmap, length_seq).
  unfold update_prim. rewrite Hxp.
  mrun ltac:(exact Hrks).
  rewrite decide_True by done.
  mrun ltac:(by apply get_run). mrun ltac:(reflexivity).
  mrun ltac:(by apply empty_like_run).
  rewrite decide_False by done.
  mrun ltac:(apply empty_like_run; cbn; by rewrite lookup_insert_ne).
  cbn [arrays launched]. fold f F. fold urk.
  mrun ltac:(apply face_prim_to_cons_array_run; cbn;
             [by rewrite !lookup_insert_ne | by rewrite lookup_insert_eq]).
  mrun ltac:(reflexivity).
  rewrite size_array. fold U. cbn [arrays launched].
  set (s1 := State _ _).
  assert (arrays s1 !! p = Some P) as Hp1 by (subst s1; cbn; by rewrite !lookup_insert_ne).
  assert (arrays s1 !! f = Some F) as Hf1.
  { subst s1. cbn. rewrite !lookup_insert_ne by done. by rewrite lookup_insert_eq. }
  assert (arrays s1 !! urk = Some U) as Hu1 by (subst s1; cbn; by rewrite lookup_insert_eq).
  destruct (face_stages_run (solver_of ti recon) p f urk U dt dx θ rks Hne1 Hne2 Hne3
              s1 P F Hp1 Hf1 Hu1 HF) as (s' & Hrun & Hres & Htr & Hfr).
  exists s'. mrun ltac:(exact Hrun).
  split; [done|]. split; [exact Hres|].
  split; [rewrite Hfr by done; exact Hu1|].
  split; [rewrite Htr; subst s1; cbn; by rewrite <- app_assoc|].
  do 3 (split; [done|]).
  intros l Hl1 Hl2 Hl3. rewrite Hfr by done. subst s1. cbn. by rewrite !lookup_insert_ne.
Qed.
End face_driver.

(** ** Properties of the stages, and the error paths of [update_prim] *)

Section stage_lemmas.
Context {euler : lib_euler 1}.

Lemma blend_0 u urk_c dt dx fm fp :
  blend 0%Qc (flux_difference u fm fp dt dx) urk_c = flux_difference u fm fp dt dx.
Proof.
  unfold blend. unfold flux_difference at 2.
  apply for_q_ext. intros q. unfold flux_difference. rewrite at_q_for_q. ring.
Qed.

Lemma stage_cell_rk0 s1 s2 dt dx fm fp pc u1 u2 :
  stage_cell s1 dt dx fm fp 0%Qc pc u1 = stage_cell s2 dt dx fm fp 0%Qc pc u2.
Proof. unfold stage_cell. destruct (runge_kutta s1), (runge_kutta s2); by rewrite ?blend_0. Qed.

Lemma face_flux_plm s1 s2 θ X k : plm s1 = plm s2 → face_flux s1 θ X k = face_flux s2 θ X k.
Proof.
  intros E. unfold face_flux, FluxPerFaceSolver.pm, FluxPerFaceSolver.pp. by rewrite E.
Qed.

Lemma zone_flux_minus_plm s1 s2 θ X k :
  plm s1 = plm s2 → zone_flux_minus s1 θ X k = zone_flux_minus s2 θ X k.
Proof.
  intros E. unfold zone_flux_minus, FluxPerZoneSolver.plp, FluxPerZoneSolver.pcm. by rewrite E.
Qed.

Lemma zone_flux_plus_plm s1 s2 θ X k :
  plm s1 = plm s2 → zone_flux_plus s1 θ X k = zone_flux_plus s2 θ X k.
Proof.
  intros E. unfold zone_flux_plus, FluxPerZoneSolver.pcp, FluxPerZoneSolver.prm. by rewrite E.
Qed.

Lemma face_stage_rk0 s1 s2 U1 U2 dt dx θ X :
  plm s1 = plm s2 →
  face_stage s1 U1 dt dx θ X 0%Qc = face_stage s2 U2 dt dx θ X 0%Qc.
Proof.
  intros E. unfold face_stage. apply imap_ext. intros c pc _. case_decide; [|done].
  rewrite !(face_flux_plm s1 s2) by done. apply stage_cell_rk0.
Qed.

Lemma zone_stage_rk0 s1 s2 U1 U2 dt dx θ X :
  plm s1 = plm s2 →
  zone_stage s1 U1 dt dx θ X 0%Qc = zone_stage s2 U2 dt dx θ X 0%Qc.
Proof.
  intros E. unfold zone_stage. apply imap_ext. intros c pc _. case_decide; [|done].
  rewrite (zone_flux_minus_plm s1 s2), (zone_flux_plus_plm s1 s2) by done.
  apply stage_cell_rk0.
Qed.

Lemma zone_stages_same_guards self U dt dx θ rks :
  ∀ X, same_guards X (foldl (zone_stage self U dt dx θ) X rks).
Proof.
  induction rks as [|rk rks IH]; intros X; [apply same_guards_refl|].
  cbn. eapply same_guards_trans; [apply zone_stage_same_guards | apply IH].
Qed.

Lemma length_zone_stage self U dt dx θ X rk :
  length (zone_stage self U dt dx θ X rk) = length X.
Proof. unfold zone_stage. apply length_imap. Qed.

Lemma length_face_stage self U dt dx θ X rk :
  length (face_stage self U dt dx θ X rk) = length X.
Proof. unfold face_stage. apply length_imap. Qed.

(** A stage reads [U_rk] at the interior cells only. *)
Lemma zone_stages_ext self U U' dt dx θ rks :
  ∀ X, (∀ c, interior (length X) c → at_i U c = at_i U' c) →
    foldl (zone_stage self U dt dx θ) X rks = foldl (zone_stage self U' dt dx θ) X rks.
Proof.
  induction rks as [|rk rks IH]; intros X HU; [done|]. cbn [foldl].
  assert (zone_stage self U dt dx θ X rk = zone_stage self U' dt dx θ X rk) as ->.
  { unfold zone_stage. apply imap_ext. intros c pc _. case_decide; [|done].
    by rewrite HU. }
  apply IH. by rewrite length_zone_stage.
Qed.

Lemma face_stages_ext self U U' dt dx θ rks :
  ∀ X, (∀ c, interior (length X) c → at_i U c = at_i U' c) →
    foldl (face_stage self U dt dx θ) X rks = foldl (face_stage self U' dt dx θ) X rks.
Proof.
  induction rks as [|rk rks IH]; intros X HU; [done|]. cbn [foldl].
  assert (face_stage self U dt dx θ X rk = face_stage self U' dt dx θ X rk) as ->.
  { unfold face_stage. apply imap_ext. intros c pc _. case_decide; [|done].
    by rewrite HU. }
  apply IH. by rewrite length_face_stage.
Qed.

Lemma frozen_interior P U c :
  frozen P U → interior (length P) c → at_i U c = at_i (prim_to_cons <$> P) c.
Proof.
  intros [_ HU] Hc. unfold interior in Hc. unfold at_i.
  rewrite (list_lookup_total_correct U c (prim_to_cons (at_i P c))) by (apply HU; lia).
  symmetry. apply list_lookup_total_correct. rewrite list_lookup_fmap.
  destruct (lookup_lt_is_Some_2 P c ltac:(lia)) as [pc Hpc]. rewrite Hpc. cbn.
  do 2 f_equal. unfold at_i. symmetry. by apply list_lookup_total_correct.
Qed.

Lemma update_prim_unknown_fluxing {mem : memory} (s : state array)
    p dt dx fluxing recon θ ti exec :
  ti ∈ ["fwd"; "rk1"; "rk2"; "rk3"] → fluxing ∉ ["per_face"; "per_zone"] →
  update_prim p dt dx fluxing recon θ ti exec s
  = (Raise (ValueError ("unknown fluxing " +:+ fluxing)), s).
Proof.
  intros Hti Hfl. rewrite !elem_of_cons, elem_of_nil in Hfl.
  destruct (stage_coefficients_run (A:=array) ti s Hti) as (rks & Hrks & _).
  unfold update_prim. mrun ltac:(exact Hrks).
  rewrite !decide_False by tauto. done.
Qed.

Lemma update_prim_bad_reconstruction {mem : memory} (s : state array)
    p dt dx fluxing recon θ ti exec :
  ti ∈ ["fwd"; "rk1"; "rk2"; "rk3"] → fluxing ∈ ["per_face"; "per_zone"] →
  recon ∉ ["pcm"; "plm"] →
  update_prim p dt dx fluxing recon θ ti exec s
  = (Raise (ValueError ("no solver config " +:+ ti +:+ "/" +:+ recon)), s).
Proof.
  intros Hti Hfl Hre. rewrite !elem_of_cons, elem_of_nil in Hfl.
  destruct (stage_coefficients_run (A:=array) ti s Hti) as (rks & Hrks & _).
  unfold update_prim. mrun ltac:(exact Hrks).
  destruct Hfl as [-> | [-> | []]].
  - rewrite decide_True by done. by erewrite bind_raise by by apply get_raise.
  - rewrite decide_False by done. rewrite decide_True by done.
    by erewrite bind_raise by by apply get_raise.
Qed.
End stage_lemmas.

(** C2: [fwd] and [rk1] are observationally equivalent.  Started from the
    same state on an input array [p], and whatever the two runs find in
    uninitialised memory, [update_prim] with [time_integration] [fwd] and
    with [rk1] either both return the same array object holding
    the same primitive values (and leave the same values in the input [p]),
    or both raise a [ValueError] (unknown fluxing or reconstruction) without
    having changed the state. *)
Theorem update_prim_fwd_equals_rk1 {euler : lib_euler 1} (mem1 mem2 : memory)
    (s : state array) p P dt dx fluxing reconstruction plm_theta exec_mode :
  arrays s !! p = Some P → exec_mode ∈ ["cpu"; "gpu"] →
  match update_prim (mem:=mem1) p dt dx fluxing reconstruction plm_theta "fwd" exec_mode s,
        update_prim (mem:=mem2) p dt dx fluxing reconstruction plm_theta "rk1" exec_mode s
  with
  | (Ok r1, s1), (Ok r2, s2) =>
      r1 = r2 ∧ is_Some (arrays s1 !! r1) ∧
      arrays s1 !! r1 = arrays s2 !! r2 ∧ arrays s1 !! p = arrays s2 !! p
  | (Raise e1, s1), (Raise e2, s2) =>
      s1 = s ∧ s2 = s ∧ ∃ msg1 msg2, e1 = ValueError msg1 ∧ e2 = ValueError msg2
  | _, _ => False
  end.
Proof.
  intros Hp Hexec.
  destruct (decide (fluxing ∈ ["per_face"; "per_zone"])) as [Hfl | Hfl]; last first.
  { rewrite !update_prim_unknown_fluxing by (done || rewrite !elem_of_cons; auto).
    eauto 10. }
  destruct (decide (reconstruction ∈ ["pcm"; "plm"])) as [Hre | Hre]; last first.
  { rewrite !update_prim_bad_reconstruction by (done || rewrite !elem_of_cons; auto).
    eauto 10. }
  rewrite !elem_of_cons, elem_of_nil in Hfl. destruct Hfl as [-> | [-> | []]].
  - rewrite (update_prim_per_face_fwd (mem:=mem1) s p P) by done.
    destruct (update_prim_per_face_rk (mem:=mem2) s p P dt dx reconstruction plm_theta
                "rk1" exec_mode [0%Qc])
      as (s2 & -> & Hres & _ & _ & Hne & _); try done.
    { by constructor. }
    cbn [arrays]. rewrite lookup_insert_eq, Hres. cbn [foldl].
    split; [done|]. split; [by eexists|].
    assert (face_stage (solver_of "fwd" reconstruction) [] dt dx plm_theta P 0%Qc
            = face_stage (solver_of "rk1" reconstruction)
                (FluxPerZoneSolver.prim_to_cons_array_kernel P
                   (uninitialised 3
                      (fresh (dom (<[fresh (dom (arrays s)) :=
                         uninitialised (NCONS 1) (fresh (dom (arrays s))) <$> seq 0 (length P)]>
                         (arrays s)))) <$> seq 0 (length P)) (length P))
                dt dx plm_theta P 0%Qc) as -> by by apply face_stage_rk0.
    done.
  - rewrite (update_prim_per_zone_fwd (mem:=mem1) s p P) by done.
    destruct (update_prim_per_zone_rk (mem:=mem2) s p P dt dx reconstruction plm_theta
                "rk1" exec_mode [0%Qc])
      as (s2 & -> & Hres & _ & _ & Hne & _ & _ & Hone & _); try done.
    { by constructor. }
    cbn [length Nat.even] in *. cbn [arrays]. rewrite lookup_insert_eq, Hres. cbn [foldl].
    split; [done|]. split; [by eexists|]. split.
    + f_equal. by apply zone_stage_rk0.
    + rewrite !lookup_insert_ne by done. rewrite Hone by lia. done.
Qed.

Lemma update_prim_fwd_equals_rk1_witness :
  arrays shocktube_state !! 5 = Some shocktube ∧ "cpu" ∈ ["cpu"; "gpu"] ∧
  match update_prim (euler:=ideal_gas) (mem:=sevens) 5 c0_25 1%Qc "per_face" "plm" 1%Qc
          "fwd" "cpu" shocktube_state,
        update_prim (euler:=ideal_gas) (mem:=nines) 5 c0_25 1%Qc "per_face" "plm" 1%Qc
          "rk1" "cpu" shocktube_state
  with
  | (Ok r1, s1), (Ok r2, s2) =>
      r1 = r2 ∧ is_Some (arrays s1 !! r1) ∧
      arrays s1 !! r1 = arrays s2 !! r2 ∧ arrays s1 !! 5 = arrays s2 !! 5
  | (Raise e1, s1), (Raise e2, s2) =>
      s1 = shocktube_state ∧ s2 = shocktube_state ∧
      ∃ msg1 msg2, e1 = ValueError msg1 ∧ e2 = ValueError msg2
  | _, _ => False
  end.
Proof.
  assert (H1 : arrays shocktube_state !! 5 = Some shocktube) by reflexivity.
  assert (H2 : "cpu" ∈ ["cpu"; "gpu"]) by (vm_compute; constructor).
  split; [exact H1|]. split; [exact H2|].
  exact (update_prim_fwd_equals_rk1 (euler:=ideal_gas) sevens nines shocktube_state 5
           shocktube c0_25 1%Qc "per_face" "plm" 1%Qc "cpu" H1 H2).
Defined.


(** C10: on the per-zone path, for every input array [p] of shape
    [[ni] x 3], every [time_integration] of fwd, rk1, rk2, rk3 and every
    reconstruction of pcm, plm, [update_prim] returns an array of the shape
    of [p] that agrees with the input at every guard index [i < 2] or
    [i >= ni - 2]. *)
Theorem update_prim_per_zone_guards {euler : lib_euler 1} {mem : memory}
    (s : state array) p P dt dx reconstruction plm_theta time_integration exec_mode :
  arrays s !! p = Some P →
  time_integration ∈ ["fwd"; "rk1"; "rk2"; "rk3"] →
  reconstruction ∈ ["pcm"; "plm"] → exec_mode ∈ ["cpu"; "gpu"] →
  ∃ r s' R,
    update_prim p dt dx "per_zone" reconstruction plm_theta time_integration exec_mode s
    = (Ok r, s') ∧
    arrays s' !! r = Some R ∧ length R = length P ∧
    ∀ i, i < 2 ∨ length P - 2 ≤ i → R !! i = P !! i.
Proof.
  intros Hp Hti Hre Hexec.
  assert (∀ R, same_guards P R →
            length R = length P ∧ ∀ i, i < 2 ∨ length P - 2 ≤ i → R !! i = P !! i) as Hg.
  { intros R [E G]. split; [done|]. intros i Hi. symmetry. apply G. unfold interior. lia. }
  destruct (stage_coefficients_run (A:=array) time_integration s Hti) as (rks & _ & Hrks).
  rewrite elem_of_cons in Hrks. destruct Hrks as [E | Hrks].
  - injection E as -> ->.
    rewrite (update_prim_per_zone_fwd s p P) by done.
    eexists _, _, _. split; [reflexivity|]. cbn [arrays]. rewrite lookup_insert_eq.
    split; [reflexivity|]. apply Hg, zone_stage_same_guards.
  - destruct rks as [rks|].
    2:{ rewrite !elem_of_cons, elem_of_nil in Hrks.
        destruct Hrks as [E | [E | [E | []]]]; discriminate E. }
    destruct (update_prim_per_zone_rk s p P dt dx reconstruction plm_theta
                time_integration exec_mode rks)
      as (s' & Hrun & Hres & _); try done.
    eexists _, s', _. split; [exact Hrun|]. split; [exact Hres|].
    apply Hg, zone_stages_same_guards.
Qed.

Lemma update_prim_per_zone_guards_witness :
  arrays shocktube_state !! 5 = Some shocktube ∧
  "rk3" ∈ ["fwd"; "rk1"; "rk2"; "rk3"] ∧ "plm" ∈ ["pcm"; "plm"] ∧
  "cpu" ∈ ["cpu"; "gpu"] ∧
  ∃ r s' R,
    update_prim (euler:=ideal_gas) (mem:=sevens) 5 c0_25 1%Qc "per_zone" "plm" 1%Qc
      "rk3" "cpu" shocktube_state = (Ok r, s') ∧
    arrays s' !! r = Some R ∧ length R = length shocktube ∧
    ∀ i, i < 2 ∨ length shocktube - 2 ≤ i → R !! i = shocktube !! i.
Proof.
  assert (H1 : arrays shocktube_state !! 5 = Some shocktube) by reflexivity.
  assert (H3 : "rk3" ∈ ["fwd"; "rk1"; "rk2"; "rk3"]) by (vm_compute; repeat constructor).
  assert (H4 : "plm" ∈ ["pcm"; "plm"]) by (vm_compute; repeat constructor).
  assert (H5 : "cpu" ∈ ["cpu"; "gpu"]) by (vm_compute; constructor).
  split; [exact H1|]. split; [exact H3|]. split; [exact H4|]. split; [exact H5|].
  exact (update_prim_per_zone_guards (euler:=ideal_gas) (mem:=sevens) shocktube_state 5
           shocktube c0_25 1%Qc "plm" 1%Qc "rk3" "cpu" H1 H3 H4 H5).
Defined.


(** C1: with [time_integration] [rk2] the driver runs exactly the stage
    coefficients [[0.0, 0.5]], with [rk3] exactly [[0.0, 3/4, 1/3]].  The
    conversion kernel is launched once, before the first stage, and the
    buffer [U_rk] it fills (on the cells of [[1, ni - 1)], which include
    every cell a stage reads) is not written again.  The array returned is
    the input [P] taken through one stage per coefficient [alpha], each
    stage replacing every interior cell [c] by [cons_to_prim] of
    [(1 - alpha) * u_c + alpha * prim_to_cons(P)[c]], where [u_c] is the
    conserved state of the cell after the flux-difference update. *)
Theorem update_prim_runge_kutta_stages {euler : lib_euler 1} {mem : memory}
    (s : state array) p P dt dx fluxing reconstruction plm_theta time_integration
    exec_mode rks :
  arrays s !! p = Some P →
  fluxing ∈ ["per_face"; "per_zone"] →
  reconstruction ∈ ["pcm"; "plm"] → exec_mode ∈ ["cpu"; "gpu"] →
  (time_integration = "rk2" ∧ rks = [0%Qc; c0_5]) ∨
  (time_integration = "rk3" ∧ rks = [0; Q2Qc 3 / Q2Qc 4; 1 / Q2Qc 3]%Qc) →
  let solver := {| runge_kutta := true; plm := bool_decide (reconstruction = "plm") |} in
  ∃ r s' scratch urk U_rk,
    update_prim p dt dx fluxing reconstruction plm_theta time_integration exec_mode s
    = (Ok r, s') ∧
    launched s' = launched s ++ prim_to_cons_array_launch p urk ::
      (if decide (fluxing = "per_face") then face_stage_launches p scratch urk rks
       else zone_stage_launches p scratch urk rks) ∧
    arrays s' !! urk = Some U_rk ∧ frozen P U_rk ∧
    arrays s' !! r
    = Some (foldl (if decide (fluxing = "per_face")
                   then face_stage solver (prim_to_cons <$> P) dt dx plm_theta
                   else zone_stage solver (prim_to_cons <$> P) dt dx plm_theta) P rks) ∧
    ∀ fm fp alpha pc urk_c,
      stage_cell solver dt dx fm fp alpha pc urk_c
      = cons_to_prim (blend alpha (flux_difference (prim_to_cons pc) fm fp dt dx) urk_c).
Proof.
  intros Hp Hfl Hre Hexec Hti solver.
  assert ((time_integration, Some rks)
            ∈ [("rk1", Some [0%Qc]); ("rk2", Some [0%Qc; c0_5]);
               ("rk3", Some [0; Q2Qc 3 / Q2Qc 4; 1 / Q2Qc 3]%Qc)]) as Hin.
  { rewrite !elem_of_cons. destruct Hti as [[-> ->] | [-> ->]]; auto. }
  assert (solver_of time_integration reconstruction = solver) as Hs.
  { destruct Hti as [[-> _] | [-> _]]; reflexivity. }
  rewrite !elem_of_cons, elem_of_nil in Hfl. destruct Hfl as [-> | [-> | []]].
  - destruct (update_prim_per_face_rk s p P dt dx reconstruction plm_theta
                time_integration exec_mode rks)
      as (s' & Hrun & Hres & Hu & Htr & _); try done.
    rewrite Hs in Hres. eexists p, s', _, _, _.
    split; [exact Hrun|]. split; [exact Htr|]. split; [exact Hu|].
    assert (frozen P (FluxPerZoneSolver.prim_to_cons_array_kernel P
              (uninitialised 3
                 (fresh (dom (<[fresh (dom (arrays s)) :=
                    uninitialised (NCONS 1) (fresh (dom (arrays s))) <$> seq 0 (length P)]>
                    (arrays s)))) <$> seq 0 (length P)) (length P))) as Hfrozen
      by (apply prim_to_cons_array_frozen; by rewrite length_fmap, length_seq).
    split; [exact Hfrozen|]. split; [|done].
    rewrite Hres. f_equal. rewrite decide_True by done.
    apply face_stages_ext. intros c Hint. by apply frozen_interior.
  - destruct (update_prim_per_zone_rk s p P dt dx reconstruction plm_theta
                time_integration exec_mode rks)
      as (s' & Hrun & Hres & Hu & Htr & _); try done.
    rewrite Hs in Hres. eexists _, s', _, _, _.
    split; [exact Hrun|]. split; [exact Htr|]. split; [exact Hu|].
    assert (frozen P (FluxPerZoneSolver.prim_to_cons_array_kernel P
              (uninitialised 3
                 (fresh (dom (<[fresh (dom (arrays s)) := P]> (arrays s))))
                 <$> seq 0 (length P)) (length P))) as Hfrozen
      by (apply prim_to_cons_array_frozen; by rewrite length_fmap, length_seq).
    split; [exact Hfrozen|]. split; [|done].
    rewrite Hres. f_equal. rewrite decide_False by done.
    apply zone_stages_ext. intros c Hint. by apply frozen_interior.
Qed.

Lemma update_prim_runge_kutta_stages_witness :
  arrays shocktube_state !! 5 = Some shocktube ∧
  "per_face" ∈ ["per_face"; "per_zone"] ∧
  "pcm" ∈ ["pcm"; "plm"] ∧ "gpu" ∈ ["cpu"; "gpu"] ∧
  ∃ r s' scratch urk U_rk,
    update_prim (euler:=ideal_gas) (mem:=sevens) 5 c0_25 1%Qc "per_face" "pcm" 1%Qc
      "rk3" "gpu" shocktube_state = (Ok r, s') ∧
    launched s' = prim_to_cons_array_launch 5 urk
                  :: face_stage_launches 5 scratch urk
                       [0; Q2Qc 3 / Q2Qc 4; 1 / Q2Qc 3]%Qc ∧
    arrays s' !! urk = Some U_rk ∧ frozen (euler:=ideal_gas) shocktube U_rk.
Proof.
  assert (H1 : arrays shocktube_state !! 5 = Some shocktube) by reflexivity.
  assert (H3 : "per_face" ∈ ["per_face"; "per_zone"]) by (vm_compute; constructor).
  assert (H5 : "pcm" ∈ ["pcm"; "plm"]) by (vm_compute; constructor).
  assert (H6 : "gpu" ∈ ["cpu"; "gpu"]) by (vm_compute; repeat constructor).
  split; [exact H1|]. split; [exact H3|]. split; [exact H5|]. split; [exact H6|].
  destruct (update_prim_runge_kutta_stages (euler:=ideal_gas) (mem:=sevens)
              shocktube_state 5 shocktube c0_25 1%Qc "per_face" "pcm" 1%Qc "rk3" "gpu"
              [0; Q2Qc 3 / Q2Qc 4; 1 / Q2Qc 3]%Qc H1 H3 H5 H6
              (or_intror (conj eq_refl eq_refl)))
    as (r & s' & scratch & urk & U_rk & Hrun & Htr & Hu & Hfrozen & _).
  exists r, s', scratch, urk, U_rk.
  split; [exact Hrun|]. split; [exact Htr|]. split; [exact Hu | exact Hfrozen].
Defined.


(** C9: [update_prim2d] raises a [ValueError] for every fluxing other than
    [per_zone], and [update_prim] and [update_prim2d] both raise one for
    every [time_integration] outside fwd, rk1, rk2, rk3; the state the error
    leaves is the state of the call: no array was written or allocated and
    no kernel was launched. *)
Theorem update_prim_rejects_configuration
    {euler : lib_euler 1} {euler2 : lib_euler 2} {mem : memory}
    (s : state array) (s2 : state array2) p dt dx fluxing reconstruction plm_theta
    time_integration exec_mode :
  (fluxing ≠ "per_zone" →
   ∃ msg, update_prim2d p dt dx fluxing reconstruction plm_theta time_integration exec_mode s2
          = (Raise (ValueError msg), s2)) ∧
  (time_integration ∉ ["fwd"; "rk1"; "rk2"; "rk3"] →
   (∃ msg, update_prim p dt dx fluxing reconstruction plm_theta time_integration exec_mode s
           = (Raise (ValueError msg), s)) ∧
   (∃ msg, update_prim2d p dt dx fluxing reconstruction plm_theta time_integration exec_mode s2
           = (Raise (ValueError msg), s2))).
Proof.
  split.
  - intros Hfl. unfold update_prim2d.
    destruct (decide (time_integration ∈ ["fwd"; "rk1"; "rk2"; "rk3"])) as [Hti | Hti].
    + destruct (stage_coefficients_run (A:=array2) time_integration s2 Hti) as (rks & Hrks & _).
      mrun ltac:(exact Hrks). rewrite decide_True by done. by eexists.
    + erewrite bind_raise by by apply stage_coefficients_raise. by eexists.
  - intros Hti. split.
    + unfold update_prim. erewrite bind_raise by by apply stage_coefficients_raise. by eexists.
    + unfold update_prim2d. erewrite bind_raise by by apply stage_coefficients_raise.
      by eexists.
Qed.

Lemma update_prim_rejects_configuration_witness :
  "per_face" ≠ "per_zone" ∧ ("rk4" ∉ ["fwd"; "rk1"; "rk2"; "rk3"]) ∧
  (∃ msg, update_prim2d (euler2:=still_gas) (mem:=sevens) 5 c0_25 1%Qc "per_face" "pcm"
            1%Qc "rk4" "cpu" empty_state2 = (Raise (ValueError msg), empty_state2)) ∧
  (∃ msg, update_prim (euler:=ideal_gas) (mem:=sevens) 5 c0_25 1%Qc "per_face" "pcm"
            1%Qc "rk4" "cpu" shocktube_state = (Raise (ValueError msg), shocktube_state)).
Proof.
  assert (H1 : "per_face" ≠ "per_zone") by discriminate.
  assert (H2 : "rk4" ∉ ["fwd"; "rk1"; "rk2"; "rk3"]).
  { rewrite !not_elem_of_cons. repeat split; try discriminate. apply not_elem_of_nil. }
  split; [exact H1|]. split; [exact H2|].
  destruct (update_prim_rejects_configuration (euler:=ideal_gas) (euler2:=still_gas)
              (mem:=sevens)
              shocktube_state empty_state2 5 c0_25 1%Qc "per_face" "pcm" 1%Qc "rk4" "cpu")
    as [Hfluxing Htime].
  split; [exact (Hfluxing H1) | exact (proj1 (Htime H2))].
Defined.


(** C4: in the per-face solver, on a primitive array and a face array of
    shape [[ni] x 3], [compute_godunov_fluxes] writes into [F[i + 1]], for
    exactly the [i] of [[1, ni - 2)], the HLLE flux of the two face states
    reconstructed at that face: [pm = p[i]] and [pp = p[i + 1]] without PLM,
    and with PLM, in every component,
    [pm = p[i] + 0.5 * plm_minmod(p[i - 1], p[i], p[i + 1], plm_theta)] and
    [pp = p[i + 1] - 0.5 * plm_minmod(p[i], p[i + 1], p[i + 2], plm_theta)].
    [update_prim] rewrites in place exactly the cells [i] of [[2, ni - 2)]:
    [p_c] is converted to [u_c], [u_c -= (F[i + 1] - F[i]) * dt / dx] is
    applied, the result is blended as [u_c * (1 - rk) + rk * U_rk[i]] when the
    solver is a Runge-Kutta one, and converted back into the same slot.  A
    Runge-Kutta kernel is given an array [U_rk] of the shape of [p]. *)
Theorem per_face_kernels {euler : lib_euler 1} (self : KernelClass)
    (s : state array) p f urk P F URK plm_theta dt dx rk :
  arrays s !! p = Some P → arrays s !! f = Some F →
  from_option (λ l, arrays s !! l = Some URK) (URK = []) urk →
  (runge_kutta self = true → is_Some urk ∧ length URK = length P) →
  p ≠ f → length F = length P →
  let ni := length P in
  (∃ F',
     FluxPerFaceSolver.compute_godunov_fluxes self p f plm_theta s
     = (Ok (), State (<[f := F']> (arrays s))
                 (launched s ++ [compute_godunov_fluxes_launch p f])) ∧
     length F' = length F ∧
     (∀ i, 1 ≤ i < ni - 2 →
        ∃ pm pp : cell (NCONS 1),
          F' !! (i + 1) = Some (riemann_hlle pm pp 1) ∧
          ∀ q,
            at_q pm q
            = (if plm self
               then at_q (at_i P i) q
                    + c0_5 * plm_minmod (at_q (at_i P (i - 1)) q) (at_q (at_i P i) q)
                               (at_q (at_i P (i + 1)) q) plm_theta
               else at_q (at_i P i) q)%Qc ∧
            at_q pp q
            = (if plm self
               then at_q (at_i P (i + 1)) q
                    - c0_5 * plm_minmod (at_q (at_i P i) q) (at_q (at_i P (i + 1)) q)
                               (at_q (at_i P (i + 2)) q) plm_theta
               else at_q (at_i P (i + 1)) q)%Qc) ∧
     (∀ k, (¬ ∃ i, 1 ≤ i < ni - 2 ∧ k = i + 1) → F' !! k = F !! k)) ∧
  (∃ P',
     FluxPerFaceSolver.update_prim self p f urk dt dx rk s
     = (Ok (), State (<[p := P']> (arrays s))
                 (launched s ++ [update_prim_launch [p; f] urk rk])) ∧
     length P' = length P ∧
     (∀ i, 2 ≤ i < ni - 2 →
        ∃ u_c : cell (NCONS 1),
          P' !! i = Some (cons_to_prim u_c) ∧
          ∀ q,
            at_q u_c q
            = (let u := at_q (prim_to_cons (at_i P i)) q
                        - (at_q (at_i F (i + 1)) q - at_q (at_i F i) q) * dt / dx in
               if runge_kutta self then u * (1 - rk) + rk * at_q (at_i URK i) q else u)%Qc) ∧
     (∀ i, ¬ (2 ≤ i < ni - 2) → P' !! i = P !! i)).
Proof.
  intros Hp Hf Hurk Hrk Hne Hlen ni. split.
  - eexists. split; [by apply face_fluxes_run|].
    unfold FluxPerFaceSolver.compute_godunov_fluxes_kernel, shape.
    rewrite FOR_RANGE_1D_insert_next. split; [by rewrite length_imap|]. split.
    + intros i Hi.
      exists (FluxPerFaceSolver.pm self P plm_theta i), (FluxPerFaceSolver.pp self P plm_theta i).
      split.
      * rewrite list_lookup_imap.
        destruct (lookup_lt_is_Some_2 F (i + 1) ltac:(lia)) as [y ->]. cbn.
        rewrite bool_decide_eq_true_2 by lia. by replace (i + 1 - 1) with i by lia.
      * intros q. unfold FluxPerFaceSolver.pm, FluxPerFaceSolver.pp.
        rewrite Nat.add_0_r. destruct (plm self); cbv zeta; by rewrite !at_q_for_q.
    + intros k Hk. rewrite list_lookup_imap. destruct (F !! k); [cbn|done].
      rewrite bool_decide_eq_false_2; [done|].
      intros Hr. apply Hk. exists (k - 1). subst ni. lia.
  - eexists. split; [by eapply face_update_prim_run|].
    rewrite size_array.
    assert (FluxPerFaceSolver.update_prim_kernel self P F URK dt dx rk (length P)
            = imap (λ k pc, if bool_decide (2 ≤ k < length P - 2)
                            then cons_to_prim (DIM:=1) (FluxPerFaceSolver.uc self pc
                                   (at_i F (k + 0)) (at_i F (k + 1)) (at_i URK k) dt dx rk)
                            else pc) P) as ->
      by apply (FOR_RANGE_1D_in_place (λ i pc, cons_to_prim (DIM:=1)
           (FluxPerFaceSolver.uc self pc (at_i F (i + 0)) (at_i F (i + 1))
              (at_i URK i) dt dx rk))).
    split; [by rewrite length_imap|]. split.
    + intros i Hi. rewrite list_lookup_imap.
      destruct (lookup_lt_is_Some_2 P i ltac:(lia)) as [pc Hpc]. rewrite Hpc.
      cbn [fmap option_fmap option_map].
      rewrite bool_decide_eq_true_2 by done. rewrite Nat.add_0_r.
      replace (at_i P i) with pc by (symmetry; by apply list_lookup_total_correct).
      eexists. split; [reflexivity|].
      intros q. unfold FluxPerFaceSolver.uc. rewrite at_q_for_q.
      by destruct (runge_kutta self).
    + intros i Hi. rewrite list_lookup_imap. destruct (P !! i); [cbn|done].
      by rewrite bool_decide_eq_false_2.
Qed.

Lemma per_face_kernels_witness :
  arrays shocktube_stage !! 5 = Some shocktube ∧
  arrays shocktube_stage !! 6 = Some (replicate 8 (vreplicate 3 (Q2Qc 7))) ∧
  arrays shocktube_stage !! 7 = Some (ideal_gas_prim_to_cons <$> shocktube) ∧
  length (ideal_gas_prim_to_cons <$> shocktube) = length shocktube ∧
  5 ≠ 6 ∧ length (replicate 8 (vreplicate 3 (Q2Qc 7))) = length shocktube ∧
  (∃ F',
    FluxPerFaceSolver.compute_godunov_fluxes (euler:=ideal_gas) (Kernels true true) 5 6 1%Qc
      shocktube_stage
    = (Ok (), State (<[6 := F']> (arrays shocktube_stage))
                [compute_godunov_fluxes_launch 5 6]) ∧
    F' !! 1 = Some (vreplicate 3 (Q2Qc 7)) ∧
    ∃ pm pp : cell (NCONS 1),
      F' !! 4 = Some (lax_friedrichs pm pp 1) ∧
      at_q pm 0%fin
      = (at_q left_state 0%fin
         + c0_5 * plm_minmod (at_q left_state 0%fin) (at_q left_state 0%fin)
                    (at_q right_state 0%fin) 1)%Qc ∧
      at_q pp 0%fin
      = (at_q right_state 0%fin
         - c0_5 * plm_minmod (at_q left_state 0%fin) (at_q right_state 0%fin)
                    (at_q right_state 0%fin) 1)%Qc) ∧
  (∃ P' u_c,
    FluxPerFaceSolver.update_prim (euler:=ideal_gas) (Kernels true true) 5 6 (Some 7)
      c0_25 1%Qc c0_5 shocktube_stage
    = (Ok (), State (<[5 := P']> (arrays shocktube_stage))
                [update_prim_launch [5; 6] (Some 7) c0_5]) ∧
    P' !! 3 = Some (ideal_gas_cons_to_prim u_c) ∧
    at_q u_c 0%fin
    = ((at_q (ideal_gas_prim_to_cons left_state) 0%fin
        - (Q2Qc 7 - Q2Qc 7) * c0_25 / 1) * (1 - c0_5)
       + c0_5 * at_q (ideal_gas_prim_to_cons left_state) 0%fin)%Qc ∧
    P' !! 1 = Some left_state).
Proof.
  assert (H1 : arrays shocktube_stage !! 5 = Some shocktube) by reflexivity.
  assert (H2 : arrays shocktube_stage !! 6
               = Some (replicate 8 (vreplicate 3 (Q2Qc 7)))) by reflexivity.
  assert (H3 : arrays shocktube_stage !! 7
               = Some (ideal_gas_prim_to_cons <$> shocktube)) by reflexivity.
  assert (H4 : length (ideal_gas_prim_to_cons <$> shocktube) = length shocktube)
    by reflexivity.
  assert (H5 : 5 ≠ 6) by lia.
  assert (H6 : length (replicate 8 (vreplicate 3 (Q2Qc 7))) = length shocktube)
    by reflexivity.
  split; [exact H1|]. split; [exact H2|]. split; [exact H3|]. split; [exact H4|].
  split; [exact H5|]. split; [exact H6|].
  destruct (per_face_kernels (euler:=ideal_gas) (Kernels true true) shocktube_stage 5 6
              (Some 7) shocktube (replicate 8 (vreplicate 3 (Q2Qc 7)))
              (ideal_gas_prim_to_cons <$> shocktube) 1%Qc c0_25 1%Qc c0_5
              H1 H2 H3 (λ _, conj (mk_is_Some _ _ eq_refl) H4) H5 H6)
    as [(F' & Hrun & _ & Hin & Hout) (P' & Hrun' & _ & Hin' & Hout')].
  split.
  - exists F'. split; [exact Hrun|]. split.
    + etrans; [apply (Hout 1); intros (i & Hi & E); lia | reflexivity].
    + destruct (Hin 3 ltac:(cbn; lia)) as (pm & pp & HF & Hq).
      exists pm, pp. split; [exact HF|]. exact (Hq 0%fin).
  - destruct (Hin' 3 ltac:(cbn; lia)) as (u_c & HP & Hq).
    exists P', u_c. split; [exact Hrun'|]. split; [exact HP|].
    split; [exact (Hq 0%fin)|].
    etrans; [apply (Hout' 1); lia | reflexivity].
Defined.


(** The drivers on the eight-cell shock tube, [dt = 1/100], [dx = 1/10],
    with the Lax-Friedrichs stand-in: the two fluxing strategies agree, and
    only the two cells next to the jump move. *)
Example update_prim_shocktube_fwd :
  let moved := [left_state; left_state; left_state;
                [# Q2Qc (191 # 200); Q2Qc (35 # 764); Q2Qc (350431 # 366720)];
                [# Q2Qc (29 # 200); Q2Qc (35 # 116); Q2Qc (9151 # 55680)];
                right_state; right_state; right_state] in
  let per_zone := update_prim (euler:=ideal_gas) (mem:=sevens) 5 (Q2Qc (1 # 100))
                    (Q2Qc (1 # 10)) "per_zone" "pcm" (Q2Qc 2) "fwd" "cpu" shocktube_state in
  let per_face := update_prim (euler:=ideal_gas) (mem:=sevens) 5 (Q2Qc (1 # 100))
                    (Q2Qc (1 # 10)) "per_face" "pcm" (Q2Qc 2) "fwd" "cpu" shocktube_state in
  arrays per_zone.2 !! 6 = Some moved ∧ arrays per_zone.2 !! 5 = Some shocktube ∧
  arrays per_face.2 !! 5 = Some moved ∧
  launched per_zone.2 = [update_prim_launch [5; 6] None 0%Qc] ∧
  launched per_face.2 = [compute_godunov_fluxes_launch 5 6;
                         update_prim_launch [5; 6] None 0%Qc].
Proof.
  cbv zeta. split; [apply (bool_decide_unpack _); vm_compute; exact I|].
  split; [apply (bool_decide_unpack _); vm_compute; exact I|].
  split; [apply (bool_decide_unpack _); vm_compute; exact I|].
  split; vm_compute; reflexivity.
Qed.

(** ** Cell centers *)

Lemma length_linspace start stop num : length (linspace start stop num) = num.
Proof.
  destruct num as [|[|num]]; [done..|].
  unfold linspace. by rewrite length_fmap, length_seq.
Qed.

Lemma length_cell_centers_1d ni : length (cell_centers_1d ni) = ni - 1.
Proof.
  unfold cell_centers_1d, from_1, upto_last.
  rewrite length_fmap, length_zip_with, length_drop, length_take, length_linspace. lia.
Qed.

(** C3: the claim fails at [ni = 4].  [cell_centers_1d(4)] is the three
    midpoints [1/6, 1/2, 5/6] of [linspace(0, 1, 4)], spaced [1/3] apart, and
    not the four centers [1/8, 3/8, 5/8, 7/8] of a four-cell grid. *)
Theorem cell_centers_1d_at_4 :
  cell_centers_1d 4 = [Q2Qc (1 # 6); Q2Qc (1 # 2); Q2Qc (5 # 6)] ∧
  uniform_cell_centers 4 = [Q2Qc (1 # 8); Q2Qc (3 # 8); Q2Qc (5 # 8); Q2Qc (7 # 8)] ∧
  cell_centers_1d 4 ≠ uniform_cell_centers 4.
Proof.
  split; [by apply (bool_decide_unpack _)|].
  split; [by apply (bool_decide_unpack _)|].
  intros E. apply (f_equal length) in E. discriminate E.
Qed.

Lemma cell_centers_1d_short ni : 0 < ni → length (cell_centers_1d ni) ≠ length (uniform_cell_centers ni).
Proof.
  intros Hni. rewrite length_cell_centers_1d. unfold uniform_cell_centers.
  rewrite length_fmap, length_seq. lia.
Qed.

(** ** The SRHD patch *)

(** C6: [Patch.advance_rk(rk_param, dt)] on a patch whose start-of-step time
    is [t0] leaves the patch time at [t0 * rk_param + (t0 + dt) * (1 - rk_param)]
    and the names [conserved1] and [conserved2] swapped, the buffer the
    kernel wrote being the new [conserved1].  The scale factor handed to the
    kernels is [a0 + adot * t] at the time [t] the patch has when they are
    launched, and [scale_factor()] after the call is [a0 + adot * t] at the
    new time. *)
Theorem patch_advance_rk_time_and_swap {lib : Library} (self : Patch.t)
    (s : state patch_array) rk_param dt C0 P1 C1 C2 :
  NoDup [Patch.primitive1 self; Patch.conserved0 self;
         Patch.conserved1 self; Patch.conserved2 self] →
  arrays s !! Patch.conserved0 self = Some C0 →
  arrays s !! Patch.primitive1 self = Some P1 →
  arrays s !! Patch.conserved1 self = Some C1 →
  arrays s !! Patch.conserved2 self = Some C2 →
  let t0 := Patch.time0 self in
  let a0 := Patch.scale_factor_initial self in
  let adot := Patch.scale_factor_derivative self in
  let a := (a0 + adot * Patch.time self)%Qc in
  let P1' := srhd_1d_conserved_to_primitive (Patch.num_zones self) (Patch.faces self)
               C1 P1 a (Patch.coordinates self) in
  let C2' := srhd_1d_advance_rk (Patch.num_zones self) (Patch.faces self)
               C0 P1' C1 C2 a0 adot (Patch.time self) rk_param dt
               (Patch.coordinates self) in
  ∃ self' s',
    Patch.advance_rk self rk_param dt s = (Ok self', s') ∧
    Patch.time self' = (t0 * rk_param + (t0 + dt) * (1 - rk_param))%Qc ∧
    Patch.time0 self' = t0 ∧
    Patch.conserved1 self' = Patch.conserved2 self ∧
    Patch.conserved2 self' = Patch.conserved1 self ∧
    Patch.conserved0 self' = Patch.conserved0 self ∧
    Patch.primitive1 self' = Patch.primitive1 self ∧
    Patch.scale_factor self = a ∧
    Patch.scale_factor self'
    = (a0 + adot * (t0 * rk_param + (t0 + dt) * (1 - rk_param)))%Qc ∧
    launched s' = launched s ++
      [srhd_1d_conserved_to_primitive_launch
         (Patch.conserved1 self) (Patch.primitive1 self) a;
       srhd_1d_advance_rk_launch (Patch.conserved0 self) (Patch.primitive1 self)
         (Patch.conserved1 self) (Patch.conserved2 self)
         a0 adot (Patch.time self) rk_param dt] ∧
    arrays s' !! Patch.primitive1 self' = Some P1' ∧
    arrays s' !! Patch.conserved1 self' = Some C2' ∧
    arrays s' !! Patch.conserved2 self' = Some C1 ∧
    arrays s' !! Patch.conserved0 self' = Some C0.
Proof.
  intros Hnd H0 Hp1 H1 H2 t0 a0 adot a P1' C2'.
  rewrite !NoDup_cons, !not_elem_of_cons in Hnd.
  destruct Hnd as ((? & ? & ? & _) & (? & ? & _) & (? & _) & _).
  unfold Patch.advance_rk, Patch.recompute_primitive.
  mrun ltac:(mrun ltac:(by apply read_ok); mrun ltac:(by apply read_ok); reflexivity).
  mrun ltac:(apply read_ok; cbn; by rewrite lookup_insert_ne).
  mrun ltac:(apply read_ok; cbn; by rewrite lookup_insert_eq).
  mrun ltac:(apply read_ok; cbn; by rewrite lookup_insert_ne).
  mrun ltac:(apply read_ok; cbn; by rewrite lookup_insert_ne).
  eexists _, _. split; [reflexivity|]. cbn.
  repeat split; try done.
  - by rewrite <- app_assoc.
  - rewrite lookup_insert_ne by done. by rewrite lookup_insert_eq.
  - by rewrite lookup_insert_eq.
  - by rewrite !lookup_insert_ne.
  - by rewrite !lookup_insert_ne.
Qed.

Lemma patch_advance_rk_time_and_swap_witness :
  NoDup [0; 20; 10; 30] ∧
  arrays ring_state !! 20 = Some (numbered_rows 200) ∧
  arrays ring_state !! 0 = Some (numbered_rows 0) ∧
  arrays ring_state !! 10 = Some (numbered_rows 100) ∧
  arrays ring_state !! 30 = Some (numbered_rows 300) ∧
  ∃ self' s',
    Patch.advance_rk (lib:=copying_library) (ring_patch 0) c0_5 1%Qc ring_state
    = (Ok self', s') ∧
    Patch.time self' = (Q2Qc 3 * c0_5 + (Q2Qc 3 + 1) * (1 - c0_5))%Qc ∧
    Patch.conserved1 self' = 30 ∧ Patch.conserved2 self' = 10.
Proof.
  assert (H1 : NoDup [0; 20; 10; 30]) by (apply (bool_decide_unpack _); vm_compute; exact I).
  assert (H2 : arrays ring_state !! 20 = Some (numbered_rows 200)) by reflexivity.
  assert (H3 : arrays ring_state !! 0 = Some (numbered_rows 0)) by reflexivity.
  assert (H4 : arrays ring_state !! 10 = Some (numbered_rows 100)) by reflexivity.
  assert (H5 : arrays ring_state !! 30 = Some (numbered_rows 300)) by reflexivity.
  split; [exact H1|]. split; [exact H2|]. split; [exact H3|]. split; [exact H4|].
  split; [exact H5|].
  destruct (patch_advance_rk_time_and_swap (lib:=copying_library) (ring_patch 0) ring_state
              c0_5 1%Qc _ _ _ _ H1 H2 H3 H4 H5)
    as (self' & s' & Hrun & Ht & _ & Hc1 & Hc2 & _).
  exists self', s'. split; [exact Hrun|]. split; [exact Ht|]. split; [exact Hc1 | exact Hc2].
Defined.

(** ** The SRHD guard exchange *)

(** Slices of the guard regions and of the interior edges. *)

Section slices.
Implicit Types (S D V : patch_array).

Lemma get_slice_right_edge ng S :
  0 < ng → 2 * ng ≤ length S →
  get_slice S (Some (-2 * Z.of_nat ng)%Z) (Some (- Z.of_nat ng)%Z) = right_edge ng S.
Proof.
  intros Hng Hlen. unfold get_slice, slice_bounds, right_edge. cbn [from_option].
  unfold slice_bound. rewrite !decide_True by lia.
  replace (Z.to_nat (Z.max 0 (Z.of_nat (length S) + -2 * Z.of_nat ng)))
    with (length S - 2 * ng) by lia.
  replace (Z.to_nat (Z.max 0 (Z.of_nat (length S) + - Z.of_nat ng)))
    with (length S - ng) by lia.
  f_equal. lia.
Qed.

Lemma get_slice_left_edge ng S :
  0 < ng → 2 * ng ≤ length S →
  get_slice S (Some (Z.of_nat ng)) (Some (2 * Z.of_nat ng)%Z) = left_edge ng S.
Proof.
  intros Hng Hlen. unfold get_slice, slice_bounds, left_edge. cbn [from_option].
  unfold slice_bound. rewrite !decide_False by lia.
  replace (Z.to_nat (Z.of_nat ng) `min` length S) with ng by lia.
  replace (Z.to_nat (2 * Z.of_nat ng) `min` length S) with (2 * ng) by lia.
  f_equal. lia.
Qed.

Lemma set_slice_left_guard ng D V :
  0 < ng → length V = ng → ng ≤ length D →
  set_slice D None (Some (Z.of_nat ng)) V = Ok (V ++ drop ng D).
Proof.
  intros Hng HV Hlen. unfold set_slice, slice_bounds. cbn [from_option].
  unfold slice_bound. rewrite (decide_False (P := (Z.of_nat ng < 0)%Z)) by lia.
  replace (Z.to_nat (Z.of_nat ng) `min` length D) with ng by lia.
  replace (0 `max` ng) with ng by lia.
  rewrite decide_True by lia. done.
Qed.

Lemma set_slice_right_guard ng D V :
  0 < ng → length V = ng → ng ≤ length D →
  set_slice D (Some (- Z.of_nat ng)%Z) None V = Ok (take (length D - ng) D ++ V).
Proof.
  intros Hng HV Hlen. unfold set_slice, slice_bounds. cbn [from_option].
  unfold slice_bound. rewrite (decide_True (P := (- Z.of_nat ng < 0)%Z)) by lia.
  replace (Z.to_nat (Z.max 0 (Z.of_nat (length D) + - Z.of_nat ng)))
    with (length D - ng) by lia.
  replace ((length D - ng) `max` length D) with (length D) by lia.
  rewrite decide_True by lia. by rewrite drop_all, app_nil_r.
Qed.

Lemma length_right_edge ng S : 2 * ng ≤ length S → length (right_edge ng S) = ng.
Proof. intros. unfold right_edge. rewrite length_take, length_drop. lia. Qed.

Lemma length_left_edge ng S : 2 * ng ≤ length S → length (left_edge ng S) = ng.
Proof. intros. unfold left_edge. rewrite length_take, length_drop. lia. Qed.

Lemma length_with_guards ng L A R :
  length L = ng → length R = ng → 2 * ng ≤ length A →
  length (with_guards ng L A R) = length A.
Proof.
  intros HL HR HA. unfold with_guards.
  rewrite !length_app, length_take, length_drop. lia.
Qed.

Lemma with_guards_lookup_left ng L A R k :
  length L = ng → k < ng → with_guards ng L A R !! k = L !! k.
Proof. intros HL Hk. unfold with_guards. by rewrite lookup_app_l by lia. Qed.

Lemma with_guards_lookup_interior ng L A R k :
  length L = ng → 2 * ng ≤ length A → ng ≤ k < length A - ng →
  with_guards ng L A R !! k = A !! k.
Proof.
  intros HL HA Hk. unfold with_guards.
  rewrite lookup_app_r by lia. rewrite lookup_app_l by (rewrite length_take, length_drop; lia).
  rewrite lookup_take_lt by lia. rewrite lookup_drop. f_equal. lia.
Qed.

Lemma with_guards_lookup_right ng L A R k :
  length L = ng → 2 * ng ≤ length A → k < ng →
  with_guards ng L A R !! (length A - ng + k) = R !! k.
Proof.
  intros HL HA Hk. unfold with_guards.
  rewrite lookup_app_r by lia. rewrite lookup_app_r by (rewrite length_take, length_drop; lia).
  rewrite length_take, length_drop. f_equal. lia.
Qed.

Lemma right_edge_lookup ng S k :
  k < ng → right_edge ng S !! k = S !! (length S - 2 * ng + k).
Proof. intros Hk. unfold right_edge. rewrite lookup_take_lt by done. by rewrite lookup_drop. Qed.

Lemma left_edge_lookup ng S k : k < ng → left_edge ng S !! k = S !! (ng + k).
Proof. intros Hk. unfold left_edge. rewrite lookup_take_lt by done. by rewrite lookup_drop. Qed.

(** The interior edges do not see the guards. *)
Lemma right_edge_with_guards ng L A R :
  length L = ng → length R = ng → 3 * ng ≤ length A →
  right_edge ng (with_guards ng L A R) = right_edge ng A.
Proof.
  intros HL HR HA. apply list_eq. intros k.
  destruct (decide (k < ng)) as [Hk | Hk].
  - rewrite !right_edge_lookup by done. rewrite length_with_guards by (done || lia).
    apply with_guards_lookup_interior; lia.
  - rewrite !lookup_ge_None_2; [done|..]; rewrite length_right_edge; try lia.
    rewrite length_with_guards; lia.
Qed.

Lemma left_edge_with_guards ng L A R :
  length L = ng → length R = ng → 3 * ng ≤ length A →
  left_edge ng (with_guards ng L A R) = left_edge ng A.
Proof.
  intros HL HR HA. apply list_eq. intros k.
  destruct (decide (k < ng)) as [Hk | Hk].
  - rewrite !left_edge_lookup by done. apply with_guards_lookup_interior; lia.
  - rewrite !lookup_ge_None_2; [done|..]; rewrite length_left_edge; try lia.
    rewrite length_with_guards; lia.
Qed.

Lemma left_guard_then_right ng L A R :
  length L = ng → 2 * ng ≤ length A →
  take (length (L ++ drop ng A) - ng) (L ++ drop ng A) ++ R = with_guards ng L A R.
Proof.
  intros HL HA. unfold with_guards.
  rewrite length_app, length_drop, HL.
  rewrite take_app_ge by lia. rewrite <- app_assoc. do 2 f_equal. f_equal. lia.
Qed.
End slices.

(** One call of [set_bc], whether or not the three arrays are the same
    object. *)

Section set_bc.
Variable self : Solver.t.
Let ng := Solver.num_guard self.
Let bc := Solver.boundary_condition self.
Let np := length (Solver.patches self).

Lemma assign_left_guard (s : state patch_array) dst src s0 s1 S D V :
  arrays s !! src = Some S → arrays s !! dst = Some D →
  get_slice S s0 s1 = V → 0 < ng → length V = ng → ng ≤ length D →
  assign_slice dst None (Some (Z.of_nat ng)) src s0 s1 s
  = (Ok (), State (<[dst := V ++ drop ng D]> (arrays s)) (launched s)).
Proof.
  intros Hs Hd HV Hng Hlen HD. unfold assign_slice.
  mrun ltac:(by apply read_ok). mrun ltac:(by apply read_ok).
  rewrite HV, set_slice_left_guard by done. done.
Qed.

Lemma assign_right_guard (s : state patch_array) dst src s0 s1 S D V :
  arrays s !! src = Some S → arrays s !! dst = Some D →
  get_slice S s0 s1 = V → 0 < ng → length V = ng → ng ≤ length D →
  assign_slice dst (Some (- Z.of_nat ng)%Z) None src s0 s1 s
  = (Ok (), State (<[dst := take (length D - ng) D ++ V]> (arrays s)) (launched s)).
Proof.
  intros Hs Hd HV Hng Hlen HD. unfold assign_slice.
  mrun ltac:(by apply read_ok). mrun ltac:(by apply read_ok).
  rewrite HV, set_slice_right_guard by done. done.
Qed.

Lemma left_edge_after_left_guard L A :
  length L = ng → left_edge ng (L ++ drop ng A) = left_edge ng A.
Proof. intros HL. unfold left_edge. by rewrite drop_app_length' by done. Qed.

Lemma right_edge_after_left_guard L A :
  length L = ng → 3 * ng ≤ length A →
  right_edge ng (L ++ drop ng A) = right_edge ng A.
Proof.
  intros HL HA. unfold right_edge. rewrite length_app, length_drop, HL.
  rewrite drop_app_ge by lia. rewrite drop_drop. do 2 f_equal. lia.
Qed.

Lemma set_bc_run (s : state patch_array) al a0 ar index AL A0 AR :
  0 < ng → bc ∈ ["periodic"; "outflow"] → index < np →
  arrays s !! al = Some AL → arrays s !! a0 = Some A0 → arrays s !! ar = Some AR →
  3 * ng ≤ length AL → 3 * ng ≤ length A0 → 3 * ng ≤ length AR →
  let L := if decide (bc = "outflow" ∧ index = 0) then left_edge ng A0
           else right_edge ng AL in
  let R := if decide (bc = "outflow" ∧ index = np - 1) then right_edge ng A0
           else left_edge ng AR in
  Solver.set_bc self al a0 ar index s
  = (Ok (), State (<[a0 := with_guards ng L A0 R]> (arrays s)) (launched s)).
Proof.
  intros Hng Hbc Hidx Hal Ha0 Har HAL HA0 HAR L R.
  assert (length L = ng) as HL.
  { subst L. case_decide; [apply length_left_edge | apply length_right_edge]; lia. }
  assert (length R = ng) as HR.
  { subst R. case_decide; [apply length_right_edge | apply length_left_edge]; lia. }
  set (D1 := L ++ drop ng A0).
  assert (Solver.set_bc self al a0 ar index s
          = (Ok (), State (<[a0 := take (length D1 - ng) D1 ++ R]> (<[a0 := D1]> (arrays s)))
                      (launched s))) as ->; last first.
  { rewrite insert_insert_eq. subst D1. by rewrite left_guard_then_right by lia. }
  assert (length D1 = length A0) as HlenD1
    by (subst D1; rewrite length_app, length_drop; lia).
  set (s1 := State (<[a0 := D1]> (arrays s)) (launched s)).
  assert (arrays s1 !! a0 = Some D1) as Ha0' by (cbn; by rewrite lookup_insert_eq).
  assert (∃ S, arrays s1 !! ar = Some S ∧ 3 * ng ≤ length S ∧
               left_edge ng S = left_edge ng AR) as (AR' & Har' & HAR' & Hedge).
  { cbn. destruct (decide (ar = a0)) as [-> | Hne].
    - exists D1. rewrite lookup_insert_eq. split; [done|]. split; [lia|].
      subst D1. rewrite left_edge_after_left_guard by done. congruence.
    - exists AR. by rewrite lookup_insert_ne. }
  assert (assign_slice a0 (Some (- Z.of_nat ng)%Z) None ar (Some (Z.of_nat ng))
            (Some (2 * Z.of_nat ng)%Z) s1
          = (Ok (), State (<[a0 := take (length D1 - ng) D1 ++ left_edge ng AR]> (arrays s1))
                      (launched s1))) as Hright_nb.
  { apply (assign_right_guard s1 a0 ar _ _ AR' D1); try done; try lia.
    - rewrite get_slice_left_edge by lia. done.
    - apply length_left_edge. lia. }
  assert (assign_slice a0 (Some (- Z.of_nat ng)%Z) None a0 (Some (-2 * Z.of_nat ng)%Z)
            (Some (- Z.of_nat ng)%Z) s1
          = (Ok (), State (<[a0 := take (length D1 - ng) D1 ++ right_edge ng A0]> (arrays s1))
                      (launched s1))) as Hright_own.
  { apply (assign_right_guard s1 a0 a0 _ _ D1 D1); try done; try lia.
    - rewrite get_slice_right_edge by lia. subst D1.
      by apply right_edge_after_left_guard.
    - apply length_right_edge. lia. }
  unfold Solver.set_bc. fold ng bc np.
  rewrite !elem_of_cons, elem_of_nil in Hbc. destruct Hbc as [Hbc | [Hbc | []]].
  - rewrite decide_True by done.
    assert (L = right_edge ng AL) as EL
      by (subst L; rewrite decide_False; [done | rewrite Hbc; by intros [? _]]).
    assert (R = left_edge ng AR) as ER
      by (subst R; rewrite decide_False; [done | rewrite Hbc; by intros [? _]]).
    mrun ltac:(eapply assign_left_guard;
               [exact Hal | exact Ha0 | apply get_slice_right_edge; lia | done
               | apply length_right_edge; lia | lia]).
    rewrite <- EL. fold D1. fold s1. by rewrite Hright_nb, ER.
  - rewrite decide_False by (rewrite Hbc; done). rewrite decide_True by done.
    assert ((if decide (index = 0)
             then assign_slice a0 None (Some (Z.of_nat ng)) a0 (Some (Z.of_nat ng))
                    (Some (2 * Z.of_nat ng)%Z)
             else assign_slice a0 None (Some (Z.of_nat ng)) al
                    (Some (-2 * Z.of_nat ng)%Z) (Some (- Z.of_nat ng)%Z)) s
            = (Ok (), s1)) as Hfirst.
    { subst s1 D1 L. destruct (decide (index = 0)) as [Hi | Hi].
      - rewrite decide_True by done.
        eapply assign_left_guard; [exact Ha0 | exact Ha0 | apply get_slice_left_edge; lia
          | done | apply length_left_edge; lia | lia].
      - rewrite decide_False by (by intros [_ ?]).
        eapply assign_left_guard; [exact Hal | exact Ha0 | apply get_slice_right_edge; lia
          | done | apply length_right_edge; lia | lia]. }
    mrun ltac:(exact Hfirst).
    destruct (decide (Z.of_nat index = Z.of_nat np - 1)%Z) as [Hi | Hi].
    + assert (R = right_edge ng A0) as ->
        by (subst R; rewrite decide_True; [done | split; [done | lia]]).
      exact Hright_own.
    + assert (R = left_edge ng AR) as ->
        by (subst R; rewrite decide_False; [done | intros [_ ?]; lia]).
      exact Hright_nb.
Qed.

Lemma set_bc_raise (s : state patch_array) al a0 ar index :
  bc ∉ ["periodic"; "outflow"] →
  Solver.set_bc self al a0 ar index s
  = (Raise (ValueError "boundary condition must be 'periodic | outflow'"), s).
Proof.
  rewrite !elem_of_cons, elem_of_nil. intros Hbc. unfold Solver.set_bc. fold bc.
  rewrite !decide_False by tauto. done.
Qed.
End set_bc.

(** The exchange loop: the patches before [i] have been served, and the
    interior edges the later patches read are still those of the start. *)

Section exchange.
Variable self : Solver.t.
Let ng := Solver.num_guard self.
Let bc := Solver.boundary_condition self.
Let ps := Solver.patches self.
Let np := length ps.
Hypothesis Hng : 0 < ng.
Hypothesis Hbc : bc ∈ ["periodic"; "outflow"].

Section family.
Variables (A : nat → patch_array).
Hypothesis HA : ∀ j, j < np → 3 * ng ≤ length (A j).

Lemma neighbours_lt i : i < np → (i + np - 1) mod np < np ∧ (i + np + 1) mod np < np.
Proof. intros Hi. split; apply Nat.mod_upper_bound; lia. Qed.

Lemma exchanged_guards_length i :
  i < np →
  length (if decide (bc = "outflow" ∧ i = 0) then left_edge ng (A i)
          else right_edge ng (A ((i + np - 1) mod np))) = ng ∧
  length (if decide (bc = "outflow" ∧ i = np - 1) then right_edge ng (A i)
          else left_edge ng (A ((i + np + 1) mod np))) = ng.
Proof.
  intros Hi. destruct (neighbours_lt i Hi) as [Hl Hr].
  pose proof (HA i Hi). pose proof (HA _ Hl). pose proof (HA _ Hr).
  split; case_decide; (apply length_left_edge || apply length_right_edge); lia.
Qed.

Lemma length_exchanged i : i < np → length (exchanged bc ng np A i) = length (A i).
Proof.
  intros Hi. destruct (exchanged_guards_length i Hi) as [HL HR].
  pose proof (HA i Hi). unfold exchanged. apply length_with_guards; (done || lia).
Qed.

Lemma right_edge_exchanged i :
  i < np → right_edge ng (exchanged bc ng np A i) = right_edge ng (A i).
Proof.
  intros Hi. destruct (exchanged_guards_length i Hi) as [HL HR].
  unfold exchanged. apply right_edge_with_guards; auto.
Qed.

Lemma left_edge_exchanged i :
  i < np → left_edge ng (exchanged bc ng np A i) = left_edge ng (A i).
Proof.
  intros Hi. destruct (exchanged_guards_length i Hi) as [HL HR].
  unfold exchanged. apply left_edge_with_guards; auto.
Qed.

Let srv := served bc ng np A.

Lemma set_bc_family (loc : nat → loc) (s : state patch_array) i :
  i < np →
  (∀ j, j < np → arrays s !! loc j = Some (srv i j)) →
  Solver.set_bc self (loc ((i + np - 1) mod np)) (loc i) (loc ((i + np + 1) mod np)) i s
  = (Ok (), State (<[loc i := exchanged bc ng np A i]> (arrays s)) (launched s)).
Proof.
  intros Hi Hs. destruct (neighbours_lt i Hi) as [Hl Hr].
  assert (∀ j, j < np → length (srv i j) = length (A j)) as Hlen.
  { intros j Hj. unfold srv, served. case_decide; [by apply length_exchanged | done]. }
  assert (∀ j, j < np → right_edge ng (srv i j) = right_edge ng (A j)) as Hre.
  { intros j Hj. unfold srv, served. case_decide; [by apply right_edge_exchanged | done]. }
  assert (∀ j, j < np → left_edge ng (srv i j) = left_edge ng (A j)) as Hle.
  { intros j Hj. unfold srv, served. case_decide; [by apply left_edge_exchanged | done]. }
  erewrite (set_bc_run self s _ _ _ i);
    [| done | done | done | by apply Hs | by apply Hs | by apply Hs
     | rewrite Hlen by done; by apply HA | rewrite Hlen by done; by apply HA
     | rewrite Hlen by done; by apply HA].
  change (Solver.num_guard self) with ng.
  change (Solver.boundary_condition self) with bc.
  change (length (Solver.patches self)) with np.
  rewrite !Hre, !Hle by done.
  assert (srv i i = A i) as -> by (unfold srv, served; rewrite decide_False; [done | lia]).
  reflexivity.
Qed.
End family.

Variables (AP AC : nat → patch_array).
Hypothesis HAP : ∀ j, j < np → 3 * ng ≤ length (AP j).
Hypothesis HAC : ∀ j, j < np → 3 * ng ≤ length (AC j).
Let locP (j : nat) : loc := Patch.primitive1 (ps !!! j).
Let locC (j : nat) : loc := Patch.conserved1 (ps !!! j).
Hypothesis HinjP : ∀ j j', j < np → j' < np → locP j = locP j' → j = j'.
Hypothesis HinjC : ∀ j j', j < np → j' < np → locC j = locC j' → j = j'.
Hypothesis Hdisj : ∀ j j', j < np → j' < np → locP j ≠ locC j'.

Let srv := served bc ng np.
Let inv := exchange_inv self AP AC.

Lemma exchange_loop (s0 : state patch_array) n :
  ∀ i s, i + n = np → inv s0 i s →
    ∃ s',
      for_in (seq i n) (λ i _,
        let pl := ps !!! ((i + np - 1) mod np) in
        let p0 := ps !!! i in
        let pr := ps !!! ((i + np + 1) mod np) in
        Solver.set_bc self (Patch.primitive1 pl) (Patch.primitive1 p0)
          (Patch.primitive1 pr) i;;
        Solver.set_bc self (Patch.conserved1 pl) (Patch.conserved1 p0)
          (Patch.conserved1 pr) i) () s
      = (Ok (), s') ∧ inv s0 np s'.
Proof.
  induction n as [|n IH]; intros i s Hin (Htr & HP & HC).
  - exists s. replace np with i by lia. by split.
  - cbn [seq for_in]. cbv zeta.
    assert (i < np) as Hi by lia.
    pose proof (set_bc_family AP HAP locP s i Hi HP) as E1.
    set (s1 := State (<[locP i := exchanged bc ng np AP i]> (arrays s)) (launched s)) in *.
    assert (∀ j, j < np → arrays s1 !! locC j = Some (srv AC i j)) as HC1.
    { intros j Hj. cbn. rewrite lookup_insert_ne by by apply Hdisj. by apply HC. }
    pose proof (set_bc_family AC HAC locC s1 i Hi HC1) as E2.
    erewrite bind_ok; [| erewrite bind_ok; [exact E2 | exact E1]].
    subst s1.
    apply IH; [lia|]. split; [done|]. cbn. split.
    + intros j Hj. rewrite lookup_insert_ne by (apply not_eq_sym; by apply Hdisj).
      unfold srv, served. destruct (decide (j = i)) as [-> | Hne].
      * rewrite lookup_insert_eq. rewrite decide_True by lia. done.
      * rewrite lookup_insert_ne by (intros E; by apply HinjP in E).
        rewrite HP by done. unfold srv, served.
        destruct (decide (j < i)); [by rewrite decide_True by lia|].
        by rewrite decide_False by lia.
    + intros j Hj. unfold srv, served. destruct (decide (j = i)) as [-> | Hne].
      * rewrite lookup_insert_eq. rewrite decide_True by lia. done.
      * rewrite lookup_insert_ne by (intros E; by apply HinjC in E).
        rewrite lookup_insert_ne by by apply Hdisj.
        rewrite HC by done. unfold srv, served.
        destruct (decide (j < i)); [by rewrite decide_True by lia|].
        by rewrite decide_False by lia.
Qed.

Lemma exchanged_guards_filled A i :
  (∀ j, j < np → 3 * ng ≤ length (A j)) → i < np →
  guards_filled bc ng np i (A ((i + np - 1) mod np)) (A i) (A ((i + np + 1) mod np))
    (exchanged bc ng np A i).
Proof.
  intros HA Hi. destruct (exchanged_guards_length A HA i Hi) as [HL HR].
  pose proof (HA i Hi) as Hlen.
  split; [by apply length_exchanged|]. unfold exchanged. split; [|split].
  - intros k Hk. apply with_guards_lookup_interior; (done || lia).
  - intros k Hk. rewrite with_guards_lookup_left by done.
    destruct (decide (bc = "outflow" ∧ i = 0));
      [by apply left_edge_lookup | by apply right_edge_lookup].
  - intros k Hk. rewrite with_guards_lookup_right by (done || lia).
    destruct (decide (bc = "outflow" ∧ i = np - 1));
      [by apply right_edge_lookup | by apply left_edge_lookup].
Qed.
End exchange.

(** C5: the boundary exchange of the SRHD solver.  With [periodic] or
    [outflow], on a ring of distinct buffers whose patches have at least
    [ng] interior rows, the exchange loop of [advance_rk] calls [set_bc] on
    the primitive and on the conserved array of every patch [i] with the
    arrays of the patches [i - 1] and [i + 1] modulo the number of patches,
    and leaves each array with its interior unchanged, its left guard equal
    to the last [ng] interior rows of the left neighbour and its right guard
    equal to the first [ng] interior rows of the right neighbour; under
    [outflow] the left guard of the first patch and the right guard of the
    last patch are instead the patch's own first, respectively last, [ng]
    interior rows.  With any other [boundary_condition], [set_bc] raises a
    [ValueError] and changes nothing. *)
Theorem set_bc_boundary_exchange (self : Solver.t) (s : state patch_array) :
  let ps := Solver.patches self in
  let np := length ps in
  let ng := Solver.num_guard self in
  let bc := Solver.boundary_condition self in
  (bc ∈ ["periodic"; "outflow"] → 0 < ng →
   NoDup ((Patch.primitive1 <$> ps) ++ (Patch.conserved1 <$> ps)) →
   (∀ p0, p0 ∈ ps → ∃ A B,
      arrays s !! Patch.primitive1 p0 = Some A ∧ arrays s !! Patch.conserved1 p0 = Some B ∧
      3 * ng ≤ length A ∧ 3 * ng ≤ length B) →
   ∃ s',
     Solver.exchange_guards self s = (Ok (), s') ∧ launched s' = launched s ∧
     ∀ i pl p0 pr,
       ps !! i = Some p0 →
       ps !! ((i + np - 1) mod np) = Some pl →
       ps !! ((i + np + 1) mod np) = Some pr →
       ∀ field, field ∈ [Patch.primitive1; Patch.conserved1] →
       ∀ AL A0 AR,
         arrays s !! field pl = Some AL → arrays s !! field p0 = Some A0 →
         arrays s !! field pr = Some AR →
         ∃ A0', arrays s' !! field p0 = Some A0' ∧ guards_filled bc ng np i AL A0 AR A0') ∧
  (bc ∉ ["periodic"; "outflow"] →
   ∀ al a0 ar index (s0 : state patch_array),
     Solver.set_bc self al a0 ar index s0
     = (Raise (ValueError "boundary condition must be 'periodic | outflow'"), s0)).
Proof.
  intros ps np ng bc. split; [|intros Hbc al a0 ar index s0; by apply set_bc_raise].
  intros Hbc Hng Hnd Hstore.
  set (AP := λ j, default [] (arrays s !! Patch.primitive1 (ps !!! j))).
  set (AC := λ j, default [] (arrays s !! Patch.conserved1 (ps !!! j))).
  assert (∀ j, j < np → ps !! j = Some (ps !!! j)) as Hps.
  { intros j Hj. apply list_lookup_lookup_total_lt. done. }
  assert (∀ j, j < np →
            arrays s !! Patch.primitive1 (ps !!! j) = Some (AP j) ∧
            arrays s !! Patch.conserved1 (ps !!! j) = Some (AC j) ∧
            3 * ng ≤ length (AP j) ∧ 3 * ng ≤ length (AC j)) as HA.
  { intros j Hj. destruct (Hstore (ps !!! j)) as (A & B & HA & HB & ? & ?).
    { eapply list_elem_of_lookup_2. by apply Hps. }
    subst AP AC. cbn. by rewrite HA, HB. }
  apply NoDup_app in Hnd as (HndP & Hdisj & HndC).
  assert (∀ j j', j < np → j' < np →
            Patch.primitive1 (ps !!! j) = Patch.primitive1 (ps !!! j') → j = j') as HinjP.
  { intros j j' Hj Hj' E. eapply (NoDup_lookup _ j j' _ HndP);
      rewrite list_lookup_fmap, Hps by done; [done | by rewrite E]. }
  assert (∀ j j', j < np → j' < np →
            Patch.conserved1 (ps !!! j) = Patch.conserved1 (ps !!! j') → j = j') as HinjC.
  { intros j j' Hj Hj' E. eapply (NoDup_lookup _ j j' _ HndC);
      rewrite list_lookup_fmap, Hps by done; [done | by rewrite E]. }
  assert (∀ j j', j < np → j' < np →
            Patch.primitive1 (ps !!! j) ≠ Patch.conserved1 (ps !!! j')) as HPC.
  { intros j j' Hj Hj' E. apply (Hdisj (Patch.primitive1 (ps !!! j))).
    - apply list_elem_of_fmap. eexists. split; [done|].
      eapply list_elem_of_lookup_2. by apply Hps.
    - rewrite E. apply list_elem_of_fmap. eexists. split; [done|].
      eapply list_elem_of_lookup_2. by apply Hps. }
  destruct (exchange_loop self Hng Hbc AP AC (λ j Hj, proj1 (proj2 (proj2 (HA j Hj))))
              (λ j Hj, proj2 (proj2 (proj2 (HA j Hj)))) HinjP HinjC HPC s np 0 s)
    as (s' & Hrun & Htr & HP & HC); [done| |].
  { split; [done|]. split; intros j Hj; unfold served; rewrite decide_False by lia;
      by apply HA. }
  exists s'. split; [exact Hrun|]. split; [exact Htr|].
  intros i pl p0 pr Hp0 Hpl Hpr field Hfield AL A0 AR HAL HA0 HAR.
  assert (i < np) as Hi by (by eapply lookup_lt_Some).
  assert ((i + np - 1) mod np < np ∧ (i + np + 1) mod np < np) as [Hl Hr]
    by (split; apply Nat.mod_upper_bound; lia).
  rewrite Hps in Hp0, Hpl, Hpr by done.
  injection Hp0 as <-. injection Hpl as <-. injection Hpr as <-.
  rewrite !elem_of_cons, elem_of_nil in Hfield. destruct Hfield as [-> | [-> | []]].
  - eexists. split; [by apply HP|]. unfold served. rewrite decide_True by done.
    destruct (HA i Hi) as (E0 & _), (HA _ Hl) as (El & _), (HA _ Hr) as (Er & _).
    replace AL with (AP ((i + np - 1) mod np)) by congruence.
    replace A0 with (AP i) by congruence.
    replace AR with (AP ((i + np + 1) mod np)) by congruence.
    apply exchanged_guards_filled; [done | | done]. intros j Hj. by apply HA.
  - eexists. split; [by apply HC|]. unfold served. rewrite decide_True by done.
    destruct (HA i Hi) as (_ & E0 & _), (HA _ Hl) as (_ & El & _), (HA _ Hr) as (_ & Er & _).
    replace AL with (AC ((i + np - 1) mod np)) by congruence.
    replace A0 with (AC i) by congruence.
    replace AR with (AC ((i + np + 1) mod np)) by congruence.
    apply exchanged_guards_filled; [done | | done]. intros j Hj. by apply HA.
Qed.

Lemma set_bc_boundary_exchange_witness :
  "outflow" ∈ ["periodic"; "outflow"] ∧ 0 < 2 ∧
  NoDup [0; 1; 2; 10; 11; 12] ∧ ("reflect" ∉ ["periodic"; "outflow"]) ∧
  (∃ s' A0',
     Solver.exchange_guards (ring_solver "outflow") ring_state = (Ok (), s') ∧
     arrays s' !! 0 = Some A0' ∧
     guards_filled "outflow" 2 3 0 (numbered_rows 20) (numbered_rows 0) (numbered_rows 10)
       A0') ∧
  Solver.set_bc (ring_solver "reflect") 2 0 1 0 ring_state
  = (Raise (ValueError "boundary condition must be 'periodic | outflow'"), ring_state).
Proof.
  assert (H1 : "outflow" ∈ ["periodic"; "outflow"]) by (vm_compute; repeat constructor).
  assert (H2 : 0 < 2) by lia.
  assert (H3 : NoDup [0; 1; 2; 10; 11; 12])
    by (apply (bool_decide_unpack _); vm_compute; exact I).
  assert (H4 : "reflect" ∉ ["periodic"; "outflow"]).
  { rewrite !not_elem_of_cons. repeat split; try discriminate. apply not_elem_of_nil. }
  assert (H5 : ∀ p0, p0 ∈ Solver.patches (ring_solver "outflow") → ∃ A B,
             arrays ring_state !! Patch.primitive1 p0 = Some A ∧
             arrays ring_state !! Patch.conserved1 p0 = Some B ∧
             3 * 2 ≤ length A ∧ 3 * 2 ≤ length B).
  { intros p0 Hp0. cbn in Hp0. rewrite !elem_of_cons, elem_of_nil in Hp0.
    destruct Hp0 as [-> | [-> | [-> | []]]]; eexists _, _;
      (split; [reflexivity|]); (split; [reflexivity|]); cbn; lia. }
  split; [exact H1|]. split; [exact H2|]. split; [exact H3|]. split; [exact H4|].
  split.
  - destruct (proj1 (set_bc_boundary_exchange (ring_solver "outflow") ring_state)
                H1 H2 H3 H5) as (s' & Hrun & _ & Hfill).
    destruct (Hfill 0 (ring_patch 2) (ring_patch 0) (ring_patch 1) eq_refl eq_refl eq_refl
                Patch.primitive1 ltac:(constructor)
                (numbered_rows 20) (numbered_rows 0) (numbered_rows 10)
                eq_refl eq_refl eq_refl) as (A0' & HA0' & Hg).
    exists s', A0'. split; [exact Hrun|]. split; [exact HA0' | exact Hg].
  - exact (proj2 (set_bc_boundary_exchange (ring_solver "reflect") ring_state) H4
             2 0 1 0 ring_state).
Defined.

(** The exchange on the ring of three patches: rows are numbered
    [base + k], with bases 0, 10, 20 for the primitive arrays. *)
Example exchange_guards_ring :
  let rows := fmap (M:=list) numbered_row in
  arrays (Solver.exchange_guards (ring_solver "periodic") ring_state).2 !! 0
  = Some (rows [23; 24; 2; 3; 4; 12; 13]%Z) ∧
  arrays (Solver.exchange_guards (ring_solver "outflow") ring_state).2 !! 0
  = Some (rows [2; 3; 2; 3; 4; 12; 13]%Z) ∧
  arrays (Solver.exchange_guards (ring_solver "outflow") ring_state).2 !! 2
  = Some (rows [13; 14; 22; 23; 24; 23; 24]%Z).
Proof. cbv zeta. repeat split; apply (bool_decide_unpack _); vm_compute; exact I. Qed.

(** On patches with fewer than [ng] interior rows the slices of [set_bc]
    reach into guard rows.  On the ring of four one-zone patches, whose rows
    are numbered [base + k] with bases 0, 10, 20, 30, the exchange returns
    and leaves the patch 1 with the left guard [[32; 2]]: its first row is
    the interior row of the patch 3, which is no neighbour of the patch 1,
    and not a row of the interior edge of the patch 0, so that the guards
    are not filled as the claim says. *)
Lemma set_bc_short_patches :
  ∃ s' A1,
    Solver.exchange_guards short_ring short_ring_state = (Ok (), s') ∧
    arrays s' !! 1 = Some A1 ∧
    A1 = numbered_row <$> [32; 2; 12; 22; 23]%Z ∧
    (numbered_row 32 ∉ [numbered_row 2; numbered_row 22]) ∧
    (¬ guards_filled "periodic" 2 4 1 (short_rows 0) (short_rows 10) (short_rows 20) A1).
Proof.
  eexists _, _. split; [vm_compute; reflexivity|].
  split; [vm_compute; reflexivity|]. split; [reflexivity|]. split.
  - apply (bool_decide_unpack _). vm_compute. exact I.
  - intros (_ & _ & Hleft & _). specialize (Hleft 0 ltac:(lia)).
    vm_compute in Hleft. discriminate Hleft.
Qed.

(** ** More on the stage drivers *)

Section driver_results.
Context {euler : lib_euler 1}.

Lemma face_flux_zone_flux_minus self θ X c :
  1 ≤ c → face_flux self θ X c = zone_flux_minus self θ X c.
Proof.
  intros Hc. unfold face_flux, zone_flux_minus.
  unfold FluxPerFaceSolver.pm, FluxPerFaceSolver.pp,
    FluxPerZoneSolver.plp, FluxPerZoneSolver.pcm.
  replace (c - 1 - 1) with (c - 2) by lia.
  replace (c - 1 + 0) with (c - 1) by lia.
  replace (c - 1 + 1) with (c + 0) by lia.
  replace (c - 1 + 2) with (c + 1) by lia.
  by destruct (plm self).
Qed.

Lemma face_flux_zone_flux_plus self θ X c :
  face_flux self θ X (c + 1) = zone_flux_plus self θ X c.
Proof.
  unfold face_flux, zone_flux_plus.
  unfold FluxPerFaceSolver.pm, FluxPerFaceSolver.pp,
    FluxPerZoneSolver.pcp, FluxPerZoneSolver.prm.
  replace (c + 1 - 1) with c by lia.
  by destruct (plm self).
Qed.

(** One stage of the per-face solver and one stage of the per-zone solver
    compute the same array. *)
Lemma face_stage_zone_stage self U dt dx θ X rk :
  face_stage self U dt dx θ X rk = zone_stage self U dt dx θ X rk.
Proof.
  unfold face_stage, zone_stage. apply imap_ext. intros c pc _.
  case_decide as Hc; [|done]. unfold interior in Hc.
  by rewrite face_flux_zone_flux_minus, face_flux_zone_flux_plus by lia.
Qed.

Lemma face_stages_zone_stages self U dt dx θ rks X :
  foldl (face_stage self U dt dx θ) X rks = foldl (zone_stage self U dt dx θ) X rks.
Proof.
  revert X. induction rks as [|rk rks IH]; intros X; [done|].
  cbn [foldl]. by rewrite face_stage_zone_stage, IH.
Qed.

Lemma stages_of_cases ti :
  ti ∈ ["fwd"; "rk1"; "rk2"; "rk3"] →
  ti = "fwd" ∨
  (ti, Some (stages_of ti)) ∈ [("rk1", Some [0%Qc]); ("rk2", Some [0%Qc; c0_5]);
                               ("rk3", Some [0; Q2Qc 3 / Q2Qc 4; 1 / Q2Qc 3]%Qc)].
Proof.
  intros Hti. rewrite !elem_of_cons, elem_of_nil in Hti.
  destruct Hti as [-> | [-> | [-> | [-> | []]]]]; [by left|right..];
    rewrite !elem_of_cons; auto.
Qed.

(** The outcome of [update_prim] on every valid configuration: the array it
    returns, the object that array is, and what it leaves in the store. *)
Lemma update_prim_run {mem : memory} (s : state array) p P dt dx fluxing recon θ ti exec :
  arrays s !! p = Some P →
  fluxing ∈ ["per_face"; "per_zone"] → recon ∈ ["pcm"; "plm"] →
  exec ∈ ["cpu"; "gpu"] → ti ∈ ["fwd"; "rk1"; "rk2"; "rk3"] →
  ∃ r s',
    update_prim p dt dx fluxing recon θ ti exec s = (Ok r, s') ∧
    arrays s' !! r
    = Some (foldl (zone_stage (solver_of ti recon) (prim_to_cons <$> P) dt dx θ) P
              (stages_of ti)) ∧
    r = (if decide (fluxing = "per_face") then p
         else if Nat.even (length (stages_of ti)) then p else fresh (dom (arrays s))) ∧
    (fluxing = "per_zone" → length (stages_of ti) ≤ 1 → arrays s' !! p = Some P) ∧
    (∀ l, is_Some (arrays s !! l) → l ≠ p → arrays s' !! l = arrays s !! l).
Proof.
  intros Hp Hfl Hre Hexec Hti.
  rewrite !elem_of_cons, elem_of_nil in Hfl.
  destruct (stages_of_cases ti Hti) as [-> | Hin].
  - change (stages_of "fwd") with [0%Qc]. cbn [foldl length Nat.even].
    destruct Hfl as [-> | [-> | []]].
    + rewrite (update_prim_per_face_fwd s p P) by done.
      eexists _, _. split; [reflexivity|]. cbn [arrays].
      rewrite lookup_insert_eq. rewrite decide_True by done.
      split; [|split; [done|split; [done|]]].
      * apply (f_equal Some). rewrite face_stage_zone_stage. by apply zone_stage_rk0.
      * intros l Hl Hne. rewrite lookup_insert_ne by done.
        assert (l ≠ fresh (dom (arrays s))) by by apply fresh_loc_ne.
        by rewrite !lookup_insert_ne.
    + rewrite (update_prim_per_zone_fwd s p P) by done.
      assert (p ≠ fresh (dom (arrays s))) as Hne0 by (apply fresh_loc_ne; by eexists).
      eexists _, _. split; [reflexivity|]. cbn [arrays].
      rewrite lookup_insert_eq. rewrite decide_False by done.
      split; [|split; [done|split]].
      * apply (f_equal Some). by apply zone_stage_rk0.
      * intros _ _. by rewrite !lookup_insert_ne.
      * intros l Hl Hne.
        assert (l ≠ fresh (dom (arrays s))) by by apply fresh_loc_ne.
        by rewrite !lookup_insert_ne.
  - destruct Hfl as [-> | [-> | []]].
    + destruct (update_prim_per_face_rk s p P dt dx recon θ ti exec (stages_of ti))
        as (s' & Hrun & Hres & Hu & Htr & Hne1 & Hne2 & Hne3 & Hfr); try done.
      eexists _, s'. split; [exact Hrun|]. rewrite decide_True by done.
      split; [|split; [done|split; [done|]]].
      * rewrite Hres. apply (f_equal Some). rewrite face_stages_zone_stages.
        apply zone_stages_ext. intros c Hc. apply frozen_interior; [|done].
        apply prim_to_cons_array_frozen. by rewrite length_fmap, length_seq.
      * intros l Hl Hne. apply Hfr; [done| |].
        -- by apply fresh_loc_ne.
        -- apply fresh_loc_ne. destruct Hl as [a Ha].
           destruct (decide (l = fresh (dom (arrays s)))) as [->|N].
           ++ rewrite lookup_insert_eq. by eexists.
           ++ rewrite lookup_insert_ne by done. by eexists.
    + destruct (update_prim_per_zone_rk s p P dt dx recon θ ti exec (stages_of ti))
        as (s' & Hrun & Hres & Hu & Htr & Hne1 & Hne2 & Hne3 & Hone & Hfr); try done.
      eexists _, s'. split; [exact Hrun|]. rewrite decide_False by done.
      split; [|split; [done|split; [by intros _|]]].
      * rewrite Hres. apply (f_equal Some).
        apply zone_stages_ext. intros c Hc. apply frozen_interior; [|done].
        apply prim_to_cons_array_frozen. by rewrite length_fmap, length_seq.
      * intros l Hl Hne. apply Hfr; [done| |].
        -- by apply fresh_loc_ne.
        -- apply fresh_loc_ne. destruct Hl as [a Ha].
           destruct (decide (l = fresh (dom (arrays s)))) as [->|N].
           ++ rewrite lookup_insert_eq. by eexists.
           ++ rewrite lookup_insert_ne by done. by eexists.
Qed.
End driver_results.

(** X5: the two fluxing strategies compute the same primitive values.  On
    every valid configuration, and whatever the two runs find in
    uninitialised memory, [update_prim] with [per_face] and with [per_zone]
    both return, and the arrays they return hold the same values. *)
Theorem update_prim_fluxing_agree {euler : lib_euler 1} (mem1 mem2 : memory)
    (s : state array) p P dt dx reconstruction plm_theta time_integration exec_mode :
  arrays s !! p = Some P →
  reconstruction ∈ ["pcm"; "plm"] → exec_mode ∈ ["cpu"; "gpu"] →
  time_integration ∈ ["fwd"; "rk1"; "rk2"; "rk3"] →
  ∃ r1 s1 r2 s2 R,
    update_prim (mem:=mem1) p dt dx "per_face" reconstruction plm_theta time_integration
      exec_mode s = (Ok r1, s1) ∧
    update_prim (mem:=mem2) p dt dx "per_zone" reconstruction plm_theta time_integration
      exec_mode s = (Ok r2, s2) ∧
    arrays s1 !! r1 = Some R ∧ arrays s2 !! r2 = Some R.
Proof.
  intros Hp Hre Hexec Hti.
  destruct (update_prim_run (mem:=mem1) s p P dt dx "per_face" reconstruction plm_theta
              time_integration exec_mode) as (r1 & s1 & Hrun1 & Hres1 & _);
    [done | rewrite !elem_of_cons; auto | done..|].
  destruct (update_prim_run (mem:=mem2) s p P dt dx "per_zone" reconstruction plm_theta
              time_integration exec_mode) as (r2 & s2 & Hrun2 & Hres2 & _);
    [done | rewrite !elem_of_cons; auto | done..|].
  by eexists r1, s1, r2, s2, _.
Qed.

Lemma update_prim_fluxing_agree_witness :
  arrays shocktube_state !! 5 = Some shocktube ∧
  "plm" ∈ ["pcm"; "plm"] ∧ "cpu" ∈ ["cpu"; "gpu"] ∧ "rk3" ∈ ["fwd"; "rk1"; "rk2"; "rk3"] ∧
  ∃ r1 s1 r2 s2 R,
    update_prim (euler:=ideal_gas) (mem:=sevens) 5 c0_25 1%Qc "per_face" "plm" 1%Qc "rk3"
      "cpu" shocktube_state = (Ok r1, s1) ∧
    update_prim (euler:=ideal_gas) (mem:=nines) 5 c0_25 1%Qc "per_zone" "plm" 1%Qc "rk3"
      "cpu" shocktube_state = (Ok r2, s2) ∧
    arrays s1 !! r1 = Some R ∧ arrays s2 !! r2 = Some R.
Proof.
  assert (H1 : arrays shocktube_state !! 5 = Some shocktube) by reflexivity.
  assert (H2 : "plm" ∈ ["pcm"; "plm"]) by (vm_compute; repeat constructor).
  assert (H3 : "cpu" ∈ ["cpu"; "gpu"]) by (vm_compute; constructor).
  assert (H4 : "rk3" ∈ ["fwd"; "rk1"; "rk2"; "rk3"]) by (vm_compute; repeat constructor).
  split; [exact H1|]. split; [exact H2|]. split; [exact H3|]. split; [exact H4|].
  exact (update_prim_fluxing_agree (euler:=ideal_gas) sevens nines shocktube_state 5
           shocktube c0_25 1%Qc "plm" 1%Qc "rk3" "cpu" H1 H2 H3 H4).
Defined.

(** X6: which object [update_prim] returns.  With [per_face] the update is
    done in place and the input object itself is returned.  With [per_zone]
    the two buffers trade places after every stage: [fwd], [rk1] and [rk3]
    return a newly allocated array and [rk2] returns the input object;
    [fwd] and [rk1] leave the values of the input as they were.  No
    array of the caller other than the input is changed. *)
Theorem update_prim_returned_object {euler : lib_euler 1} {mem : memory}
    (s : state array) p P dt dx fluxing reconstruction plm_theta time_integration exec_mode :
  arrays s !! p = Some P →
  fluxing ∈ ["per_face"; "per_zone"] → reconstruction ∈ ["pcm"; "plm"] →
  exec_mode ∈ ["cpu"; "gpu"] → time_integration ∈ ["fwd"; "rk1"; "rk2"; "rk3"] →
  ∃ r s',
    update_prim p dt dx fluxing reconstruction plm_theta time_integration exec_mode s
    = (Ok r, s') ∧
    (fluxing = "per_face" ∨ time_integration = "rk2" → r = p) ∧
    (fluxing = "per_zone" → time_integration ≠ "rk2" →
       arrays s !! r = None ∧ is_Some (arrays s' !! r)) ∧
    (fluxing = "per_zone" → time_integration ∈ ["fwd"; "rk1"] → arrays s' !! p = Some P) ∧
    (∀ l, is_Some (arrays s !! l) → l ≠ p → arrays s' !! l = arrays s !! l).
Proof.
  intros Hp Hfl Hre Hexec Hti.
  destruct (update_prim_run s p P dt dx fluxing reconstruction plm_theta
              time_integration exec_mode) as (r & s' & Hrun & Hres & Hr & Hone & Hfr);
    [done..|].
  exists r, s'. split; [exact Hrun|].
  rewrite !elem_of_cons, elem_of_nil in Hfl. rewrite !elem_of_cons, elem_of_nil in Hti.
  split; [|split; [|split; [|exact Hfr]]].
  - intros [-> | ->]; [by rewrite decide_True in Hr|].
    destruct Hfl as [-> | [-> | []]]; [by rewrite decide_True in Hr|].
    by rewrite decide_False in Hr.
  - intros -> Hne. rewrite decide_False in Hr by done.
    assert (Nat.even (length (stages_of time_integration)) = false) as E
      by by destruct Hti as [-> | [-> | [-> | [-> | []]]]].
    rewrite E in Hr. subst r. split; [apply fresh_loc_None | by eexists].
  - intros -> Hin. apply Hone; [done|]. rewrite !elem_of_cons, elem_of_nil in Hin.
    by destruct Hin as [-> | [-> | []]].
Qed.

Lemma update_prim_returned_object_witness :
  arrays shocktube_state !! 5 = Some shocktube ∧
  "per_zone" ∈ ["per_face"; "per_zone"] ∧ "pcm" ∈ ["pcm"; "plm"] ∧
  "cpu" ∈ ["cpu"; "gpu"] ∧ "rk2" ∈ ["fwd"; "rk1"; "rk2"; "rk3"] ∧
  ∃ s',
    update_prim (euler:=ideal_gas) (mem:=sevens) 5 c0_25 1%Qc "per_zone" "pcm" 1%Qc "rk2"
      "cpu" shocktube_state = (Ok 5, s').
Proof.
  assert (H1 : arrays shocktube_state !! 5 = Some shocktube) by reflexivity.
  assert (H2 : "per_zone" ∈ ["per_face"; "per_zone"]) by (vm_compute; repeat constructor).
  assert (H3 : "pcm" ∈ ["pcm"; "plm"]) by (vm_compute; constructor).
  assert (H4 : "cpu" ∈ ["cpu"; "gpu"]) by (vm_compute; constructor).
  assert (H5 : "rk2" ∈ ["fwd"; "rk1"; "rk2"; "rk3"]) by (vm_compute; repeat constructor).
  split; [exact H1|]. split; [exact H2|]. split; [exact H3|]. split; [exact H4|].
  split; [exact H5|].
  destruct (update_prim_returned_object (euler:=ideal_gas) (mem:=sevens) shocktube_state 5
              shocktube c0_25 1%Qc "per_zone" "pcm" 1%Qc "rk2" "cpu" H1 H2 H3 H4 H5)
    as (r & s' & Hrun & Hr & _).
  exists s'. pose proof (Hr (or_intror eq_refl)) as E. subst r. exact Hrun.
Defined.

Section driver_errors.
Context {euler : lib_euler 1} {euler2 : lib_euler 2} {mem : memory}.

Lemma numpy_or_cupy_None exec : exec ∉ ["cpu"; "gpu"] → numpy_or_cupy exec = None.
Proof.
  rewrite !elem_of_cons, elem_of_nil. intros H. unfold numpy_or_cupy.
  rewrite !decide_False; [done|tauto..].
Qed.

Lemma stage_coefficients_ok {A} ti (s : state A) :
  ti ∈ ["fwd"; "rk1"; "rk2"; "rk3"] → ∃ rks, stage_coefficients ti s = (Ok rks, s).
Proof. intros Hti. destruct (stage_coefficients_run ti s Hti) as (rks & E & _). eauto. Qed.
End driver_errors.

(** X7: an [exec_mode] other than [cpu] and [gpu] leaves [xp] at [None].  The
    forward-Euler per-zone branch never uses [xp] and runs as it does for
    [cpu]; every other valid configuration fails with an [AttributeError]
    at its first [xp.empty_like], before any kernel is launched and with
    every array of the caller unchanged. *)
Theorem update_prim_unknown_exec_mode {euler : lib_euler 1} {mem : memory}
    (s : state array) p P dt dx fluxing reconstruction plm_theta time_integration exec_mode :
  arrays s !! p = Some P → exec_mode ∉ ["cpu"; "gpu"] →
  fluxing ∈ ["per_face"; "per_zone"] → reconstruction ∈ ["pcm"; "plm"] →
  time_integration ∈ ["fwd"; "rk1"; "rk2"; "rk3"] →
  if decide (fluxing = "per_zone" ∧ time_integration = "fwd") then
    update_prim p dt dx fluxing reconstruction plm_theta time_integration exec_mode s
    = update_prim p dt dx fluxing reconstruction plm_theta time_integration "cpu" s
  else
    ∃ msg s',
      update_prim p dt dx fluxing reconstruction plm_theta time_integration exec_mode s
      = (Raise (AttributeError msg), s') ∧
      launched s' = launched s ∧
      ∀ l, is_Some (arrays s !! l) → arrays s' !! l = arrays s !! l.
Proof.
  intros Hp Hexec Hfl Hre Hti. case_decide as Hcase.
  - destruct Hcase as [-> ->]. by rewrite !(update_prim_per_zone_fwd s p P).
  - destruct (stage_coefficients_ok (A:=array) time_integration s Hti) as [rks Hrks].
    pose proof (numpy_or_cupy_None exec_mode Hexec) as Hxp.
    rewrite !elem_of_cons, elem_of_nil in Hfl. destruct Hfl as [-> | [-> | []]].
    + eexists _, s. split; [|done].
      unfold update_prim. rewrite Hxp. mrun ltac:(exact Hrks).
      rewrite decide_True by done.
      mrun ltac:(by apply get_run). mrun ltac:(reflexivity).
      reflexivity.
    + assert (time_integration ≠ "fwd") as Hfwd by tauto.
      eexists _, _. split.
      * unfold update_prim. rewrite Hxp. mrun ltac:(exact Hrks).
        rewrite decide_False by done. rewrite decide_True by done.
        mrun ltac:(by apply get_run). mrun ltac:(reflexivity).
        mrun ltac:(by apply copy_run).
        rewrite decide_False by done. reflexivity.
      * split; [done|]. intros l Hl. cbn.
        rewrite lookup_insert_ne; [done|]. by apply not_eq_sym, fresh_loc_ne.
Qed.

Lemma update_prim_unknown_exec_mode_witness :
  arrays shocktube_state !! 5 = Some shocktube ∧ ("tpu" ∉ ["cpu"; "gpu"]) ∧
  "per_face" ∈ ["per_face"; "per_zone"] ∧ "pcm" ∈ ["pcm"; "plm"] ∧
  "fwd" ∈ ["fwd"; "rk1"; "rk2"; "rk3"] ∧
  ∃ msg s',
    update_prim (euler:=ideal_gas) (mem:=sevens) 5 c0_25 1%Qc "per_face" "pcm" 1%Qc "fwd"
      "tpu" shocktube_state = (Raise (AttributeError msg), s') ∧
    launched s' = launched shocktube_state ∧
    ∀ l, is_Some (arrays shocktube_state !! l) → arrays s' !! l = arrays shocktube_state !! l.
Proof.
  assert (H1 : arrays shocktube_state !! 5 = Some shocktube) by reflexivity.
  assert (H2 : "tpu" ∉ ["cpu"; "gpu"]).
  { intros H. apply elem_of_cons in H as [H|H]; [discriminate H|].
    apply elem_of_cons in H as [H|H]; [discriminate H|]. by apply elem_of_nil in H. }
  assert (H3 : "per_face" ∈ ["per_face"; "per_zone"]) by (vm_compute; constructor).
  assert (H4 : "pcm" ∈ ["pcm"; "plm"]) by (vm_compute; constructor).
  assert (H5 : "fwd" ∈ ["fwd"; "rk1"; "rk2"; "rk3"]) by (vm_compute; constructor).
  split; [exact H1|]. split; [exact H2|]. split; [exact H3|]. split; [exact H4|].
  split; [exact H5|].
  exact (update_prim_unknown_exec_mode (euler:=ideal_gas) (mem:=sevens) shocktube_state 5
           shocktube c0_25 1%Qc "per_face" "pcm" 1%Qc "fwd" "tpu" H1 H2 H3 H4 H5).
Defined.

(** X8: the order in which the drivers reject a configuration.  Once
    [time_integration] is valid, [update_prim] raises a [ValueError] for a
    fluxing other than [per_face] and [per_zone], whatever the
    reconstruction is, and for a valid fluxing with a reconstruction other
    than [pcm] and [plm]; [update_prim2d] raises one for such a
    reconstruction.  In each case the state is the state of the call. *)
Theorem update_prim_rejects_fluxing_then_reconstruction
    {euler : lib_euler 1} {euler2 : lib_euler 2} {mem : memory}
    (s : state array) (s2 : state array2) p dt dx fluxing reconstruction plm_theta
    time_integration exec_mode :
  time_integration ∈ ["fwd"; "rk1"; "rk2"; "rk3"] →
  (fluxing ∉ ["per_face"; "per_zone"] →
   update_prim p dt dx fluxing reconstruction plm_theta time_integration exec_mode s
   = (Raise (ValueError ("unknown fluxing " +:+ fluxing)), s)) ∧
  (reconstruction ∉ ["pcm"; "plm"] →
   (fluxing ∈ ["per_face"; "per_zone"] →
    update_prim p dt dx fluxing reconstruction plm_theta time_integration exec_mode s
    = (Raise (ValueError ("no solver config " +:+ time_integration +:+ "/"
                          +:+ reconstruction)), s)) ∧
   update_prim2d p dt dx "per_zone" reconstruction plm_theta time_integration exec_mode s2
   = (Raise (ValueError ("no solver config " +:+ time_integration +:+ "/"
                         +:+ reconstruction)), s2)).
Proof.
  intros Hti. split; [intros Hfl; by apply update_prim_unknown_fluxing|].
  intros Hre. split; [intros Hfl; by apply update_prim_bad_reconstruction|].
  destruct (stage_coefficients_ok (A:=array2) time_integration s2 Hti) as [rks Hrks].
  unfold update_prim2d. mrun ltac:(exact Hrks).
  rewrite decide_False by (intros N; by apply N).
  by erewrite bind_raise by by apply get_raise.
Qed.

Lemma update_prim_rejects_fluxing_then_reconstruction_witness :
  "rk2" ∈ ["fwd"; "rk1"; "rk2"; "rk3"] ∧
  update_prim (euler:=ideal_gas) (mem:=sevens) 5 c0_25 1%Qc "per_edge" "weno" 1%Qc "rk2"
    "cpu" shocktube_state
  = (Raise (ValueError "unknown fluxing per_edge"), shocktube_state).
Proof.
  assert (H1 : "rk2" ∈ ["fwd"; "rk1"; "rk2"; "rk3"]) by (vm_compute; repeat constructor).
  split; [exact H1|].
  refine (proj1 (update_prim_rejects_fluxing_then_reconstruction (euler:=ideal_gas)
                   (euler2:=still_gas) (mem:=sevens) shocktube_state empty_state2 5 c0_25
                   1%Qc "per_edge" "weno" 1%Qc "rk2" "cpu" H1) _).
  intros H. apply elem_of_cons in H as [H|H]; [discriminate H|].
  apply elem_of_cons in H as [H|H]; [discriminate H|]. by apply elem_of_nil in H.
Defined.

Section stage_properties.
Context {euler : lib_euler 1}.

Lemma plm_minmod_theta_0 yl yc yr : plm_minmod yl yc yr 0%Qc = 0%Qc.
Proof.
  unfold plm_minmod. cbv zeta. rewrite !Qcmult_0_r.
  rewrite minabs_0 by auto. apply Qcmult_0_r.
Qed.

Lemma Qc_half_0_r x : (x + c0_5 * 0 = x)%Qc.
Proof. ring. Qed.

Lemma Qc_half_0_l x : (x - c0_5 * 0 = x)%Qc.
Proof. ring. Qed.

(** With [plm_theta = 0] the linear reconstruction has zero slopes: a kernel
    compiled with [PLM == 1] computes the face states of one compiled with
    [PLM == 0]. *)
Lemma zone_stage_plm_theta_0 s1 s2 U dt dx θ X rk :
  runge_kutta s1 = runge_kutta s2 → plm s2 = false →
  zone_stage s1 U dt dx 0%Qc X rk = zone_stage s2 U dt dx θ X rk.
Proof.
  intros Hrk H2.
  unfold zone_stage. apply imap_ext. intros c pc _. case_decide; [|done].
  unfold stage_cell. rewrite Hrk.
  assert (zone_flux_minus s1 0%Qc X c = zone_flux_minus s2 θ X c) as ->.
  { unfold zone_flux_minus, FluxPerZoneSolver.plp, FluxPerZoneSolver.pcm.
    rewrite H2. destruct (plm s1); [|done].
    f_equal; apply for_q_ext; intros q; cbv zeta; rewrite plm_minmod_theta_0;
      [apply Qc_half_0_r | apply Qc_half_0_l]. }
  assert (zone_flux_plus s1 0%Qc X c = zone_flux_plus s2 θ X c) as ->.
  { unfold zone_flux_plus, FluxPerZoneSolver.pcp, FluxPerZoneSolver.prm.
    rewrite H2. destruct (plm s1); [|done].
    f_equal; apply for_q_ext; intros q; cbv zeta; rewrite plm_minmod_theta_0;
      [apply Qc_half_0_r | apply Qc_half_0_l]. }
  done.
Qed.

Lemma zone_stages_plm_theta_0 s1 s2 U dt dx θ rks X :
  runge_kutta s1 = runge_kutta s2 → plm s2 = false →
  foldl (zone_stage s1 U dt dx 0%Qc) X rks = foldl (zone_stage s2 U dt dx θ) X rks.
Proof.
  intros Hrk H2. revert X. induction rks as [|rk rks IH]; intros X; [done|].
  cbn [foldl]. rewrite (zone_stage_plm_theta_0 s1 s2 U dt dx θ X rk Hrk H2). apply IH.
Qed.
End stage_properties.

(** X9: with [plm_theta = 0] the [plm] reconstruction degenerates to [pcm]:
    on every valid configuration [update_prim] with reconstruction [plm]
    and [plm_theta = 0] returns the values it returns with reconstruction
    [pcm], whatever [plm_theta] the latter is given. *)
Theorem update_prim_plm_theta_0 {euler : lib_euler 1} {mem : memory}
    (s : state array) p P dt dx fluxing plm_theta time_integration exec_mode :
  arrays s !! p = Some P →
  fluxing ∈ ["per_face"; "per_zone"] → exec_mode ∈ ["cpu"; "gpu"] →
  time_integration ∈ ["fwd"; "rk1"; "rk2"; "rk3"] →
  ∃ r s1 s2 R,
    update_prim p dt dx fluxing "plm" 0%Qc time_integration exec_mode s = (Ok r, s1) ∧
    update_prim p dt dx fluxing "pcm" plm_theta time_integration exec_mode s = (Ok r, s2) ∧
    arrays s1 !! r = Some R ∧ arrays s2 !! r = Some R.
Proof.
  intros Hp Hfl Hexec Hti.
  destruct (update_prim_run s p P dt dx fluxing "plm" 0%Qc time_integration exec_mode)
    as (r1 & s1 & Hrun1 & Hres1 & Hr1 & _); [done | done | rewrite !elem_of_cons; auto | done | done |].
  destruct (update_prim_run s p P dt dx fluxing "pcm" plm_theta time_integration exec_mode)
    as (r2 & s2 & Hrun2 & Hres2 & Hr2 & _); [done | done | rewrite !elem_of_cons; auto | done | done |].
  assert (r2 = r1) as -> by congruence.
  eexists r1, s1, s2, _. split; [exact Hrun1|]. split; [exact Hrun2|].
  split; [exact Hres1|]. rewrite Hres2. apply (f_equal Some). symmetry.
  by apply zone_stages_plm_theta_0.
Qed.

Lemma update_prim_plm_theta_0_witness :
  arrays shocktube_state !! 5 = Some shocktube ∧
  "per_zone" ∈ ["per_face"; "per_zone"] ∧ "cpu" ∈ ["cpu"; "gpu"] ∧
  "rk2" ∈ ["fwd"; "rk1"; "rk2"; "rk3"] ∧
  ∃ r s1 s2 R,
    update_prim (euler:=ideal_gas) (mem:=sevens) 5 c0_25 1%Qc "per_zone" "plm" 0%Qc "rk2"
      "cpu" shocktube_state = (Ok r, s1) ∧
    update_prim (euler:=ideal_gas) (mem:=sevens) 5 c0_25 1%Qc "per_zone" "pcm" (Q2Qc 2) "rk2"
      "cpu" shocktube_state = (Ok r, s2) ∧
    arrays s1 !! r = Some R ∧ arrays s2 !! r = Some R.
Proof.
  assert (H1 : arrays shocktube_state !! 5 = Some shocktube) by reflexivity.
  assert (H2 : "per_zone" ∈ ["per_face"; "per_zone"]) by (vm_compute; repeat constructor).
  assert (H3 : "cpu" ∈ ["cpu"; "gpu"]) by (vm_compute; constructor).
  assert (H4 : "rk2" ∈ ["fwd"; "rk1"; "rk2"; "rk3"]) by (vm_compute; repeat constructor).
  split; [exact H1|]. split; [exact H2|]. split; [exact H3|]. split; [exact H4|].
  exact (update_prim_plm_theta_0 (euler:=ideal_gas) (mem:=sevens) shocktube_state 5
           shocktube c0_25 1%Qc "per_zone" (Q2Qc 2) "rk2" "cpu" H1 H2 H3 H4).
Defined.

Section uniform.
Context {euler : lib_euler 1}.

Lemma for_q_at_q n (x : cell n) : for_q n (λ q, at_q x q) = x.
Proof. apply vec_eq. intros q. unfold for_q, at_q. by rewrite lookup_fun_to_vec. Qed.

Lemma plm_minmod_diag y θ : plm_minmod y y y θ = 0%Qc.
Proof.
  unfold plm_minmod. cbv zeta. replace ((y - y) * θ)%Qc with 0%Qc by ring.
  rewrite minabs_0 by auto. apply Qcmult_0_r.
Qed.

Lemma at_i_replicate {n} (x : cell n) m i : i < m → at_i (replicate m x) i = x.
Proof. intros Hi. unfold at_i. by apply lookup_total_replicate_2. Qed.

Lemma flux_difference_same u f dt dx : flux_difference u f f dt dx = u.
Proof.
  unfold flux_difference. etrans; [|apply (for_q_at_q _ u)].
  apply (for_q_ext 3). intros q. unfold Qcdiv. ring.
Qed.

Lemma blend_same alpha u : blend alpha u u = u.
Proof.
  unfold blend. etrans; [|apply (for_q_at_q _ u)].
  apply (for_q_ext 3). intros q. ring.
Qed.

Lemma zone_stage_uniform self dt dx θ m p0 rk :
  cons_to_prim (prim_to_cons p0) = p0 →
  zone_stage self (prim_to_cons <$> replicate m p0) dt dx θ (replicate m p0) rk
  = replicate m p0.
Proof.
  intros Hround. unfold zone_stage. apply list_eq. intros c.
  rewrite list_lookup_imap. destruct (replicate m p0 !! c) as [pc|] eqn:Hc; [|done].
  apply lookup_replicate in Hc as [-> Hlt]. cbn. f_equal.
  case_decide as Hint; [|done]. rewrite length_replicate in Hint. unfold interior in Hint.
  unfold stage_cell.
  assert (zone_flux_minus self θ (replicate m p0) c = riemann_hlle p0 p0 1) as ->.
  { unfold zone_flux_minus, FluxPerZoneSolver.plp, FluxPerZoneSolver.pcm.
    rewrite !at_i_replicate by lia.
    destruct (plm self); cbv zeta; [|by rewrite for_q_at_q].
    f_equal; (etrans; [|apply (for_q_at_q _ p0)]); apply for_q_ext; intros q;
      rewrite plm_minmod_diag; ring. }
  assert (zone_flux_plus self θ (replicate m p0) c = riemann_hlle p0 p0 1) as ->.
  { unfold zone_flux_plus, FluxPerZoneSolver.pcp, FluxPerZoneSolver.prm.
    rewrite !at_i_replicate by lia.
    destruct (plm self); cbv zeta; [|by rewrite for_q_at_q].
    f_equal; (etrans; [|apply (for_q_at_q _ p0)]); apply for_q_ext; intros q;
      rewrite plm_minmod_diag; ring. }
  rewrite flux_difference_same. rewrite fmap_replicate, at_i_replicate by lia.
  rewrite blend_same. by destruct (runge_kutta self).
Qed.

Lemma zone_stages_uniform self dt dx θ m p0 rks :
  cons_to_prim (prim_to_cons p0) = p0 →
  foldl (zone_stage self (prim_to_cons <$> replicate m p0) dt dx θ) (replicate m p0) rks
  = replicate m p0.
Proof.
  intros Hround. induction rks as [|rk rks IH]; [done|].
  cbn [foldl]. by rewrite zone_stage_uniform.
Qed.
End uniform.

(** X10: a uniform state is a fixed point of a first-order step.  If every
    cell of the input holds the same primitive state [p0], the conversion to
    conserved variables and back returns [p0], and [dx] is not zero, then
    with [time_integration] [fwd] or [rk1], and every valid fluxing,
    reconstruction and [exec_mode], [update_prim] returns an array holding
    [p0] in every cell: the two fluxes of a cell are equal, so that their
    difference is zero, and the blend of [rk1] has the coefficient 0. *)
Theorem update_prim_uniform_state {euler : lib_euler 1} {mem : memory}
    (s : state array) p ni p0 dt dx fluxing reconstruction plm_theta time_integration
    exec_mode :
  arrays s !! p = Some (replicate ni p0) →
  cons_to_prim (prim_to_cons p0) = p0 → dx ≠ 0%Qc →
  fluxing ∈ ["per_face"; "per_zone"] → reconstruction ∈ ["pcm"; "plm"] →
  exec_mode ∈ ["cpu"; "gpu"] → time_integration ∈ ["fwd"; "rk1"] →
  ∃ r s',
    update_prim p dt dx fluxing reconstruction plm_theta time_integration exec_mode s
    = (Ok r, s') ∧
    arrays s' !! r = Some (replicate ni p0).
Proof.
  intros Hp Hround Hdx Hfl Hre Hexec Hti.
  destruct (update_prim_run s p (replicate ni p0) dt dx fluxing reconstruction plm_theta
              time_integration exec_mode) as (r & s' & Hrun & Hres & _); [done..| |].
  { rewrite !elem_of_cons in Hti. rewrite !elem_of_cons. tauto. }
  exists r, s'. split; [exact Hrun|]. rewrite Hres. by rewrite zone_stages_uniform.
Qed.

Lemma update_prim_uniform_state_witness :
  ∃ r s',
    update_prim (euler:=ideal_gas) (mem:=sevens) 5 c0_25 1%Qc "per_face" "plm" (Q2Qc 2)
      "rk1" "cpu" still_tube = (Ok r, s') ∧
    arrays s' !! r = Some (replicate 6 left_state).
Proof.
  assert (H1 : arrays still_tube !! 5 = Some (replicate 6 left_state)) by reflexivity.
  assert (H2 : ideal_gas_cons_to_prim (ideal_gas_prim_to_cons left_state) = left_state)
    by (apply (bool_decide_unpack _); vm_compute; exact I).
  assert (H0 : 1%Qc ≠ 0%Qc) by (intros E; discriminate E).
  assert (H3 : "per_face" ∈ ["per_face"; "per_zone"]) by (vm_compute; constructor).
  assert (H4 : "plm" ∈ ["pcm"; "plm"]) by (vm_compute; repeat constructor).
  assert (H5 : "cpu" ∈ ["cpu"; "gpu"]) by (vm_compute; constructor).
  assert (H6 : "rk1" ∈ ["fwd"; "rk1"]) by (vm_compute; repeat constructor).
  exact (update_prim_uniform_state (euler:=ideal_gas) (mem:=sevens) still_tube 5 6
           left_state c0_25 1%Qc "per_face" "plm" (Q2Qc 2) "rk1" "cpu"
           H1 H2 H0 H3 H4 H5 H6).
Defined.

(** ** Patch geometry *)

Section geometry.
Local Open Scope Qc_scope.

Lemma Qc_of_Z_add a b : Qc_of_Z (a + b) = Qc_of_Z a + Qc_of_Z b.
Proof.
  apply Qc_is_canon. unfold Qc_of_Z. cbn [this Qcplus Q2Qc].
  rewrite !Qred_correct. by rewrite inject_Z_plus.
Qed.

Lemma Qc_of_Z_0 : Qc_of_Z 0 = 0.
Proof. by apply Qc_is_canon. Qed.

Lemma Qc_of_Z_1 : Qc_of_Z 1 = 1.
Proof. by apply Qc_is_canon. Qed.

Lemma Qc_of_Z_pos a : (0 < a)%Z → 0 < Qc_of_Z a.
Proof. intros Ha. unfold Qc_of_Z, Qclt. cbn [this Q2Qc]. by rewrite <- (Zlt_Qlt 0). Qed.

Lemma Qcinv_pos a : 0 < a → 0 < / a.
Proof.
  intros Ha. destruct (Qclt_le_dec 0 (/ a)) as [|Hle]; [done|]. exfalso.
  assert (a ≠ 0) as Hne by (intros ->; by apply (Qclt_not_eq _ _ Ha)).
  pose proof (Qcmult_le_compat_r _ _ a Hle (Qclt_le_weak _ _ Ha)) as H.
  rewrite Qcmult_0_l, Qcmult_comm, Qcmult_inv_r in H by done.
  by apply (Qcle_not_lt _ _ H).
Qed.

Lemma float_of_int_ok n : fits_float n → float_of_int n = inr (Qc_of_Z n).
Proof. intros Hn. unfold float_of_int. by rewrite decide_True. Qed.

Lemma float_of_int_overflow n : ¬ fits_float n → float_of_int n = inl OverflowError.
Proof. intros Hn. unfold float_of_int. by rewrite decide_False. Qed.

Lemma float_div_int_ok x n :
  n ≠ 0%Z → fits_float n → float_div_int x n = inr (x / Qc_of_Z n).
Proof.
  intros Hn Hf. unfold float_div_int. rewrite float_of_int_ok by done. cbn.
  by rewrite decide_False.
Qed.

Lemma float_div_int_0 x : float_div_int x 0 = inl ZeroDivisionError.
Proof. reflexivity. Qed.

Lemma float_div_int_overflow x n : ¬ fits_float n → float_div_int x n = inl OverflowError.
Proof. intros Hf. unfold float_div_int. by rewrite float_of_int_overflow. Qed.

Lemma int_mul_float_ok n x : fits_float n → int_mul_float n x = inr (Qc_of_Z n * x).
Proof. intros Hf. unfold int_mul_float. by rewrite float_of_int_ok. Qed.

Lemma shift_1_ok level : (0 ≤ level)%Z → shift_1 level = inr (2 ^ level)%Z.
Proof.
  intros Hl. unfold shift_1. rewrite decide_False by lia.
  by rewrite Z.shiftl_1_l.
Qed.

Lemma shift_1_negative level : (level < 0)%Z → shift_1 level = inl NegativeShiftCount.
Proof. intros Hl. unfold shift_1. by rewrite decide_True. Qed.

Lemma pow2_ne_0 level : (0 ≤ level)%Z → (2 ^ level ≠ 0)%Z.
Proof. intros Hl. apply Z.pow_nonzero; lia. Qed.

Lemma pow2_fits level : (0 ≤ level < 1024)%Z → fits_float (2 ^ level).
Proof.
  intros Hl. unfold fits_float.
  assert (0 < 2 ^ level)%Z by (apply Z.pow_pos_nonneg; lia).
  assert (2 ^ level ≤ 2 ^ 1023)%Z by (apply Z.pow_le_mono_r; lia).
  assert (2 ^ 1023 < 2 ^ 1024 - 2 ^ 970)%Z by reflexivity.
  rewrite Z.abs_eq by lia. lia.
Qed.

Lemma pow2_overflows level : (1024 ≤ level)%Z → ¬ fits_float (2 ^ level).
Proof.
  intros Hl. unfold fits_float.
  assert (2 ^ 1024 ≤ 2 ^ level)%Z by (apply Z.pow_le_mono_r; lia).
  assert (2 ^ 1024 - 2 ^ 970 ≤ 2 ^ 1024)%Z by (intros E; discriminate E).
  assert (0 < 2 ^ level)%Z by (apply Z.pow_pos_nonneg; lia).
  rewrite Z.abs_eq by lia. lia.
Qed.

Lemma patch_extent_ok level i j nz np :
  np ≠ 0%Z → fits_float np → (0 ≤ level < 1024)%Z →
  fits_float i → fits_float (i + 1) → fits_float j → fits_float (j + 1) →
  patch_extent (level, (i, j)) nz np
  = inr ((patch_edge np level i, patch_edge np level (i + 1)),
         (patch_edge np level j, patch_edge np level (j + 1))).
Proof.
  intros Hnp Hfnp Hl Hi Hi1 Hj Hj1. unfold patch_extent. cbn.
  rewrite !(float_div_int_ok _ np) by done. cbn.
  rewrite !shift_1_ok by lia. cbn.
  rewrite !float_div_int_ok by ((apply pow2_ne_0; lia) || by apply pow2_fits). cbn.
  rewrite !Z.add_0_r. rewrite !int_mul_float_ok by done. done.
Qed.

Lemma patch_spacing_ok level i j nz np :
  np ≠ 0%Z → fits_float np → nz ≠ 0%Z → fits_float nz → (0 ≤ level < 1024)%Z →
  patch_spacing (level, (i, j)) nz np
  = inr (1 / Qc_of_Z np / Qc_of_Z nz / Qc_of_Z (2 ^ level),
         1 / Qc_of_Z np / Qc_of_Z nz / Qc_of_Z (2 ^ level)).
Proof.
  intros Hnp Hfnp Hnz Hfnz Hl. unfold patch_spacing. cbn.
  rewrite !(float_div_int_ok _ np) by done. cbn.
  rewrite !(float_div_int_ok _ nz) by done. cbn.
  rewrite !shift_1_ok by lia. cbn.
  by rewrite !float_div_int_ok by ((apply pow2_ne_0; lia) || by apply pow2_fits).
Qed.

Lemma patch_edge_step np level i :
  (0 < np)%Z → (0 ≤ level)%Z → patch_edge np level i <= patch_edge np level (i + 1).
Proof.
  intros Hnp Hl. unfold patch_edge.
  set (dx := 1 / Qc_of_Z np / Qc_of_Z (2 ^ level)).
  assert (0 < dx) as Hdx.
  { unfold dx, Qcdiv. rewrite Qcmult_1_l.
    pose proof (Qcinv_pos _ (Qc_of_Z_pos np Hnp)) as H1.
    pose proof (Qcinv_pos _ (Qc_of_Z_pos (2 ^ level) ltac:(apply Z.pow_pos_nonneg; lia))) as H2.
    pose proof (Qcmult_lt_compat_r _ _ _ H2 H1) as H. by rewrite Qcmult_0_l in H. }
  rewrite Qc_of_Z_add, Qc_of_Z_1.
  assert (- c0_5 + (Qc_of_Z i + 1) * dx = - c0_5 + Qc_of_Z i * dx + dx) as -> by ring.
  generalize (- c0_5 + Qc_of_Z i * dx). intros y. clearbody dx. qc_order.
Qed.
End geometry.

(** X12: the patches of a refinement level share one sequence of edges.
    For [np != 0] and [0 <= level < 1024] there is a sequence [x] of edge
    positions such that every patch [(i, j)] spans
    [[x i, x (i + 1)] x [x j, x (j + 1)]]: the upper edge of a patch and the
    lower edge of the next one are the value of one expression, so
    neighbours share their edge exactly.  The edge 0 is at [-1/2], and for
    [np > 0] the edges are in order.  ([np] and the indices are integers
    that convert to a float.) *)
Theorem patch_extent_tiles (level nz np : Z) :
  np ≠ 0%Z → fits_float np → (0 ≤ level < 1024)%Z →
  ∃ x : Z → Qc,
    (∀ i j, fits_float i → fits_float (i + 1) → fits_float j → fits_float (j + 1) →
       patch_extent (level, (i, j)) nz np
       = inr ((x i, x (i + 1)%Z), (x j, x (j + 1)%Z))) ∧
    x 0%Z = (- c0_5)%Qc ∧
    ((0 < np)%Z → ∀ i, (x i <= x (i + 1)%Z)%Qc).
Proof.
  intros Hnp Hfnp Hl. exists (patch_edge np level).
  split; [intros i j Hi Hi1 Hj Hj1; by apply patch_extent_ok|].
  split.
  - unfold patch_edge. rewrite Qc_of_Z_0. ring.
  - intros Hpos i. apply patch_edge_step; lia.
Qed.

Lemma patch_extent_tiles_witness :
  ∃ x : Z → Qc,
    (∀ i j, fits_float i → fits_float (i + 1) → fits_float j → fits_float (j + 1) →
       patch_extent (1%Z, (i, j)) 8 3 = inr ((x i, x (i + 1)%Z), (x j, x (j + 1)%Z))) ∧
    x 0%Z = (- c0_5)%Qc ∧
    ((0 < 3)%Z → ∀ i, (x i <= x (i + 1)%Z)%Qc).
Proof.
  assert (H1 : 3%Z ≠ 0%Z) by lia.
  assert (H2 : fits_float 3) by reflexivity.
  assert (H3 : (0 ≤ 1 < 1024)%Z) by lia.
  exact (patch_extent_tiles 1 8 3 H1 H2 H3).
Defined.

(** X14: what the patch geometry raises.  [1.0 / np] comes first: [np = 0]
    is a division by zero in both functions, and an [np] too large for a
    float an OverflowError.  Then [patch_spacing] divides by [nz], with the
    same two errors, which [patch_extent], never reading [nz], does not
    have.  Then the shift [1 << level] fails for a negative [level], and
    the division by its result overflows from [level = 1024] on.  At last
    [patch_extent] converts [i], [i + 1], [j] and [j + 1], and overflows
    if one of them is too large.  In every other case both return. *)
Theorem patch_geometry_errors (level i j nz np : Z) :
  (np = 0%Z →
   patch_spacing (level, (i, j)) nz np = inl ZeroDivisionError ∧
   patch_extent (level, (i, j)) nz np = inl ZeroDivisionError) ∧
  (¬ fits_float np →
   patch_spacing (level, (i, j)) nz np = inl OverflowError ∧
   patch_extent (level, (i, j)) nz np = inl OverflowError) ∧
  (np ≠ 0%Z → fits_float np →
   (nz = 0%Z → patch_spacing (level, (i, j)) nz np = inl ZeroDivisionError) ∧
   (¬ fits_float nz → patch_spacing (level, (i, j)) nz np = inl OverflowError) ∧
   ((level < 0)%Z →
    (nz ≠ 0%Z → fits_float nz →
     patch_spacing (level, (i, j)) nz np = inl NegativeShiftCount) ∧
    patch_extent (level, (i, j)) nz np = inl NegativeShiftCount) ∧
   ((1024 ≤ level < 2 ^ 31)%Z →
    (nz ≠ 0%Z → fits_float nz →
     patch_spacing (level, (i, j)) nz np = inl OverflowError) ∧
    patch_extent (level, (i, j)) nz np = inl OverflowError) ∧
   ((0 ≤ level < 1024)%Z →
    (nz ≠ 0%Z → fits_float nz → ∃ d, patch_spacing (level, (i, j)) nz np = inr d) ∧
    (fits_float i ∧ fits_float (i + 1) ∧ fits_float j ∧ fits_float (j + 1) →
     ∃ e, patch_extent (level, (i, j)) nz np = inr e) ∧
    (¬ (fits_float i ∧ fits_float (i + 1) ∧ fits_float j ∧ fits_float (j + 1)) →
     patch_extent (level, (i, j)) nz np = inl OverflowError))).
Proof.
  split; [|split].
  - intros ->. done.
  - intros Hnp. unfold patch_spacing, patch_extent. cbn.
    by rewrite !float_div_int_overflow.
  - intros Hnp Hfnp.
    assert (∀ T (k : Qc → geometry_error + T),
              float_div_int 1 np ≫= k = k (1 / Qc_of_Z np)%Qc) as Enp.
    { intros T k. by rewrite float_div_int_ok. }
    split; [|split; [|split; [|split]]].
    + intros ->. unfold patch_spacing. cbn. rewrite Enp. by rewrite float_div_int_0.
    + intros Hnz. unfold patch_spacing. cbn. rewrite Enp.
      by rewrite (float_div_int_overflow _ nz).
    + intros Hl. split.
      * intros Hnz Hfnz. unfold patch_spacing. cbn. rewrite Enp.
        rewrite (float_div_int_ok _ nz) by done. cbn.
        by rewrite shift_1_negative.
      * unfold patch_extent. cbn. rewrite Enp. by rewrite shift_1_negative.
    + intros Hl. split.
      * intros Hnz Hfnz. unfold patch_spacing. cbn. rewrite Enp.
        rewrite (float_div_int_ok _ nz) by done. cbn.
        rewrite shift_1_ok by lia. cbn.
        rewrite (float_div_int_overflow _ (2 ^ level)); [done|]. apply pow2_overflows. lia.
      * unfold patch_extent. cbn. rewrite Enp. rewrite shift_1_ok by lia. cbn.
        rewrite (float_div_int_overflow _ (2 ^ level)); [done|]. apply pow2_overflows. lia.
    + intros Hl. split; [|split].
      * intros Hnz Hfnz. rewrite patch_spacing_ok by done. eauto.
      * intros (Hi & Hi1 & Hj & Hj1). rewrite patch_extent_ok by done. eauto.
      * intros Hbad. unfold patch_extent. cbn.
        rewrite !(float_div_int_ok _ np) by done. cbn.
        rewrite !shift_1_ok by lia. cbn.
        rewrite !(float_div_int_ok _ (2 ^ level))
          by ((apply pow2_ne_0; lia) || by apply pow2_fits). cbn.
        rewrite !Z.add_0_r. unfold int_mul_float, float_of_int.
        repeat case_decide; try done. destruct Hbad. done.
Qed.

Lemma patch_geometry_errors_witness :
  patch_spacing (0%Z, (0%Z, 0%Z)) 8 0 = inl ZeroDivisionError ∧
  patch_extent (0%Z, (0%Z, 0%Z)) 8 0 = inl ZeroDivisionError ∧
  patch_spacing (1024%Z, (0%Z, 0%Z)) 8 3 = inl OverflowError ∧
  patch_extent (1024%Z, (0%Z, 0%Z)) 8 3 = inl OverflowError ∧
  patch_extent ((-1)%Z, (0%Z, 0%Z)) 0 3 = inl NegativeShiftCount.
Proof.
  assert (H1 : 3%Z ≠ 0%Z) by lia.
  assert (H2 : fits_float 3) by reflexivity.
  assert (H3 : 8%Z ≠ 0%Z) by lia.
  assert (H4 : fits_float 8) by reflexivity.
  assert (H5 : (1024 ≤ 1024 < 2 ^ 31)%Z) by (split; [lia|reflexivity]).
  assert (H6 : (-1 < 0)%Z) by lia.
  destruct (proj1 (patch_geometry_errors 0 0 0 8 0) eq_refl) as [E1 E2].
  destruct (proj2 (proj2 (patch_geometry_errors 1024 0 0 8 3)) H1 H2)
    as (_ & _ & _ & Hbig & _).
  destruct (proj2 (proj2 (patch_geometry_errors (-1) 0 0 0 3)) H1 H2)
    as (_ & _ & Hneg & _).
  split; [exact E1|]. split; [exact E2|].
  split; [exact (proj1 (Hbig H5) H3 H4)|]. split; [exact (proj2 (Hbig H5))|].
  exact (proj2 (Hneg H6)).
Defined.

Section centers.
Local Open Scope Qc_scope.


End centers.



(** ** More on the SRHD patches and solver *)

Section patch_runs.
Context {lib : Library}.

(** One call of [Patch.advance_rk], in full. *)
Lemma patch_advance_rk_run (self : Patch.t) (s : state patch_array) rk_param dt C0 P1 C1 C2 :
  NoDup [Patch.primitive1 self; Patch.conserved0 self;
         Patch.conserved1 self; Patch.conserved2 self] →
  arrays s !! Patch.conserved0 self = Some C0 →
  arrays s !! Patch.primitive1 self = Some P1 →
  arrays s !! Patch.conserved1 self = Some C1 →
  arrays s !! Patch.conserved2 self = Some C2 →
  let P1' := srhd_1d_conserved_to_primitive (Patch.num_zones self) (Patch.faces self)
               C1 P1 (Patch.scale_factor self) (Patch.coordinates self) in
  let C2' := srhd_1d_advance_rk (Patch.num_zones self) (Patch.faces self)
               C0 P1' C1 C2 (Patch.scale_factor_initial self)
               (Patch.scale_factor_derivative self) (Patch.time self) rk_param dt
               (Patch.coordinates self) in
  Patch.advance_rk self rk_param dt s
  = (Ok (Patch.Make (Patch.num_zones self) (Patch.faces self) (Patch.coordinates self)
           (Patch.scale_factor_initial self) (Patch.scale_factor_derivative self)
           (Patch.time0 self * rk_param + (Patch.time0 self + dt) * (1 - rk_param))%Qc
           (Patch.time0 self) (Patch.primitive1 self) (Patch.conserved0 self)
           (Patch.conserved2 self) (Patch.conserved1 self)),
     State (<[Patch.conserved2 self := C2']> (<[Patch.primitive1 self := P1']> (arrays s)))
       (launched s ++
          [srhd_1d_conserved_to_primitive_launch
             (Patch.conserved1 self) (Patch.primitive1 self) (Patch.scale_factor self);
           srhd_1d_advance_rk_launch (Patch.conserved0 self) (Patch.primitive1 self)
             (Patch.conserved1 self) (Patch.conserved2 self)
             (Patch.scale_factor_initial self) (Patch.scale_factor_derivative self)
             (Patch.time self) rk_param dt])).
Proof.
  intros Hnd H0 Hp1 H1 H2 P1' C2'.
  rewrite !NoDup_cons, !not_elem_of_cons in Hnd.
  destruct Hnd as ((? & ? & ? & _) & (? & ? & _) & (? & _) & _).
  unfold Patch.advance_rk, Patch.recompute_primitive.
  mrun ltac:(mrun ltac:(by apply read_ok); mrun ltac:(by apply read_ok); reflexivity).
  mrun ltac:(apply read_ok; cbn; by rewrite lookup_insert_ne).
  mrun ltac:(apply read_ok; cbn; by rewrite lookup_insert_eq).
  mrun ltac:(apply read_ok; cbn; by rewrite lookup_insert_ne).
  mrun ltac:(apply read_ok; cbn; by rewrite lookup_insert_ne).
  unfold mbind, M_bind, mret, M_ret, launching, write. cbn [arrays launched].
  rewrite <- app_assoc. reflexivity.
Qed.

Lemma set_slice_whole (D V : patch_array) :
  length V = length D → set_slice D None None V = Ok V.
Proof.
  intros E. unfold set_slice, slice_bounds. cbn.
  rewrite Nat.sub_0_r, decide_True by done.
  by rewrite drop_all, app_nil_r.
Qed.

Lemma get_slice_whole (S : patch_array) : get_slice S None None = S.
Proof.
  unfold get_slice, slice_bounds. cbn.
  by rewrite Nat.sub_0_r, firstn_all.
Qed.

Lemma assign_slice_whole (s : state patch_array) dst src D S :
  arrays s !! src = Some S → arrays s !! dst = Some D → length S = length D →
  assign_slice dst None None src None None s
  = (Ok (), State (<[dst := S]> (arrays s)) (launched s)).
Proof.
  intros Hs Hd Hlen. unfold assign_slice.
  mrun ltac:(by apply read_ok). mrun ltac:(by apply read_ok).
  by rewrite get_slice_whole, set_slice_whole by done.
Qed.

Lemma patch_new_timestep_run (self : Patch.t) (s : state patch_array) C0 C1 :
  arrays s !! Patch.conserved0 self = Some C0 →
  arrays s !! Patch.conserved1 self = Some C1 →
  length C1 = length C0 →
  Patch.new_timestep self s
  = (Ok (Patch.Make (Patch.num_zones self) (Patch.faces self) (Patch.coordinates self)
           (Patch.scale_factor_initial self) (Patch.scale_factor_derivative self)
           (Patch.time self) (Patch.time self) (Patch.primitive1 self)
           (Patch.conserved0 self) (Patch.conserved1 self) (Patch.conserved2 self)),
     State (<[Patch.conserved0 self := C1]> (arrays s)) (launched s)).
Proof.
  intros H0 H1 Hlen. unfold Patch.new_timestep. cbv zeta. cbn [Patch.conserved0 Patch.conserved1].
  mrun ltac:(by eapply assign_slice_whole). reflexivity.
Qed.
End patch_runs.

(** X17: a boundary condition other than [periodic] and [outflow] is only
    found out by [set_bc]: [Solver.advance_rk] on a solver without patches
    returns without an error, and on a solver with patches it raises the
    [ValueError] of the first [set_bc], before any array is written and
    before any kernel is launched. *)
Theorem solver_advance_rk_boundary_condition {lib : Library} (self : Solver.t)
    (s : state patch_array) rk_param dt :
  Solver.boundary_condition self ∉ ["periodic"; "outflow"] →
  (Solver.patches self = [] →
   Solver.advance_rk self rk_param dt s = (Ok self, s)) ∧
  (Solver.patches self ≠ [] →
   Solver.advance_rk self rk_param dt s
   = (Raise (ValueError "boundary condition must be 'periodic | outflow'"), s)).
Proof.
  intros Hbc. unfold Solver.advance_rk, Solver.exchange_guards. split.
  - intros E. rewrite E. cbn. by destruct self; cbn in *; subst.
  - intros Hne. destruct (Solver.patches self) as [|p ps] eqn:E; [done|].
    cbn [length seq for_in].
    erewrite bind_raise; [reflexivity|].
    erewrite bind_raise; [reflexivity|].
    erewrite bind_raise; [reflexivity|].
    by apply set_bc_raise.
Qed.

Lemma solver_advance_rk_boundary_condition_witness :
  ("reflect" ∉ ["periodic"; "outflow"]) ∧
  Solver.advance_rk (lib:=copying_library) (ring_solver "reflect") c0_5 1%Qc ring_state
  = (Raise (ValueError "boundary condition must be 'periodic | outflow'"), ring_state).
Proof.
  assert (H : "reflect" ∉ ["periodic"; "outflow"]).
  { rewrite !not_elem_of_cons. repeat split; try discriminate. apply not_elem_of_nil. }
  split; [exact H|].
  refine (proj2 (solver_advance_rk_boundary_condition (lib:=copying_library)
                   (ring_solver "reflect") ring_state c0_5 1%Qc H) _).
  discriminate.
Defined.

Section patch_stages.
Context {lib : Library}.

Lemma last_cons_cons {T} (x y : T) l : last (x :: y :: l) = last (y :: l).
Proof. done. Qed.

Lemma patch_stages_run dt rks :
  ∀ (self : Patch.t) (s : state patch_array),
    let four := [Patch.primitive1 self; Patch.conserved0 self;
                 Patch.conserved1 self; Patch.conserved2 self] in
    let t0 := Patch.time0 self in
    NoDup four → (∀ l, l ∈ four → is_Some (arrays s !! l)) →
    ∃ self' s',
      for_in rks (λ rk self, Patch.advance_rk self rk dt) self s = (Ok self', s') ∧
      Patch.time0 self' = t0 ∧
      Patch.time self'
      = from_option (λ rk, t0 * rk + (t0 + dt) * (1 - rk))%Qc (Patch.time self) (last rks) ∧
      Patch.primitive1 self' = Patch.primitive1 self ∧
      Patch.conserved0 self' = Patch.conserved0 self ∧
      (Patch.conserved1 self', Patch.conserved2 self')
      = (if Nat.even (length rks) then (Patch.conserved1 self, Patch.conserved2 self)
         else (Patch.conserved2 self, Patch.conserved1 self)) ∧
      arrays s' !! Patch.conserved0 self = arrays s !! Patch.conserved0 self ∧
      length (launched s') = length (launched s) + 2 * length rks ∧
      (∀ l, l ∉ four → arrays s' !! l = arrays s !! l) ∧
      (∀ l, l ∈ four → is_Some (arrays s' !! l)).
Proof.
  induction rks as [|rk rks IH]; intros self s four t0 Hnd Hsome.
  - exists self, s. cbn. repeat split; (done || lia).
  - cbn [for_in].
    destruct (Hsome (Patch.primitive1 self)) as [P1 HP1];
      [subst four; rewrite !elem_of_cons; tauto|].
    destruct (Hsome (Patch.conserved0 self)) as [C0 HC0];
      [subst four; rewrite !elem_of_cons; tauto|].
    destruct (Hsome (Patch.conserved1 self)) as [C1 HC1];
      [subst four; rewrite !elem_of_cons; tauto|].
    destruct (Hsome (Patch.conserved2 self)) as [C2 HC2];
      [subst four; rewrite !elem_of_cons; tauto|].
    pose proof (patch_advance_rk_run self s rk dt C0 P1 C1 C2 Hnd HC0 HP1 HC1 HC2) as Hrun.
    cbv zeta in Hrun. mrun ltac:(exact Hrun). clear Hrun.
    set (self1 := Patch.Make _ _ _ _ _ _ _ _ _ _ _). set (s1 := State _ _).
    assert (Hnd' := Hnd). subst four.
    rewrite !NoDup_cons, !not_elem_of_cons in Hnd'.
    destruct Hnd' as ((? & ? & ? & _) & (? & ? & _) & (? & _) & _).
    destruct (IH self1 s1) as (self' & s' & Hrun' & Ht0 & Ht & Hp1 & Hc0 & Hc12 & Hs0 & Htr
                                 & Hfr & Hsome').
    { subst self1. cbn. rewrite !NoDup_cons, !not_elem_of_cons.
      repeat split; try done; try (by apply not_eq_sym); try apply not_elem_of_nil.
      apply NoDup_nil_2. }
    { intros l Hl. subst self1 s1. cbn in *.
      destruct (decide (l = Patch.conserved2 self)) as [->|N2];
        [rewrite lookup_insert_eq; by eexists|]. rewrite lookup_insert_ne by done.
      destruct (decide (l = Patch.primitive1 self)) as [->|N1];
        [rewrite lookup_insert_eq; by eexists|]. rewrite lookup_insert_ne by done.
      apply Hsome. rewrite !elem_of_cons in Hl. rewrite !elem_of_cons. tauto. }
    exists self', s'. split; [exact Hrun'|].
    subst self1 s1. cbn in *.
    split; [done|]. split.
    { rewrite Ht. destruct rks as [|rk' rks]; [done|]. rewrite last_cons_cons.
      destruct (last (rk' :: rks)) eqn:E; [done|]. by apply last_None in E. }
    split; [done|]. split; [done|]. split.
    { rewrite Hc12.
      change (match length rks with 0 => false | S n' => Nat.even n' end)
        with (Nat.even (S (length rks))).
      rewrite Nat.even_succ, <- Nat.negb_even. by destruct (Nat.even (length rks)). }
    split; [rewrite Hs0; by rewrite !lookup_insert_ne|].
    split; [rewrite Htr, length_app; cbn; lia|].
    split.
    + intros l Hl. rewrite !not_elem_of_cons in Hl. destruct Hl as (? & ? & ? & ? & _).
      rewrite Hfr by (rewrite !not_elem_of_cons; repeat split; try done; apply not_elem_of_nil).
      by rewrite !lookup_insert_ne.
    + intros l Hl. apply Hsome'. rewrite !elem_of_cons in Hl. rewrite !elem_of_cons. tauto.
Qed.
End patch_stages.

(** X18: one Runge-Kutta step of a patch.  [new_timestep] followed by the
    stages [rks ++ [rk_last]] of [advance_rk] leaves [time0] at the time [t]
    the step started from and the patch time at
    [t * rk_last + (t + dt) * (1 - rk_last)], whatever the earlier stages
    were; [conserved0] is the same object throughout and holds the rows
    [conserved1] had at the start of the step; [conserved1] and [conserved2]
    have traded places when the number of stages is odd; two kernels are
    launched per stage and no array outside the four buffers is touched. *)
Theorem patch_runge_kutta_step {lib : Library} (self : Patch.t) (s : state patch_array)
    dt rks rk_last C0 C1 :
  let four := [Patch.primitive1 self; Patch.conserved0 self;
               Patch.conserved1 self; Patch.conserved2 self] in
  let t := Patch.time self in
  NoDup four → (∀ l, l ∈ four → is_Some (arrays s !! l)) →
  arrays s !! Patch.conserved0 self = Some C0 →
  arrays s !! Patch.conserved1 self = Some C1 → length C1 = length C0 →
  ∃ self' s',
    (self ← Patch.new_timestep self;
     for_in (rks ++ [rk_last]) (λ rk self, Patch.advance_rk self rk dt) self) s
    = (Ok self', s') ∧
    Patch.time0 self' = t ∧
    Patch.time self' = (t * rk_last + (t + dt) * (1 - rk_last))%Qc ∧
    Patch.conserved0 self' = Patch.conserved0 self ∧
    arrays s' !! Patch.conserved0 self = Some C1 ∧
    (Patch.conserved1 self', Patch.conserved2 self')
    = (if Nat.even (length rks) then (Patch.conserved2 self, Patch.conserved1 self)
       else (Patch.conserved1 self, Patch.conserved2 self)) ∧
    length (launched s') = length (launched s) + 2 * (length rks + 1) ∧
    ∀ l, l ∉ four → arrays s' !! l = arrays s !! l.
Proof.
  intros four t Hnd Hsome HC0 HC1 Hlen.
  mrun ltac:(by eapply patch_new_timestep_run).
  set (self1 := Patch.Make _ _ _ _ _ _ _ _ _ _ _). set (s1 := State _ _).
  destruct (patch_stages_run dt (rks ++ [rk_last]) self1 s1)
    as (self' & s' & Hrun' & Ht0 & Ht & Hp1 & Hc0 & Hc12 & Hs0 & Htr & Hfr & _).
  { exact Hnd. }
  { intros l Hl. subst self1 s1. cbn in *.
    destruct (decide (l = Patch.conserved0 self)) as [->|N];
      [rewrite lookup_insert_eq; by eexists|]. rewrite lookup_insert_ne by done.
    by apply Hsome. }
  exists self', s'. split; [exact Hrun'|]. subst self1 s1. cbn in *.
  split; [done|]. split; [by rewrite Ht, last_snoc|]. split; [done|].
  split; [by rewrite Hs0, lookup_insert_eq|]. split.
  { rewrite Hc12, length_app. cbn. rewrite Nat.add_1_r, Nat.even_succ, <- Nat.negb_even.
    by destruct (Nat.even (length rks)). }
  split; [rewrite Htr, length_app; cbn; lia|].
  intros l Hl. rewrite Hfr by done. rewrite lookup_insert_ne; [done|].
  intros <-. apply Hl. subst four. rewrite !elem_of_cons. tauto.
Qed.

Lemma patch_runge_kutta_step_witness :
  NoDup [0; 20; 10; 30] ∧
  (∀ l, l ∈ [0; 20; 10; 30] → is_Some (arrays ring_state !! l)) ∧
  arrays ring_state !! 20 = Some (numbered_rows 200) ∧
  arrays ring_state !! 10 = Some (numbered_rows 100) ∧
  length (numbered_rows 100) = length (numbered_rows 200) ∧
  ∃ self' s',
    (self ← Patch.new_timestep (ring_patch 0);
     for_in ([0%Qc; Q2Qc (3 # 4)] ++ [Q2Qc (1 # 3)])
       (λ rk self, Patch.advance_rk (lib:=copying_library) self rk 1%Qc) self) ring_state
    = (Ok self', s') ∧
    Patch.time0 self' = Q2Qc 3 ∧
    Patch.time self' = (Q2Qc 3 * Q2Qc (1 # 3) + (Q2Qc 3 + 1) * (1 - Q2Qc (1 # 3)))%Qc ∧
    arrays s' !! 20 = Some (numbered_rows 100).
Proof.
  assert (H1 : NoDup [0; 20; 10; 30]) by (apply (bool_decide_unpack _); vm_compute; exact I).
  assert (H2 : ∀ l, l ∈ [0; 20; 10; 30] → is_Some (arrays ring_state !! l)).
  { intros l Hl. rewrite !elem_of_cons, elem_of_nil in Hl.
    destruct Hl as [-> | [-> | [-> | [-> | []]]]]; by eexists. }
  assert (H3 : arrays ring_state !! 20 = Some (numbered_rows 200)) by reflexivity.
  assert (H4 : arrays ring_state !! 10 = Some (numbered_rows 100)) by reflexivity.
  assert (H5 : length (numbered_rows 100) = length (numbered_rows 200)) by reflexivity.
  split; [exact H1|]. split; [exact H2|]. split; [exact H3|]. split; [exact H4|].
  split; [exact H5|].
  destruct (patch_runge_kutta_step (lib:=copying_library) (ring_patch 0) ring_state 1%Qc
              [0%Qc; Q2Qc (3 # 4)] (Q2Qc (1 # 3)) _ _ H1 H2 H3 H4 H5)
    as (self' & s' & Hrun & Ht0 & Ht & _ & Hc0 & _).
  exists self', s'. split; [exact Hrun|]. split; [exact Ht0|]. split; [exact Ht | exact Hc0].
Defined.

Section frames.
Lemma bind_inv {A T U} (m : M A T) (k : T → M A U) s r s' :
  (m ≫= k) s = (r, s') →
  (∃ x s1, m s = (Ok x, s1) ∧ k x s1 = (r, s')) ∨ (∃ e, m s = (Raise e, s') ∧ r = Raise e).
Proof.
  unfold mbind, M_bind. destruct (m s) as [[x|e] s1]; intros E.
  - left. eauto.
  - right. injection E as <- <-. eauto.
Qed.

Lemma assign_slice_frame dst d0 d1 src s0 s1 (s : state patch_array) r s' :
  assign_slice dst d0 d1 src s0 s1 s = (r, s') →
  launched s' = launched s ∧ ∀ l, l ≠ dst → arrays s' !! l = arrays s !! l.
Proof.
  unfold assign_slice, read, mbind, M_bind.
  destruct (arrays s !! src) as [S|]; [|by intros [= <- <-]].
  destruct (arrays s !! dst) as [D|]; [|by intros [= <- <-]].
  destruct (set_slice _ _ _ _) as [D'|e]; [|by intros [= <- <-]].
  intros [= <- <-]. cbn. split; [done|]. intros l Hl. by rewrite lookup_insert_ne.
Qed.

Lemma assign_slice_twice_frame a0 d0 d1 src s0 s1 d0' d1' src' s0' s1'
    (s : state patch_array) r s' :
  (assign_slice a0 d0 d1 src s0 s1;; assign_slice a0 d0' d1' src' s0' s1') s = (r, s') →
  launched s' = launched s ∧ ∀ l, l ≠ a0 → arrays s' !! l = arrays s !! l.
Proof.
  intros E. apply bind_inv in E as [(x & sm & E1 & E2) | (e & E1 & _)].
  - apply assign_slice_frame in E1 as [T1 F1]. apply assign_slice_frame in E2 as [T2 F2].
    split; [congruence|]. intros l Hl. by rewrite F2, F1.
  - by apply assign_slice_frame in E1.
Qed.

Lemma set_bc_frame self al a0 ar index (s : state patch_array) r s' :
  Solver.set_bc self al a0 ar index s = (r, s') →
  launched s' = launched s ∧ ∀ l, l ≠ a0 → arrays s' !! l = arrays s !! l.
Proof.
  unfold Solver.set_bc. cbv zeta.
  repeat case_decide; try (by apply assign_slice_twice_frame).
  by intros [= <- <-].
Qed.

Lemma for_in_frame {A X} (body : X → () → M A ()) (writes : X → loc → Prop) xs :
  (∀ x u s r s', body x u s = (r, s') →
     launched s' = launched s ∧ ∀ l, ¬ writes x l → arrays s' !! l = arrays s !! l) →
  ∀ u s r s',
    for_in xs body u s = (r, s') →
    launched s' = launched s ∧
    ∀ l, (∀ x, x ∈ xs → ¬ writes x l) → arrays s' !! l = arrays s !! l.
Proof.
  intros Hbody. induction xs as [|x xs IH]; intros u s r s' E.
  - cbn in E. by injection E as <- <-.
  - cbn [for_in] in E.
    apply bind_inv in E as [(y & s1 & E1 & E2) | (e & E1 & _)].
    + apply Hbody in E1 as [T1 F1]. apply IH in E2 as [T2 F2].
      split; [congruence|]. intros l Hl.
      rewrite F2 by (intros x' Hx'; apply Hl; by right).
      apply F1, Hl. by left.
    + apply Hbody in E1 as [T1 F1]. split; [done|]. intros l Hl. apply F1, Hl. by left.
Qed.

Lemma exchange_guards_frame self (s : state patch_array) r s' :
  Solver.exchange_guards self s = (r, s') →
  launched s' = launched s ∧
  ∀ l, (∀ p, p ∈ Solver.patches self → l ≠ Patch.primitive1 p ∧ l ≠ Patch.conserved1 p) →
       arrays s' !! l = arrays s !! l.
Proof.
  unfold Solver.exchange_guards. cbv zeta. intros E.
  eapply (for_in_frame _ (λ i l, l = Patch.primitive1 (Solver.patches self !!! i) ∨
                                 l = Patch.conserved1 (Solver.patches self !!! i))) in E.
  - destruct E as [T F]. split; [done|]. intros l Hl. apply F.
    intros i Hi [-> | ->].
    + apply elem_of_seq in Hi.
      destruct (Hl (Solver.patches self !!! i)) as [N _]; [|done].
      apply list_elem_of_lookup_total_2. lia.
    + apply elem_of_seq in Hi.
      destruct (Hl (Solver.patches self !!! i)) as [_ N]; [|done].
      apply list_elem_of_lookup_total_2. lia.
  - clear. intros i u s r s' E. cbv beta in E.
    apply bind_inv in E as [(y & s1 & E1 & E2) | (e & E1 & _)].
    + apply set_bc_frame in E1 as [T1 F1]. apply set_bc_frame in E2 as [T2 F2].
      split; [congruence|]. intros l Hl. rewrite F2, F1; [done|..]; intros ->; tauto.
    + apply set_bc_frame in E1 as [T1 F1]. split; [done|].
      intros l Hl. apply F1. intros ->. tauto.
Qed.
End frames.

Section solver_stage.
Context {lib : Library}.

Lemma lookup_bind_buffers ps j a p :
  ps !! j = Some p → a < 4 →
  (ps ≫= patch_buffers) !! (4 * j + a) = patch_buffers p !! a.
Proof.
  revert j. induction ps as [|q ps IH]; intros j Hj Ha; [done|].
  destruct j as [|j].
  - injection Hj as ->. cbn [mbind list_bind]. rewrite Nat.mul_0_r, Nat.add_0_l.
    rewrite lookup_app_l; [done|]. cbn. lia.
  - cbn in Hj. cbn [mbind list_bind].
    rewrite lookup_app_r by (cbn; lia). cbn [length patch_buffers].
    replace (4 * S j + a - 4) with (4 * j + a) by lia. by apply IH.
Qed.

Lemma buffers_inj ps j j' p p' a b l :
  NoDup (ps ≫= patch_buffers) →
  ps !! j = Some p → ps !! j' = Some p' →
  patch_buffers p !! a = Some l → patch_buffers p' !! b = Some l →
  j = j' ∧ a = b.
Proof.
  intros Hnd Hj Hj' Ha Hb.
  assert (a < 4) as Ha4 by (apply lookup_lt_Some in Ha; cbn in Ha; lia).
  assert (b < 4) as Hb4 by (apply lookup_lt_Some in Hb; cbn in Hb; lia).
  assert (4 * j + a = 4 * j' + b) as E.
  { eapply NoDup_lookup; [exact Hnd | |].
    - rewrite (lookup_bind_buffers _ _ _ p) by done. exact Ha.
    - rewrite (lookup_bind_buffers _ _ _ p') by done. exact Hb. }
  lia.
Qed.

Lemma advance_patches_run rk_param dt :
  ∀ ps (s : state patch_array),
    NoDup (ps ≫= patch_buffers) →
    (∀ p l, p ∈ ps → l ∈ patch_buffers p → is_Some (arrays s !! l)) →
    ∃ s',
      Solver.advance_patches ps rk_param dt s = (Ok (advanced rk_param dt <$> ps), s') ∧
      launched s' = launched s ++ (ps ≫= patch_launches rk_param dt) ∧
      (∀ l, (∀ p, p ∈ ps → l ≠ Patch.primitive1 p ∧ l ≠ Patch.conserved2 p) →
            arrays s' !! l = arrays s !! l) ∧
      (∀ p, p ∈ ps →
         arrays s' !! Patch.primitive1 p = Some (recomputed_primitive s p) ∧
         arrays s' !! Patch.conserved2 p = Some (advanced_conserved s p rk_param dt)).
Proof.
  induction ps as [|p ps IH]; intros s Hnd Hsome.
  - exists s. cbn. rewrite app_nil_r. split; [done|]. split; [done|]. split; [done|].
    intros q Hq. by apply elem_of_nil in Hq.
  - cbn [mbind list_bind] in Hnd. apply NoDup_app in Hnd as (Hnd1 & Hdisj & Hnd2).
    destruct (Hsome p (Patch.primitive1 p)) as [P1 HP1];
      [by left | unfold patch_buffers; rewrite !elem_of_cons; tauto|].
    destruct (Hsome p (Patch.conserved0 p)) as [C0 HC0];
      [by left | unfold patch_buffers; rewrite !elem_of_cons; tauto|].
    destruct (Hsome p (Patch.conserved1 p)) as [C1 HC1];
      [by left | unfold patch_buffers; rewrite !elem_of_cons; tauto|].
    destruct (Hsome p (Patch.conserved2 p)) as [C2 HC2];
      [by left | unfold patch_buffers; rewrite !elem_of_cons; tauto|].
    pose proof (patch_advance_rk_run p s rk_param dt C0 P1 C1 C2 Hnd1 HC0 HP1 HC1 HC2) as Hrun.
    cbv zeta in Hrun. cbn [Solver.advance_patches].
    mrun ltac:(exact Hrun). clear Hrun.
    set (s1 := State _ _).
    assert (∀ l, l ≠ Patch.primitive1 p → l ≠ Patch.conserved2 p →
                 arrays s1 !! l = arrays s !! l) as Hfr1.
    { intros l N1 N2. subst s1. cbn. by rewrite !lookup_insert_ne. }
    assert (∀ q l, q ∈ ps → l ∈ patch_buffers q → l ∉ patch_buffers p) as Hother.
    { intros q l Hq Hl Hin. apply (Hdisj l Hin).
      apply list_elem_of_bind. eauto. }
    assert (∀ q l, q ∈ ps → l ∈ patch_buffers q → arrays s1 !! l = arrays s !! l) as Hsame.
    { intros q l Hq Hl. pose proof (Hother q l Hq Hl) as N.
      unfold patch_buffers in N. rewrite !not_elem_of_cons in N.
      apply Hfr1; tauto. }
    assert (∀ q l, q ∈ ps → l ∈ patch_buffers q → is_Some (arrays s1 !! l)) as Hsome1.
    { intros q l Hq Hl. rewrite (Hsame q l) by done. apply (Hsome q); [by right | done]. }
    destruct (IH s1 Hnd2 Hsome1) as (s' & Hrun' & Htr & Hfr & Hres).
    exists s'. mrun ltac:(exact Hrun'). split; [reflexivity|].
    split; [rewrite Htr; subst s1; cbn; by rewrite <- !app_assoc|].
    split.
    + intros l Hl. rewrite Hfr by (intros q Hq; apply Hl; by right).
      destruct (Hl p ltac:(by left)). by apply Hfr1.
    + intros q Hq. apply elem_of_cons in Hq as [-> | Hq].
      * assert (∀ l, l ∈ patch_buffers p → arrays s' !! l = arrays s1 !! l) as Hkeep.
        { intros l Hl. apply Hfr. intros q Hq. split; intros ->.
          - apply (Hother q (Patch.primitive1 q) Hq); [|exact Hl].
            unfold patch_buffers. rewrite !elem_of_cons. tauto.
          - apply (Hother q (Patch.conserved2 q) Hq); [|exact Hl].
            unfold patch_buffers. rewrite !elem_of_cons. tauto. }
        rewrite !Hkeep by (unfold patch_buffers; rewrite !elem_of_cons; tauto).
        unfold patch_buffers in Hnd1. rewrite !NoDup_cons, !not_elem_of_cons in Hnd1.
        destruct Hnd1 as ((? & ? & ? & _) & _).
        subst s1. cbn. rewrite lookup_insert_eq.
        rewrite lookup_insert_ne by (by apply not_eq_sym). rewrite lookup_insert_eq.
        unfold advanced_conserved, recomputed_primitive, array_of.
        by rewrite HP1, HC0, HC1, HC2.
      * destruct (Hres q Hq) as [R1 R2]. rewrite R1, R2.
        unfold advanced_conserved, recomputed_primitive, array_of.
        rewrite !(Hsame q) by (done || (unfold patch_buffers; rewrite !elem_of_cons; tauto)).
        done.
Qed.
End solver_stage.

Section solver_stage_run.
Context {lib : Library}.
Variable self : Solver.t.
Variable s : state patch_array.
Let ps := Solver.patches self.
Let np := length ps.
Let ng := Solver.num_guard self.
Let bc := Solver.boundary_condition self.
Hypothesis Hbc : bc ∈ ["periodic"; "outflow"].
Hypothesis Hng : 0 < ng.
Hypothesis Hnd : NoDup (ps ≫= patch_buffers).
Hypothesis Hsome : ∀ p l, p ∈ ps → l ∈ patch_buffers p → is_Some (arrays s !! l).
Hypothesis Hlen : ∀ p, p ∈ ps →
  3 * ng ≤ length (array_of s (Patch.primitive1 p)) ∧
  3 * ng ≤ length (array_of s (Patch.conserved1 p)).

Lemma patch_at j : j < np → ps !! j = Some (ps !!! j) ∧ ps !!! j ∈ ps.
Proof.
  intros Hj. assert (ps !! j = Some (ps !!! j)) as E by by apply list_lookup_lookup_total_lt.
  split; [done|]. by eapply list_elem_of_lookup_2.
Qed.

Lemma array_of_Some p l : p ∈ ps → l ∈ patch_buffers p → arrays s !! l = Some (array_of s l).
Proof. intros Hp Hl. destruct (Hsome p l Hp Hl) as [a Ha]. unfold array_of. by rewrite Ha. Qed.

Lemma exchange_guards_run :
  ∃ s1,
    Solver.exchange_guards self s = (Ok (), s1) ∧ launched s1 = launched s ∧
    (∀ j, j < np →
       arrays s1 !! Patch.primitive1 (ps !!! j)
       = Some (exchanged bc ng np (λ j, array_of s (Patch.primitive1 (ps !!! j))) j) ∧
       arrays s1 !! Patch.conserved1 (ps !!! j)
       = Some (exchanged bc ng np (λ j, array_of s (Patch.conserved1 (ps !!! j))) j)) ∧
    (∀ l, (∀ p, p ∈ ps → l ≠ Patch.primitive1 p ∧ l ≠ Patch.conserved1 p) →
          arrays s1 !! l = arrays s !! l).
Proof.
  set (AP := λ j, array_of s (Patch.primitive1 (ps !!! j))).
  set (AC := λ j, array_of s (Patch.conserved1 (ps !!! j))).
  assert (∀ j, j < np → 3 * ng ≤ length (AP j)) as HAP.
  { intros j Hj. apply Hlen. by apply patch_at. }
  assert (∀ j, j < np → 3 * ng ≤ length (AC j)) as HAC.
  { intros j Hj. apply Hlen. by apply patch_at. }
  assert (∀ j j', j < np → j' < np →
            Patch.primitive1 (ps !!! j) = Patch.primitive1 (ps !!! j') → j = j') as HinjP.
  { intros j j' Hj Hj' E. destruct (patch_at j Hj) as [E1 _], (patch_at j' Hj') as [E2 _].
    by destruct (buffers_inj ps j j' _ _ 0 0 _ Hnd E1 E2 eq_refl (eq_sym (f_equal Some E))). }
  assert (∀ j j', j < np → j' < np →
            Patch.conserved1 (ps !!! j) = Patch.conserved1 (ps !!! j') → j = j') as HinjC.
  { intros j j' Hj Hj' E. destruct (patch_at j Hj) as [E1 _], (patch_at j' Hj') as [E2 _].
    by destruct (buffers_inj ps j j' _ _ 2 2 _ Hnd E1 E2 eq_refl (eq_sym (f_equal Some E))). }
  assert (∀ j j', j < np → j' < np →
            Patch.primitive1 (ps !!! j) ≠ Patch.conserved1 (ps !!! j')) as HPC.
  { intros j j' Hj Hj' E. destruct (patch_at j Hj) as [E1 _], (patch_at j' Hj') as [E2 _].
    by destruct (buffers_inj ps j j' _ _ 0 2 _ Hnd E1 E2 eq_refl (eq_sym (f_equal Some E))). }
  destruct (exchange_loop self Hng Hbc AP AC HAP HAC HinjP HinjC HPC s np 0 s)
    as (s1 & Hrun & Htr & HP & HC); [done| |].
  { split; [done|]. split; intros j Hj; unfold served; rewrite decide_False by lia;
      subst AP AC; cbn; (eapply array_of_Some; [by apply patch_at|]);
      unfold patch_buffers; rewrite !elem_of_cons; tauto. }
  exists s1. split; [exact Hrun|]. split; [exact Htr|]. split.
  - intros j Hj. rewrite HP, HC by done. unfold served. by rewrite !decide_True by done.
  - by apply (exchange_guards_frame self s (Ok ()) s1).
Qed.
End solver_stage_run.

(** X19: one stage of the solver.  On a solver whose patches own distinct
    buffers of at least [ng] interior rows, [Solver.advance_rk] first
    exchanges the guards of every patch and then advances the patches in
    order, two kernels each.  The kernels of every patch read the arrays as
    the exchange left them: no patch sees what the kernels of another patch
    wrote.  Every patch comes out at the stage time computed from its own
    [time0]; when the patches share their [time0], as they do from their
    construction on, they all come out at the same stage time, which is the
    solver's [time].  Nothing outside the buffers of the patches is
    touched. *)
Theorem solver_advance_rk_stage {lib : Library} (self : Solver.t) (s : state patch_array)
    rk_param dt :
  let ps := Solver.patches self in
  let ng := Solver.num_guard self in
  Solver.boundary_condition self ∈ ["periodic"; "outflow"] → 0 < ng →
  NoDup (ps ≫= patch_buffers) →
  (∀ p l, p ∈ ps → l ∈ patch_buffers p → is_Some (arrays s !! l)) →
  (∀ p, p ∈ ps →
     3 * ng ≤ length (array_of s (Patch.primitive1 p)) ∧
     3 * ng ≤ length (array_of s (Patch.conserved1 p))) →
  ∃ s1 self' s',
    Solver.exchange_guards self s = (Ok (), s1) ∧
    Solver.advance_rk self rk_param dt s = (Ok self', s') ∧
    Solver.patches self' = advanced rk_param dt <$> ps ∧
    Solver.time self'
    = (λ p, Patch.time0 p * rk_param + (Patch.time0 p + dt) * (1 - rk_param))%Qc <$> ps !! 0 ∧
    (∀ t0, (∀ p, p ∈ ps → Patch.time0 p = t0) →
       (∀ p', p' ∈ Solver.patches self' →
          Patch.time p' = (t0 * rk_param + (t0 + dt) * (1 - rk_param))%Qc) ∧
       (ps ≠ [] →
        Solver.time self' = Some (t0 * rk_param + (t0 + dt) * (1 - rk_param))%Qc)) ∧
    launched s' = launched s ++ (ps ≫= patch_launches rk_param dt) ∧
    (∀ p, p ∈ ps →
       arrays s' !! Patch.primitive1 p = Some (recomputed_primitive s1 p) ∧
       arrays s' !! Patch.conserved2 p = Some (advanced_conserved s1 p rk_param dt) ∧
       arrays s' !! Patch.conserved1 p = arrays s1 !! Patch.conserved1 p ∧
       arrays s' !! Patch.conserved0 p = arrays s !! Patch.conserved0 p ∧
       arrays s1 !! Patch.conserved0 p = arrays s !! Patch.conserved0 p ∧
       arrays s1 !! Patch.conserved2 p = arrays s !! Patch.conserved2 p) ∧
    (∀ l, (∀ p, p ∈ ps → l ∉ patch_buffers p) → arrays s' !! l = arrays s !! l).
Proof.
  intros ps ng Hbc Hng Hnd Hsome Hlen.
  destruct (exchange_guards_run self s Hbc Hng Hnd Hsome Hlen)
    as (s1 & Hrun1 & Htr1 & Hex & Hfr1).
  fold ps in Hex, Hfr1.
  assert (∀ p a q b l, p ∈ ps → q ∈ ps →
            patch_buffers p !! a = Some l → patch_buffers q !! b = Some l → a = b) as Hinj.
  { intros p a q b l Hp Hq Ea Eb.
    apply list_elem_of_lookup in Hp as [j Hj]. apply list_elem_of_lookup in Hq as [j' Hj'].
    by destruct (buffers_inj ps j j' p q a b l Hnd Hj Hj' Ea Eb). }
  assert (∀ p, p ∈ ps →
            arrays s1 !! Patch.conserved0 p = arrays s !! Patch.conserved0 p ∧
            arrays s1 !! Patch.conserved2 p = arrays s !! Patch.conserved2 p) as Hkeep.
  { intros p Hp. split; apply Hfr1; intros q Hq; split; intros E.
    - by pose proof (Hinj p 1 q 0 _ Hp Hq eq_refl (f_equal Some (eq_sym E))).
    - by pose proof (Hinj p 1 q 2 _ Hp Hq eq_refl (f_equal Some (eq_sym E))).
    - by pose proof (Hinj p 3 q 0 _ Hp Hq eq_refl (f_equal Some (eq_sym E))).
    - by pose proof (Hinj p 3 q 2 _ Hp Hq eq_refl (f_equal Some (eq_sym E))). }
  assert (∀ p l, p ∈ ps → l ∈ patch_buffers p → is_Some (arrays s1 !! l)) as Hsome1.
  { intros p l Hp Hl. pose proof Hp as Hp'. apply list_elem_of_lookup in Hp' as [j Hj].
    assert (j < length ps) as Hlt by by eapply lookup_lt_Some.
    assert (ps !!! j = p) as Ej by by apply list_lookup_total_correct.
    destruct (Hex j Hlt) as [E1 E2]. rewrite Ej in E1, E2.
    destruct (Hkeep p Hp) as [K0 K2].
    unfold patch_buffers in Hl. rewrite !elem_of_cons, elem_of_nil in Hl.
    destruct Hl as [-> | [-> | [-> | [-> | []]]]].
    - by eexists.
    - rewrite K0. apply (Hsome p); [done|]. unfold patch_buffers. rewrite !elem_of_cons. tauto.
    - by eexists.
    - rewrite K2. apply (Hsome p); [done|]. unfold patch_buffers. rewrite !elem_of_cons. tauto. }
  destruct (advance_patches_run rk_param dt ps s1 Hnd Hsome1)
    as (s' & Hrun2 & Htr2 & Hfr2 & Hres).
  eexists s1, _, s'. split; [exact Hrun1|]. split.
  { unfold Solver.advance_rk. mrun ltac:(exact Hrun1). fold ps.
    mrun ltac:(exact Hrun2). reflexivity. }
  cbn [Solver.patches]. split; [done|]. split.
  { unfold Solver.time. cbn [Solver.patches]. rewrite list_lookup_fmap.
    by destruct (ps !! 0). }
  split.
  { intros t0 Ht0. split.
    - intros p' [p [-> Hp]]%list_elem_of_fmap. unfold advanced. cbn [Patch.time].
      by rewrite (Ht0 p Hp).
    - intros Hne. unfold Solver.time. cbn [Solver.patches]. rewrite list_lookup_fmap.
      destruct ps as [|p ps'] eqn:Eps; [done|]. cbn.
      rewrite (Ht0 p); [done|]. apply elem_of_cons. by left. }
  split; [by rewrite Htr2, Htr1|]. split.
  - intros p Hp. destruct (Hres p Hp) as [R1 R2]. destruct (Hkeep p Hp) as [K0 K2].
    split; [exact R1|]. split; [exact R2|].
    split; [|split; [|done]].
    + apply Hfr2. intros q Hq. split; intros E.
      * by pose proof (Hinj p 2 q 0 _ Hp Hq eq_refl (f_equal Some (eq_sym E))).
      * by pose proof (Hinj p 2 q 3 _ Hp Hq eq_refl (f_equal Some (eq_sym E))).
    + rewrite <- K0. apply Hfr2. intros q Hq. split; intros E.
      * by pose proof (Hinj p 1 q 0 _ Hp Hq eq_refl (f_equal Some (eq_sym E))).
      * by pose proof (Hinj p 1 q 3 _ Hp Hq eq_refl (f_equal Some (eq_sym E))).
  - intros l Hl. rewrite Hfr2, Hfr1; [done|..]; intros p Hp; specialize (Hl p Hp);
      unfold patch_buffers in Hl; rewrite !not_elem_of_cons in Hl; tauto.
Qed.

Lemma full_ring_buffers p l :
  p ∈ [ring_patch 0; ring_patch 1; ring_patch 2] → l ∈ patch_buffers p →
  arrays full_ring_state !! l = Some (numbered_rows (10 * Z.of_nat l)).
Proof.
  intros Hp Hl. rewrite !elem_of_cons, elem_of_nil in Hp.
  destruct Hp as [-> | [-> | [-> | []]]];
    unfold patch_buffers in Hl; cbn in Hl; rewrite !elem_of_cons, elem_of_nil in Hl;
    destruct Hl as [-> | [-> | [-> | [-> | []]]]]; reflexivity.
Defined.

Lemma solver_advance_rk_stage_witness :
  "periodic" ∈ ["periodic"; "outflow"] ∧ 0 < 2 ∧
  NoDup ([ring_patch 0; ring_patch 1; ring_patch 2] ≫= patch_buffers) ∧
  (∀ p l, p ∈ [ring_patch 0; ring_patch 1; ring_patch 2] → l ∈ patch_buffers p →
          is_Some (arrays full_ring_state !! l)) ∧
  (∀ p, p ∈ [ring_patch 0; ring_patch 1; ring_patch 2] →
     3 * 2 ≤ length (array_of full_ring_state (Patch.primitive1 p)) ∧
     3 * 2 ≤ length (array_of full_ring_state (Patch.conserved1 p))) ∧
  ∃ self' s',
    Solver.advance_rk (lib:=copying_library) (ring_solver "periodic") c0_5 1%Qc
      full_ring_state = (Ok self', s') ∧
    Solver.patches self'
    = advanced c0_5 1%Qc <$> [ring_patch 0; ring_patch 1; ring_patch 2] ∧
    Solver.time self' = Some (Q2Qc 3 * c0_5 + (Q2Qc 3 + 1) * (1 - c0_5))%Qc ∧
    (∀ p', p' ∈ Solver.patches self' →
       Patch.time p' = (Q2Qc 3 * c0_5 + (Q2Qc 3 + 1) * (1 - c0_5))%Qc).
Proof.
  assert (H1 : "periodic" ∈ ["periodic"; "outflow"]) by (vm_compute; constructor).
  assert (H2 : 0 < 2) by lia.
  assert (H3 : NoDup ([ring_patch 0; ring_patch 1; ring_patch 2] ≫= patch_buffers))
    by (apply (bool_decide_unpack _); vm_compute; exact I).
  assert (H4 : ∀ p l, p ∈ [ring_patch 0; ring_patch 1; ring_patch 2] → l ∈ patch_buffers p →
                 is_Some (arrays full_ring_state !! l)).
  { intros p l Hp Hl. eexists. exact (full_ring_buffers p l Hp Hl). }
  assert (H5 : ∀ p, p ∈ [ring_patch 0; ring_patch 1; ring_patch 2] →
                 3 * 2 ≤ length (array_of full_ring_state (Patch.primitive1 p)) ∧
                 3 * 2 ≤ length (array_of full_ring_state (Patch.conserved1 p))).
  { intros p Hp. rewrite !elem_of_cons, elem_of_nil in Hp.
    destruct Hp as [-> | [-> | [-> | []]]];
      split; apply (bool_decide_unpack _); vm_compute; exact I. }
  split; [exact H1|]. split; [exact H2|]. split; [exact H3|]. split; [exact H4|].
  split; [exact H5|].
  destruct (solver_advance_rk_stage (lib:=copying_library) (ring_solver "periodic")
              full_ring_state c0_5 1%Qc H1 H2 H3 H4 H5)
    as (s1 & self' & s' & _ & Hrun & Hps & Ht & Hsame & _).
  exists self', s'. split; [exact Hrun|]. split; [exact Hps|]. split; [exact Ht|].
  refine (proj1 (Hsame (Q2Qc 3) _)).
  intros p Hp. change (p ∈ [ring_patch 0; ring_patch 1; ring_patch 2]) in Hp.
  rewrite !elem_of_cons, elem_of_nil in Hp.
  destruct Hp as [-> | [-> | [-> | []]]]; reflexivity.
Defined.

Section solver_new_timestep.
Lemma new_timestep_patches_run :
  ∀ ps (s : state patch_array),
    NoDup (ps ≫= patch_buffers) →
    (∀ p, p ∈ ps → ∃ C0 C1,
       arrays s !! Patch.conserved0 p = Some C0 ∧ arrays s !! Patch.conserved1 p = Some C1 ∧
       length C1 = length C0) →
    ∃ s',
      Solver.new_timestep_patches ps s = (Ok (restarted <$> ps), s') ∧
      launched s' = launched s ∧
      (∀ p, p ∈ ps → arrays s' !! Patch.conserved0 p = arrays s !! Patch.conserved1 p) ∧
      (∀ l, (∀ p, p ∈ ps → l ≠ Patch.conserved0 p) → arrays s' !! l = arrays s !! l).
Proof.
  induction ps as [|p ps IH]; intros s Hnd Hsome.
  - exists s. cbn. split; [done|]. split; [done|]. split; [|done].
    intros q Hq. by apply elem_of_nil in Hq.
  - cbn [mbind list_bind] in Hnd. apply NoDup_app in Hnd as (Hnd1 & Hdisj & Hnd2).
    destruct (Hsome p ltac:(by left)) as (C0 & C1 & HC0 & HC1 & Hlen).
    cbn [Solver.new_timestep_patches].
    mrun ltac:(by eapply patch_new_timestep_run).
    set (s1 := State _ _).
    assert (∀ q l, q ∈ ps → l ∈ patch_buffers q → arrays s1 !! l = arrays s !! l) as Hsame.
    { intros q l Hq Hl. subst s1. cbn. rewrite lookup_insert_ne; [done|].
      intros <-. apply (Hdisj (Patch.conserved0 p)).
      - unfold patch_buffers. rewrite !elem_of_cons. tauto.
      - apply list_elem_of_bind. eauto. }
    assert (∀ q, q ∈ ps → ∃ C0 C1,
              arrays s1 !! Patch.conserved0 q = Some C0 ∧
              arrays s1 !! Patch.conserved1 q = Some C1 ∧ length C1 = length C0) as Hsome1.
    { intros q Hq. destruct (Hsome q ltac:(by right)) as (D0 & D1 & HD0 & HD1 & HlenD).
      exists D0, D1.
      rewrite !(Hsame q) by (done || (unfold patch_buffers; rewrite !elem_of_cons; tauto)).
      done. }
    destruct (IH s1 Hnd2 Hsome1) as (s' & Hrun' & Htr & Hres & Hfr).
    exists s'. mrun ltac:(exact Hrun'). split; [reflexivity|]. split; [by rewrite Htr|].
    unfold patch_buffers in Hnd1. rewrite !NoDup_cons, !not_elem_of_cons in Hnd1.
    destruct Hnd1 as (_ & (Hne & _) & _).
    split.
    + intros q Hq. apply elem_of_cons in Hq as [-> | Hq].
      * rewrite Hfr.
        -- subst s1. cbn. by rewrite lookup_insert_eq.
        -- intros q Hq E. apply (Hdisj (Patch.conserved0 p)).
           ++ unfold patch_buffers. rewrite !elem_of_cons. tauto.
           ++ apply list_elem_of_bind. exists q. split; [|done].
              rewrite E. unfold patch_buffers. rewrite !elem_of_cons. tauto.
      * rewrite Hres by done. apply (Hsame q); [done|].
        unfold patch_buffers. rewrite !elem_of_cons. tauto.
    + intros l Hl. rewrite Hfr by (intros q Hq; apply Hl; by right).
      subst s1. cbn. rewrite lookup_insert_ne; [done|]. apply not_eq_sym, Hl. by left.
Qed.
End solver_new_timestep.

(** X20: [Solver.new_timestep] starts a step on every patch.  On a solver
    whose patches own distinct buffers, of one shape within a patch, every
    patch comes out with its [time0] set to its [time], the buffer
    [conserved0] of every patch receives a copy of the rows of its own
    [conserved1], no kernel is launched, and no other array is written, so
    that the solver's [time] is unchanged. *)
Theorem solver_new_timestep (self : Solver.t) (s : state patch_array) :
  let ps := Solver.patches self in
  NoDup (ps ≫= patch_buffers) →
  (∀ p, p ∈ ps → ∃ C0 C1,
     arrays s !! Patch.conserved0 p = Some C0 ∧ arrays s !! Patch.conserved1 p = Some C1 ∧
     length C1 = length C0) →
  ∃ self' s',
    Solver.new_timestep self s = (Ok self', s') ∧
    Solver.patches self' = restarted <$> ps ∧
    Patch.time0 <$> Solver.patches self' = Patch.time <$> ps ∧
    Solver.time self' = Solver.time self ∧
    launched s' = launched s ∧
    (∀ p, p ∈ ps → arrays s' !! Patch.conserved0 p = arrays s !! Patch.conserved1 p) ∧
    (∀ l, (∀ p, p ∈ ps → l ≠ Patch.conserved0 p) → arrays s' !! l = arrays s !! l).
Proof.
  intros ps Hnd Hsome.
  destruct (new_timestep_patches_run ps s Hnd Hsome) as (s' & Hrun & Htr & Hres & Hfr).
  eexists _, s'. split.
  { unfold Solver.new_timestep. fold ps. mrun ltac:(exact Hrun). reflexivity. }
  cbn [Solver.patches]. split; [done|]. split.
  { rewrite <- list_fmap_compose. by apply list_fmap_ext. }
  split.
  { unfold Solver.time. cbn [Solver.patches]. fold ps. rewrite list_lookup_fmap.
    by destruct (ps !! 0). }
  done.
Qed.

Lemma solver_new_timestep_witness :
  NoDup ([ring_patch 0; ring_patch 1; ring_patch 2] ≫= patch_buffers) ∧
  (∀ p, p ∈ [ring_patch 0; ring_patch 1; ring_patch 2] → ∃ C0 C1,
     arrays full_ring_state !! Patch.conserved0 p = Some C0 ∧
     arrays full_ring_state !! Patch.conserved1 p = Some C1 ∧ length C1 = length C0) ∧
  ∃ self' s',
    Solver.new_timestep (ring_solver "periodic") full_ring_state = (Ok self', s') ∧
    arrays s' !! 20 = Some (numbered_rows 100) ∧
    arrays s' !! 21 = Some (numbered_rows 110).
Proof.
  assert (H1 : NoDup ([ring_patch 0; ring_patch 1; ring_patch 2] ≫= patch_buffers))
    by (apply (bool_decide_unpack _); vm_compute; exact I).
  assert (H2 : ∀ p, p ∈ [ring_patch 0; ring_patch 1; ring_patch 2] → ∃ C0 C1,
                 arrays full_ring_state !! Patch.conserved0 p = Some C0 ∧
                 arrays full_ring_state !! Patch.conserved1 p = Some C1 ∧
                 length C1 = length C0).
  { intros p Hp. rewrite !elem_of_cons, elem_of_nil in Hp.
    destruct Hp as [-> | [-> | [-> | []]]]; eexists _, _;
      (split; [reflexivity|]); (split; [reflexivity|]); reflexivity. }
  split; [exact H1|]. split; [exact H2|].
  destruct (solver_new_timestep (ring_solver "periodic") full_ring_state H1 H2) as (self' & s' & Hrun & _ & _ & _ & _ & Hres & _).
  exists self', s'. split; [exact Hrun|]. split.
  - exact (Hres (ring_patch 0) ltac:(by left)).
  - exact (Hres (ring_patch 1) ltac:(right; by left)).
Defined.

Section idempotent.
Variable self : Solver.t.
Let ps := Solver.patches self.
Let np := length ps.
Let ng := Solver.num_guard self.
Let bc := Solver.boundary_condition self.
Hypothesis Hng : 0 < ng.

Lemma with_guards_again L A R :
  length L = ng → length R = ng → 2 * ng ≤ length A →
  with_guards ng L (with_guards ng L A R) R = with_guards ng L A R.
Proof.
  intros HL HR HA. unfold with_guards at 1.
  rewrite length_with_guards by done. unfold with_guards.
  rewrite drop_app_length' by done.
  rewrite take_app_length' by (rewrite length_take, length_drop; lia). done.
Qed.

Lemma exchanged_ext A B i :
  (∀ j, j < np → A j = B j) → i < np →
  exchanged bc ng np A i = exchanged bc ng np B i.
Proof.
  intros E Hi. unfold exchanged.
  rewrite !E by (done || (apply Nat.mod_upper_bound; lia)). done.
Qed.

Lemma exchanged_again A i :
  (∀ j, j < np → 3 * ng ≤ length (A j)) → i < np →
  exchanged bc ng np (exchanged bc ng np A) i = exchanged bc ng np A i.
Proof.
  intros HA Hi.
  destruct (exchanged_guards_length self Hng A HA i Hi) as [HL HR].
  assert ((i + np - 1) mod np < np ∧ (i + np + 1) mod np < np) as [Hl Hr]
    by (split; apply Nat.mod_upper_bound; lia).
  unfold exchanged at 1.
  rewrite !(left_edge_exchanged self Hng A HA), !(right_edge_exchanged self Hng A HA) by done.
  unfold exchanged. apply with_guards_again; [done..|].
  pose proof (HA i Hi). lia.
Qed.
End idempotent.

(** X21: the guard exchange is idempotent.  On a solver whose patches own
    distinct buffers of at least [ng] interior rows, the state the exchange
    leaves is a fixed point of the exchange: a second exchange returns
    without an error and changes nothing, since the guards are filled from
    interior rows, which the exchange never writes. *)
Theorem exchange_guards_idempotent (self : Solver.t) (s : state patch_array) :
  let ps := Solver.patches self in
  let ng := Solver.num_guard self in
  Solver.boundary_condition self ∈ ["periodic"; "outflow"] → 0 < ng →
  NoDup (ps ≫= patch_buffers) →
  (∀ p l, p ∈ ps → l ∈ patch_buffers p → is_Some (arrays s !! l)) →
  (∀ p, p ∈ ps →
     3 * ng ≤ length (array_of s (Patch.primitive1 p)) ∧
     3 * ng ≤ length (array_of s (Patch.conserved1 p))) →
  ∃ s1,
    Solver.exchange_guards self s = (Ok (), s1) ∧
    Solver.exchange_guards self s1 = (Ok (), s1).
Proof.
  intros ps ng Hbc Hng Hnd Hsome Hlen.
  destruct (exchange_guards_run self s Hbc Hng Hnd Hsome Hlen)
    as (s1 & Hrun1 & Htr1 & Hex1 & Hfr1).
  fold ps ng in Hex1, Hfr1.
  set (np := length ps) in *. set (bc := Solver.boundary_condition self) in *.
  set (AP := λ j, array_of s (Patch.primitive1 (ps !!! j))) in *.
  set (AC := λ j, array_of s (Patch.conserved1 (ps !!! j))) in *.
  assert (∀ j, j < np → ps !!! j ∈ ps) as Hin.
  { intros j Hj. apply list_elem_of_lookup_total_2. done. }
  assert (∀ j, j < np → 3 * ng ≤ length (AP j)) as HAP by (intros j Hj; by apply Hlen, Hin).
  assert (∀ j, j < np → 3 * ng ≤ length (AC j)) as HAC by (intros j Hj; by apply Hlen, Hin).
  assert (∀ j, j < np → array_of s1 (Patch.primitive1 (ps !!! j)) = exchanged bc ng np AP j)
    as EP by (intros j Hj; unfold array_of; by rewrite (proj1 (Hex1 j Hj))).
  assert (∀ j, j < np → array_of s1 (Patch.conserved1 (ps !!! j)) = exchanged bc ng np AC j)
    as EC by (intros j Hj; unfold array_of; by rewrite (proj2 (Hex1 j Hj))).
  assert (∀ p, p ∈ ps → ∃ j, j < np ∧ ps !!! j = p) as Hidx.
  { intros p Hp. apply list_elem_of_lookup in Hp as [j Hj]. exists j.
    split; [by eapply lookup_lt_Some | by apply list_lookup_total_correct]. }
  assert (∀ p l, p ∈ ps → l ∈ patch_buffers p → is_Some (arrays s1 !! l)) as Hsome1.
  { intros p l Hp Hl. destruct (Hidx p Hp) as (j & Hj & <-).
    destruct (decide (l = Patch.primitive1 (ps !!! j))) as [-> | N1];
      [rewrite (proj1 (Hex1 j Hj)); by eexists|].
    destruct (decide (l = Patch.conserved1 (ps !!! j))) as [-> | N2];
      [rewrite (proj2 (Hex1 j Hj)); by eexists|].
    rewrite Hfr1; [by apply (Hsome (ps !!! j))|].
    intros q Hq. destruct (Hidx q Hq) as (j' & Hj' & <-).
    apply list_elem_of_lookup in Hl as [a Ha].
    split; intros ->.
    - destruct (buffers_inj ps j j' _ _ a 0 _ Hnd
                  (list_lookup_lookup_total_lt _ _ Hj) (list_lookup_lookup_total_lt _ _ Hj')
                  Ha eq_refl) as [-> _]. done.
    - destruct (buffers_inj ps j j' _ _ a 2 _ Hnd
                  (list_lookup_lookup_total_lt _ _ Hj) (list_lookup_lookup_total_lt _ _ Hj')
                  Ha eq_refl) as [-> _]. done. }
  assert (∀ p, p ∈ ps →
            3 * ng ≤ length (array_of s1 (Patch.primitive1 p)) ∧
            3 * ng ≤ length (array_of s1 (Patch.conserved1 p))) as Hlen1.
  { intros p Hp. destruct (Hidx p Hp) as (j & Hj & <-). rewrite EP, EC by done.
    rewrite !(length_exchanged self Hng) by done. split; [by apply HAP | by apply HAC]. }
  destruct (exchange_guards_run self s1 Hbc Hng Hnd Hsome1 Hlen1)
    as (s2 & Hrun2 & Htr2 & Hex2 & Hfr2).
  fold ps ng np bc in Hex2, Hfr2.
  exists s1. split; [exact Hrun1|]. rewrite Hrun2. f_equal.
  destruct s1 as [m1 t1], s2 as [m2 t2]. cbn in *. f_equal; [|done].
  apply map_eq. intros l.
  destruct (decide (l ∈ (Patch.primitive1 <$> ps) ++ (Patch.conserved1 <$> ps))) as [Hl | N].
  - apply elem_of_app in Hl as [Hl | Hl];
      apply list_elem_of_fmap in Hl as (p & -> & Hp);
      destruct (Hidx p Hp) as (j & Hj & <-).
    + rewrite (proj1 (Hex2 j Hj)), (proj1 (Hex1 j Hj)). apply (f_equal Some).
      etrans; [apply (exchanged_ext self Hng _ (exchanged bc ng np AP)); done|].
      by apply (exchanged_again self Hng).
    + rewrite (proj2 (Hex2 j Hj)), (proj2 (Hex1 j Hj)). apply (f_equal Some).
      etrans; [apply (exchanged_ext self Hng _ (exchanged bc ng np AC)); done|].
      by apply (exchanged_again self Hng).
  - apply Hfr2. intros p Hp.
    split; intros ->; apply N; rewrite elem_of_app; [left | right];
      apply list_elem_of_fmap; eauto.
Qed.

Lemma exchange_guards_idempotent_witness :
  "outflow" ∈ ["periodic"; "outflow"] ∧ 0 < 2 ∧
  NoDup ([ring_patch 0; ring_patch 1; ring_patch 2] ≫= patch_buffers) ∧
  ∃ s1,
    Solver.exchange_guards (ring_solver "outflow") full_ring_state = (Ok (), s1) ∧
    Solver.exchange_guards (ring_solver "outflow") s1 = (Ok (), s1).
Proof.
  assert (H1 : "outflow" ∈ ["periodic"; "outflow"]) by (vm_compute; repeat constructor).
  assert (H2 : 0 < 2) by lia.
  assert (H3 : NoDup ([ring_patch 0; ring_patch 1; ring_patch 2] ≫= patch_buffers))
    by (apply (bool_decide_unpack _); vm_compute; exact I).
  assert (H4 : ∀ p l, p ∈ [ring_patch 0; ring_patch 1; ring_patch 2] → l ∈ patch_buffers p →
                 is_Some (arrays full_ring_state !! l)).
  { intros p l Hp Hl. eexists. exact (full_ring_buffers p l Hp Hl). }
  assert (H5 : ∀ p, p ∈ [ring_patch 0; ring_patch 1; ring_patch 2] →
                 3 * 2 ≤ length (array_of full_ring_state (Patch.primitive1 p)) ∧
                 3 * 2 ≤ length (array_of full_ring_state (Patch.conserved1 p))).
  { intros p Hp. rewrite !elem_of_cons, elem_of_nil in Hp.
    destruct Hp as [-> | [-> | [-> | []]]];
      split; apply (bool_decide_unpack _); vm_compute; exact I. }
  split; [exact H1|]. split; [exact H2|]. split; [exact H3|].
  exact (exchange_guards_idempotent (ring_solver "outflow") full_ring_state H1 H2 H3 H4 H5).
Defined.

(** ** Configuration maps *)

Section dicts.
Context {X : Type}.
Implicit Types (d l : list (string * X)) (k : string).

Lemma dict_set_keys d k v :
  (dict_set d k v).*1 = if decide (k ∈ d.*1) then d.*1 else d.*1 ++ [k].
Proof.
  unfold dict_set. case_decide as Hk.
  - rewrite <- list_fmap_compose. apply list_fmap_ext. intros i [k' v'] _. cbn.
    by case_decide.
  - by rewrite fmap_app.
Qed.

Lemma dict_set_NoDup d k v : NoDup d.*1 → NoDup (dict_set d k v).*1.
Proof.
  intros Hnd. rewrite dict_set_keys. case_decide as Hk; [done|].
  apply NoDup_app. split; [done|]. split; [|apply NoDup_singleton].
  intros k' Hk' Hin. apply list_elem_of_singleton in Hin as ->. done.
Qed.

Lemma foldl_dict_set_NoDup l : ∀ d,
  NoDup d.*1 → NoDup (foldl (λ d kv, dict_set d kv.1 kv.2) d l).*1.
Proof.
  induction l as [|[k v] l IH]; intros d Hd; [done|].
  cbn. apply IH. by apply dict_set_NoDup.
Qed.

(** A dict has no two items of one key. *)
Lemma dict_of_NoDup l : NoDup (dict_of l).*1.
Proof. apply foldl_dict_set_NoDup. constructor. Qed.

Lemma foldl_dict_set_fresh l : ∀ d,
  NoDup (d.*1 ++ l.*1) → foldl (λ d kv, dict_set d kv.1 kv.2) d l = d ++ l.
Proof.
  induction l as [|[k v] l IH]; intros d Hd; [by rewrite app_nil_r|].
  cbn in *. rewrite IH.
  - unfold dict_set. rewrite decide_False; [by rewrite <- app_assoc|].
    apply NoDup_app in Hd as (_ & Hd & _). intros Hin. apply (Hd k Hin). by left.
  - unfold dict_set. apply NoDup_app in Hd as (H1 & H2 & H3).
    rewrite decide_False by (intros Hin; apply (H2 k Hin); by left).
    rewrite fmap_app. cbn. rewrite <- app_assoc. cbn.
    apply NoDup_app. split; [done|]. split; [|done]. done.
Qed.

(** Items of distinct keys make the dict of those items, in their order. *)
Lemma dict_of_distinct l : NoDup l.*1 → dict_of l = l.
Proof. intros Hl. unfold dict_of. by rewrite foldl_dict_set_fresh. Qed.

Lemma dict_of_idemp l : dict_of (dict_of l) = dict_of l.
Proof. apply dict_of_distinct, dict_of_NoDup. Qed.

Lemma map_keys_keys f l : (map_keys f l).*1 = f <$> l.*1.
Proof. unfold map_keys. rewrite <- !list_fmap_compose. by apply list_fmap_ext. Qed.

Lemma dict_set_map_keys f `{!Inj (=) (=) f} d k v :
  dict_set (map_keys f d) (f k) v = map_keys f (dict_set d k v).
Proof.
  unfold dict_set. rewrite map_keys_keys.
  destruct (decide (k ∈ d.*1)) as [Hk | Hk].
  - rewrite decide_True by by apply list_elem_of_fmap_2.
    unfold map_keys. rewrite <- !list_fmap_compose. apply list_fmap_ext.
    intros i [k' v'] _. cbn. destruct (decide (k' = k)) as [-> | N].
    + by rewrite decide_True.
    + rewrite decide_False; [done|]. intros E. by apply (inj f) in E.
  - rewrite decide_False.
    + unfold map_keys. by rewrite fmap_app.
    + intros Hin. apply list_elem_of_fmap in Hin as (k' & E & Hk'). apply (inj f) in E.
      by subst.
Qed.

Lemma foldl_dict_set_map_keys f `{!Inj (=) (=) f} l : ∀ d,
  foldl (λ d kv, dict_set d kv.1 kv.2) (map_keys f d) (map_keys f l)
  = map_keys f (foldl (λ d kv, dict_set d kv.1 kv.2) d l).
Proof.
  induction l as [|[k v] l IH]; intros d; [done|].
  cbn. rewrite dict_set_map_keys by done. apply IH.
Qed.

(** Renaming the keys one to one commutes with building the dict. *)
Lemma dict_of_map_keys f `{!Inj (=) (=) f} l :
  dict_of (map_keys f l) = map_keys f (dict_of l).
Proof. apply (foldl_dict_set_map_keys f l []). Qed.

Lemma dict_get_elem_of d k v : NoDup d.*1 → (k, v) ∈ d → dict_get d k = Some v.
Proof.
  induction d as [|[k' v'] d IH]; intros Hnd Hin; [by apply elem_of_nil in Hin|].
  cbn in *. apply NoDup_cons in Hnd as [Hk' Hnd].
  apply elem_of_cons in Hin as [[= -> ->] | Hin].
  - by rewrite decide_True.
  - rewrite decide_False; [by apply IH|].
    intros ->. apply Hk'. apply list_elem_of_fmap. by exists (k, v).
Qed.

Lemma dict_get_Some_elem_of d k v : dict_get d k = Some v → (k, v) ∈ d.
Proof.
  induction d as [|[k' v'] d IH]; intros E; [done|].
  cbn in E. case_decide as Hk; [injection E as ->; subst; by left|].
  right. by apply IH.
Qed.
Lemma dict_set_elem_of d k v kv : kv ∈ dict_set d k v → kv ∈ d ∨ kv = (k, v).
Proof.
  unfold dict_set. case_decide.
  - intros [kv' [-> H']]%list_elem_of_fmap. case_decide; [by right | by left].
  - rewrite elem_of_app, list_elem_of_singleton. done.
Qed.

Lemma foldl_dict_set_elem_of l : ∀ d kv,
  kv ∈ foldl (λ d kv, dict_set d kv.1 kv.2) d l → kv ∈ d ∨ kv ∈ l.
Proof.
  induction l as [|[k v] l IH]; intros d kv H; [by left|].
  cbn in H. apply IH in H as [H|H].
  - apply dict_set_elem_of in H as [H| ->]; [by left|]. right. apply elem_of_cons. by left.
  - right. apply elem_of_cons. by right.
Qed.

Lemma dict_of_elem_of l kv : kv ∈ dict_of l → kv ∈ l.
Proof.
  intros H. apply foldl_dict_set_elem_of in H as [H|H]; [|done]. by apply elem_of_nil in H.
Qed.

Lemma dict_of_keys l k : k ∈ (dict_of l).*1 → k ∈ l.*1.
Proof.
  intros [kv [-> H]]%list_elem_of_fmap. apply list_elem_of_fmap. exists kv. split; [done|].
  by apply dict_of_elem_of.
Qed.

Lemma map_keys_app f l1 l2 : map_keys f (l1 ++ l2) = map_keys f l1 ++ map_keys f l2.
Proof. apply fmap_app. Qed.
End dicts.

Section strings.
Implicit Types (a b c k e t : string).

Lemma str_app_assoc a b c : (a +:+ b) +:+ c = a +:+ (b +:+ c).
Proof.
  induction a as [|x a IH]; [done|].
  change (String x ((a +:+ b) +:+ c) = String x (a +:+ (b +:+ c))). by rewrite IH.
Qed.

Lemma str_app_nil_r a : a +:+ "" = a.
Proof.
  induction a as [|x a IH]; [done|]. change (String x (a +:+ "") = String x a). by rewrite IH.
Qed.

Lemma str_app_ne_nil a b : a ≠ "" → a +:+ b ≠ "".
Proof. by destruct a. Qed.

Lemma dot_string t : "." +:+ t = String dot t.
Proof. reflexivity. Qed.

(** Two dot-free keys followed by key ends make the same string only if
    they are the same key. *)
Lemma plain_prefix_unique k k' e e' :
  index_of dot k = None → index_of dot k' = None → key_end e → key_end e' →
  k +:+ e = k' +:+ e' → k = k' ∧ e = e'.
Proof.
  revert k'. induction k as [|x k IH]; intros k' Hk Hk' He He' E.
  - destruct k' as [|x' k']; [done|]. cbn in *.
    case_decide as Hx; [done|].
    destruct He as [-> | [t ->]]; [done|]. rewrite dot_string in E.
    injection E as E _. by subst.
  - cbn in Hk. case_decide as Hx; [done|].
    destruct k' as [|x' k'].
    + cbn in E. destruct He' as [-> | [t ->]]; [done|]. rewrite dot_string in E.
      injection E as E _. by subst.
    + cbn in Hk'. case_decide as Hx'; [done|]. cbn in E. injection E as -> E.
      destruct (index_of dot k) eqn:E1; [done|]. destruct (index_of dot k') eqn:E2; [done|].
      destruct (IH k' eq_refl E2 He He' E) as [-> ->]. done.
Qed.

Lemma index_of_dot_app k t :
  index_of dot k = None → index_of dot (k +:+ "." +:+ t) = Some (String.length k).
Proof.
  induction k as [|x k IH]; intros Hk.
  { reflexivity. }
  change (index_of dot (String x (k +:+ "." +:+ t)) = Some (S (String.length k))).
  cbn [index_of] in *. case_decide; [done|].
  destruct (index_of dot k); [done|]. by rewrite IH.
Qed.

Lemma string_from_app k t : string_from (String.length k + 1) (k +:+ "." +:+ t) = t.
Proof. induction k as [|x k IH]; [done|]. exact IH. Qed.

Lemma prefix_under sec k key :
  index_of dot sec = None → under k key → String.prefix sec key = true →
  String.prefix sec k = true.
Proof.
  intros Hsec (e & He & ->). revert k. induction sec as [|c sec IH]; intros k.
  { by destruct k. }
  cbn [index_of] in Hsec. case_decide as Hc; [done|].
  destruct (index_of dot sec) eqn:E; [done|].
  destruct k as [|c' k].
  - destruct He as [-> | [t ->]]; [done|].
    change ("" +:+ "." +:+ t) with (String dot t). cbn [String.prefix].
    by destruct (Ascii.ascii_dec c dot).
  - change (String c' k +:+ e) with (String c' (k +:+ e)). cbn [String.prefix].
    destruct (Ascii.ascii_dec c c'); [|done]. by apply IH.
Qed.

Lemma prefix_app k t : String.prefix k (k +:+ t) = true.
Proof.
  induction k as [|x k IH]; [by destruct t|].
  change (String.prefix (String x k) (String x (k +:+ t)) = true).
  cbn [String.prefix]. by destruct (Ascii.ascii_dec x x).
Qed.
End strings.

Section flatten.
Context {V : Type}.
Implicit Types (d : config_dict V) (v : config V) (P K Q k sep key : string) (x : V).

Lemma config_dict_nested_ind (Q : config_dict V → Prop) :
  Q dnil →
  (∀ k x rest, Q rest → Q (dcons k (Leaf x) rest)) →
  (∀ k d' rest, Q d' → Q rest → Q (dcons k (Node d') rest)) →
  ∀ d, Q d.
Proof.
  intros H0 HL HN. fix IH 1. intros [|k [x|d'] rest].
  - exact H0.
  - apply HL, IH.
  - apply HN; apply IH.
Qed.

Lemma new_key_nil sep k : new_key "" sep k = k.
Proof. reflexivity. Qed.

Lemma new_key_under K sep k : K ≠ "" → new_key K sep k = K +:+ sep +:+ k.
Proof. intros. unfold new_key. by rewrite decide_False. Qed.

Lemma new_key_ne_nil P sep k : k ≠ "" → new_key P sep k ≠ "".
Proof.
  intros Hk. unfold new_key. case_decide; [done|]. by apply str_app_ne_nil.
Qed.

Lemma new_key_ne_nil' K sep k : K ≠ "" → new_key K sep k ≠ "".
Proof. intros. rewrite new_key_under by done. by apply str_app_ne_nil. Qed.

Lemma new_key_app Q K sep k :
  K ≠ "" → new_key (Q +:+ K) sep k = Q +:+ new_key K sep k.
Proof.
  intros HK. rewrite !new_key_under, ?str_app_assoc; [done..|].
  destruct Q; [done|]. done.
Qed.

Lemma flatten_items_app Q sep d : ∀ K,
  K ≠ "" →
  flatten_items d (Q +:+ K) sep = map_keys (String.append Q) (flatten_items d K sep).
Proof.
  induction d as [|k x rest IH|k d' rest IH' IH] using config_dict_nested_ind;
    intros K HK; cbn [flatten_items]; [done|..].
  - rewrite map_keys_app, IH, new_key_app by done. done.
  - rewrite map_keys_app, IH, new_key_app by done. f_equal.
    rewrite IH', dict_of_map_keys; [done|apply _|].
    rewrite new_key_under by done. by apply str_app_ne_nil.
Qed.

Lemma flatten_items_section sec sep d :
  sec ≠ "" → named_sections d →
  flatten_items d sec sep = map_keys (String.append (sec +:+ sep)) (flatten_items d "" sep).
Proof.
  intros Hsec. induction d as [|k v rest IH]; [done|]. intros [Hk Hrest].
  cbn [flatten_items]. rewrite map_keys_app, IH by done. f_equal.
  rewrite new_key_under, new_key_nil by done. rewrite <- str_app_assoc.
  destruct v as [x|d']; [done|].
  rewrite flatten_items_app, dict_of_map_keys; [done|apply _|done].
Qed.

Lemma flatten_items_keys_under sep d : ∀ K key,
  K ≠ "" → key ∈ (flatten_items d K sep).*1 → ∃ t, key = K +:+ sep +:+ t.
Proof.
  induction d as [|k x rest IH|k d' rest IH' IH] using config_dict_nested_ind;
    intros K key HK; cbn [flatten_items]; rewrite ?fmap_app, ?elem_of_app.
  - by intros ?%elem_of_nil.
  - intros [H|H]; [|by apply IH].
    apply list_elem_of_singleton in H as ->. exists k. by apply new_key_under.
  - intros [H|H]; [|by apply IH].
    apply dict_of_keys, IH' in H as [t ->]; [|by apply new_key_ne_nil'].
    rewrite new_key_under by done. exists (k +:+ sep +:+ t).
    by rewrite !str_app_assoc.
Qed.

Lemma plain_dict_keys d k : plain_dict d → k ∈ config_keys d → plain_key k.
Proof.
  induction d as [|k' v rest IH]; cbn; [by intros _ ?%elem_of_nil|].
  intros (Hk & _ & _ & Hrest) [->|H]%elem_of_cons; auto.
Qed.

Lemma plain_dict_named d : plain_dict d → named_sections d.
Proof.
  induction d as [|k' v rest IH]; [done|]. cbn.
  intros ([Hk _] & _ & _ & Hrest). split; [by destruct v|auto].
Qed.

Lemma flatten_item_under P k v key :
  k ≠ "" →
  key ∈ (match v with
         | Node d' => dict_of (flatten_items d' (new_key P "." k) ".")
         | Leaf x => [(new_key P "." k, x)]
         end).*1 →
  under (new_key P "." k) key.
Proof.
  intros Hk. destruct v as [x|d'].
  - intros ->%list_elem_of_singleton. exists "". split; [by left|]. by rewrite str_app_nil_r.
  - intros [t ->]%dict_of_keys%flatten_items_keys_under; [|by apply new_key_ne_nil].
    exists ("." +:+ t). split; [right; by exists t|done].
Qed.

Lemma flatten_items_under P d key :
  plain_dict d → key ∈ (flatten_items d P ".").*1 →
  ∃ k, k ∈ config_keys d ∧ under (new_key P "." k) key.
Proof.
  induction d as [|k v rest IH]; cbn [flatten_items plain_dict config_keys].
  { by intros _ ?%elem_of_nil. }
  intros ([Hk _] & _ & _ & Hrest). rewrite fmap_app, elem_of_app. intros [H|H].
  - exists k. split; [apply elem_of_cons; by left|].
    by apply (flatten_item_under P k v).
  - destruct (IH Hrest H) as (k' & Hk' & Hu). exists k'. split; [|done].
    apply elem_of_cons. by right.
Qed.

Lemma under_inj P k k' key :
  plain_key k → plain_key k' →
  under (new_key P "." k) key → under (new_key P "." k') key → k = k'.
Proof.
  intros [_ Hk] [_ Hk'] (e & He & ->) (e' & He' & E).
  unfold new_key in E. case_decide.
  - by destruct (plain_prefix_unique k k' e e' Hk Hk' He He' E).
  - rewrite !str_app_assoc in E. apply (inj _) in E. apply (inj (String.append ".")) in E.
    by destruct (plain_prefix_unique k k' e e' Hk Hk' He He' E).
Qed.

Lemma flatten_items_NoDup P d : plain_dict d → NoDup (flatten_items d P ".").*1.
Proof.
  induction d as [|k v rest IH]; cbn [flatten_items plain_dict]; [constructor|].
  intros (Hk & Hnew & Hv & Hrest). rewrite fmap_app. apply NoDup_app. split_and!.
  - destruct v; [apply NoDup_singleton|apply dict_of_NoDup].
  - intros key Hkey%(flatten_item_under P k v); [|by destruct Hk].
    intros (k' & Hk' & Hu)%flatten_items_under; [|done].
    apply Hnew. by rewrite (under_inj P k k' key Hk (plain_dict_keys rest k' Hrest Hk') Hkey Hu).
  - auto.
Qed.

Lemma flatten_dict_items P d : plain_dict d → flatten_dict d P "." = flatten_items d P ".".
Proof. intros. by apply dict_of_distinct, flatten_items_NoDup. Qed.

Lemma config_get_keys d k v : config_get d k = Some v → k ∈ config_keys d.
Proof.
  induction d as [|k' v' rest IH]; [done|]. cbn. rewrite elem_of_cons.
  case_decide; [by left|]. right. auto.
Qed.

Lemma nested_get_head d k path v : nested_get d (k :: path) = Some v → k ∈ config_keys d.
Proof.
  cbn. destruct path.
  - apply config_get_keys.
  - destruct (config_get d k) as [c|] eqn:E; [|done]. intros _. by apply config_get_keys in E.
Qed.

Lemma nested_get_here k v rest path :
  nested_get (dcons k v rest) (k :: path)
  = match path with
    | [] => Some v
    | _ => match v with Node d' => nested_get d' path | Leaf _ => None end
    end.
Proof. cbn. rewrite decide_True by done. by destruct path, v. Qed.

Lemma nested_get_later k v rest k' path :
  k ≠ k' → nested_get (dcons k v rest) (k' :: path) = nested_get rest (k' :: path).
Proof. intros. cbn. by rewrite decide_False. Qed.

Lemma join_path_cons P k k' path :
  k ≠ "" →
  new_key P "." (join_path (k :: k' :: path))
  = new_key (new_key P "." k) "." (join_path (k' :: path)).
Proof.
  intros Hk. rewrite (new_key_under (new_key _ _ _)) by by apply new_key_ne_nil.
  change (join_path (k :: k' :: path)) with (k +:+ "." +:+ join_path (k' :: path)).
  unfold new_key. case_decide; [done|]. by rewrite !str_app_assoc.
Qed.

(** Every leaf of a plain configuration is an item of the flattening. *)
Lemma flatten_items_leaf d : ∀ P path x,
  plain_dict d → nested_get d path = Some (Leaf x) →
  (new_key P "." (join_path path), x) ∈ flatten_items d P ".".
Proof.
  induction d as [|k y rest IH|k d' rest IH' IH] using config_dict_nested_ind;
    intros P [|k1 path] x; try done.
  { by destruct path. }
  - intros (Hk & Hnew & _ & Hrest). cbn [flatten_items]. rewrite elem_of_app.
    destruct (decide (k = k1)) as [<-|Hne].
    + rewrite nested_get_here. destruct path; [|done]. intros [= ->]. left.
      by apply list_elem_of_singleton.
    + rewrite nested_get_later by done. right. by apply IH.
  - intros ([Hk Hdot] & Hnew & Hd' & Hrest). cbn [flatten_items]. rewrite elem_of_app.
    destruct (decide (k = k1)) as [<-|Hne].
    + rewrite nested_get_here. destruct path as [|k2 path]; [done|]. intros Hget. left.
      fold (flatten_dict d' (new_key P "." k) "."). rewrite flatten_dict_items by done.
      rewrite join_path_cons by done. by apply IH'.
    + rewrite nested_get_later by done. right. by apply IH.
Qed.

(** Every item of the flattening of a plain configuration is a leaf. *)
Lemma flatten_items_inv d : ∀ P key x,
  plain_dict d → (key, x) ∈ flatten_items d P "." →
  ∃ path, key = new_key P "." (join_path path) ∧ nested_get d path = Some (Leaf x).
Proof.
  induction d as [|k y rest IH|k d' rest IH' IH] using config_dict_nested_ind;
    intros P key x.
  { by intros _ ?%elem_of_nil. }
  - intros (Hk & Hnew & _ & Hrest). cbn [flatten_items]. rewrite elem_of_app.
    intros [[= -> ->]%list_elem_of_singleton|H].
    + exists [k]. split; [done|]. by rewrite nested_get_here.
    + destruct (IH P key x Hrest H) as ([|k1 path] & -> & Hget); [done|].
      exists (k1 :: path). split; [done|]. rewrite nested_get_later; [done|].
      intros ->. by apply Hnew, (nested_get_head rest k1 path (Leaf x)).
  - intros ([Hk Hdot] & Hnew & Hd' & Hrest). cbn [flatten_items]. rewrite elem_of_app.
    intros [H|H].
    + apply dict_of_elem_of in H.
      destruct (IH' _ key x Hd' H) as ([|k1 path] & -> & Hget); [done|].
      exists (k :: k1 :: path). split; [by rewrite join_path_cons|].
      by rewrite nested_get_here.
    + destruct (IH P key x Hrest H) as ([|k1 path] & -> & Hget); [done|].
      exists (k1 :: path). split; [done|]. rewrite nested_get_later; [done|].
      intros ->. by apply Hnew, (nested_get_head rest k1 path (Leaf x)).
Qed.

(** X22: [flatten_dict], as its docstring says, has [e['a.b.c'] = d['a']['b']['c']]:
    for a configuration whose keys are, at every level, distinct, non-empty
    and free of dots, the flattened dict holds [x] under a key exactly when
    the key is the dotted path of a leaf [x]. *)
Theorem flatten_dict_lookup d key x :
  plain_dict d →
  dict_get (flatten_dict d "" ".") key = Some x
  ↔ ∃ path, key = join_path path ∧ nested_get d path = Some (Leaf x).
Proof.
  intros Hd. rewrite flatten_dict_items by done. split.
  - intros H%dict_get_Some_elem_of. by apply (flatten_items_inv d "").
  - intros (path & -> & Hget). apply dict_get_elem_of; [by apply flatten_items_NoDup|].
    by apply (flatten_items_leaf d "").
Qed.
End flatten.

Section sections.
Context {X : Type}.
Implicit Types (r l d : list (string * X)) (sec k : string).

Lemma dict_section_raise sec e l :
  foldl (dict_section_item sec) (Raise e) l = Raise (T := list (string * X)) e.
Proof. by induction l. Qed.

Lemma dict_section_skip sec r l :
  Forall (λ kv, String.prefix sec kv.1 = false) l →
  foldl (dict_section_item sec) (Ok r) l = Ok r.
Proof.
  induction 1 as [|kv l Hkv _ IH]; [done|]. cbn. by rewrite Hkv.
Qed.

Lemma dict_section_strip sec l : ∀ r,
  index_of dot sec = None →
  foldl (dict_section_item sec) (Ok r) (map_keys (String.append (sec +:+ ".")) l)
  = Ok (foldl (λ d kv, dict_set d kv.1 kv.2) r l).
Proof.
  induction l as [|[k v] l IH]; intros r Hsec; [done|].
  cbn [map_keys fmap list_fmap foldl dict_section_item fst snd].
  rewrite str_app_assoc, prefix_app, index_of_dot_app, string_from_app by done.
  by apply IH.
Qed.

Lemma dict_section_raises_from sec l e : ∀ r,
  foldl (dict_section_item sec) (Ok r) l = Raise e
  ↔ e = ValueError "substring not found"
    ∧ Exists (λ kv, String.prefix sec kv.1 = true ∧ index_of dot kv.1 = None) l.
Proof.
  induction l as [|kv l IH]; intros r.
  { cbn. split; [done|]. by intros [_ ?%Exists_nil]. }
  cbn [foldl dict_section_item]. rewrite Exists_cons.
  destruct (String.prefix sec kv.1) eqn:Hp; [destruct (index_of dot kv.1) eqn:Hi|].
  - rewrite IH. split; intros [He Hex]; (split; [done|]); [by right|].
    destruct Hex as [[_ Hbad]|Hex]; [congruence|done].
  - rewrite dict_section_raise. split; [intros [= <-]; split; [done|by left]|by intros [-> _]].
  - rewrite IH. split; intros [He Hex]; (split; [done|]); [by right|].
    destruct Hex as [[Hbad _]|Hex]; [congruence|done].
Qed.

(** X23: [dict_section] raises exactly when some key of the map starts with
    [section] and holds no dot, and the error is the ValueError of
    [k.index]. *)
Theorem dict_section_raises d sec e :
  dict_section d sec = Raise e
  ↔ e = ValueError "substring not found"
    ∧ Exists (λ kv, String.prefix sec kv.1 = true ∧ index_of dot kv.1 = None) d.
Proof. apply dict_section_raises_from. Qed.
End sections.

Section config_sections.
Context {V : Type}.
Implicit Types (d : config_dict V) (sec k : string).

Lemma prefix_skip sec k (l : list (string * V)) :
  index_of dot sec = None → String.prefix sec k = false →
  (∀ key, key ∈ l.*1 → under k key) →
  Forall (λ kv, String.prefix sec kv.1 = false) l.
Proof.
  intros Hdot Hk Hl. apply Forall_forall. intros kv Hkv.
  destruct (String.prefix sec kv.1) eqn:Hp; [|done].
  rewrite <- Hk. symmetry. apply (prefix_under sec k kv.1); [done| |done].
  apply Hl, list_elem_of_fmap. by exists kv.
Qed.

Lemma flatten_items_skip sec d :
  index_of dot sec = None → plain_dict d →
  (∀ k, k ∈ config_keys d → String.prefix sec k = false) →
  Forall (λ kv, String.prefix sec kv.1 = false) (flatten_items d "" ".").
Proof.
  intros Hdot Hd Hkeys. apply Forall_forall. intros kv Hkv.
  destruct (flatten_items_under "" d kv.1 Hd) as (k & Hk & Hu).
  { apply list_elem_of_fmap. by exists kv. }
  destruct (String.prefix sec kv.1) eqn:Hp; [|done].
  rewrite <- (Hkeys k Hk). symmetry. by apply (prefix_under sec k kv.1).
Qed.

Lemma prefix_refl sec : String.prefix sec sec = true.
Proof. rewrite <- (str_app_nil_r sec) at 2. apply prefix_app. Qed.

Lemma dict_section_items sec d : ∀ r,
  plain_dict d → plain_key sec →
  (∀ k, k ∈ config_keys d → String.prefix sec k = true → k = sec) →
  foldl (dict_section_item sec) (Ok r) (flatten_items d "" ".")
  = match config_get d sec with
    | Some (Node d') =>
        Ok (foldl (λ acc kv, dict_set acc kv.1 kv.2) r (flatten_dict d' "" "."))
    | Some (Leaf _) => Raise (ValueError "substring not found")
    | None => Ok r
    end.
Proof.
  intros r Hd [Hsec Hdot]. revert r.
  induction d as [|k v rest IH]; intros r Hother; [done|].
  destruct Hd as (Hk & Hnew & Hv & Hrest).
  cbn [flatten_items config_get]. rewrite foldl_app, new_key_nil.
  case_decide as Hks.
  - subst k. destruct v as [x|d'].
    + cbn [foldl dict_section_item fst]. rewrite prefix_refl, Hdot.
      apply dict_section_raise.
    + rewrite flatten_items_section by (done || by apply plain_dict_named).
      rewrite dict_of_map_keys by apply _. rewrite dict_section_strip by done.
      apply dict_section_skip, flatten_items_skip; [done..|].
      intros k' Hk'. destruct (String.prefix sec k') eqn:Hp; [|done].
      destruct Hnew. rewrite <- (Hother k'); [done| |done]. apply elem_of_cons. by right.
  - rewrite dict_section_skip.
    + apply IH; [done|]. intros k' Hk'. apply Hother, elem_of_cons. by right.
    + apply (prefix_skip sec k); [done| |].
      * destruct (String.prefix sec k) eqn:Hp; [|done]. destruct Hks.
        apply Hother; [|done]. apply elem_of_cons. by left.
      * intros key Hkey. destruct Hk as [Hk _].
        by apply (flatten_item_under "" k v key Hk).
Qed.

(** X24: [dict_section] of a flattened configuration takes one section out.
    When the keys of [d] are, at every level, distinct, non-empty and free
    of dots, [d[section]] is a dict and no other top-level key starts
    with [section], the result is the flattening of [d[section]]. *)
Theorem dict_section_flatten_dict d sec d' :
  plain_dict d → config_get d sec = Some (Node d') →
  (∀ k, k ∈ config_keys d → String.prefix sec k = true → k = sec) →
  dict_section (flatten_dict d "" ".") sec = Ok (flatten_dict d' "" ".").
Proof.
  intros Hd Hget Hother. rewrite flatten_dict_items by done. unfold dict_section.
  rewrite dict_section_items, Hget; [|done|by eapply plain_dict_keys, config_get_keys|done].
  f_equal. apply dict_of_idemp.
Qed.

(** X25: a section that is not a dict makes [dict_section] raise: when
    [d[section]] is a leaf, its flat key is [section] itself, which holds no
    dot, and [k.index] raises ValueError. *)
Theorem dict_section_leaf_raises d sec x :
  plain_dict d → config_get d sec = Some (Leaf x) →
  (∀ k, k ∈ config_keys d → String.prefix sec k = true → k = sec) →
  dict_section (flatten_dict d "" ".") sec = Raise (ValueError "substring not found").
Proof.
  intros Hd Hget Hother. rewrite flatten_dict_items by done. unfold dict_section.
  by rewrite dict_section_items, Hget; [|done|by eapply plain_dict_keys, config_get_keys|done].
Qed.
End config_sections.

Lemma config_example_plain : plain_dict config_example.
Proof.
  cbn. unfold plain_key.
  repeat split; try done; apply (bool_decide_unpack _); vm_compute; exact I.
Qed.

Lemma config_example_keys sec :
  sec ∈ ["driver"; "verbose"] →
  ∀ k, k ∈ config_keys config_example → String.prefix sec k = true → k = sec.
Proof.
  intros Hsec k Hk Hp. cbn in Hk. rewrite !elem_of_cons in Hsec. rewrite !elem_of_cons in Hk.
  destruct Hsec as [->|[->|?%elem_of_nil]]; [| |done];
    destruct Hk as [->|[->|[->|?%elem_of_nil]]]; try done; vm_compute in Hp; done.
Qed.

Lemma flatten_dict_lookup_witness :
  dict_get (flatten_dict config_example "" ".") "driver.mesh.n" = Some 2
  ↔ ∃ path, "driver.mesh.n" = join_path path
      ∧ nested_get config_example path = Some (Leaf 2).
Proof. apply flatten_dict_lookup, config_example_plain. Defined.

Lemma dict_section_flatten_dict_witness :
  dict_section (flatten_dict config_example "" ".") "driver"
  = Ok (flatten_dict
          (dcons "nz" (Leaf 1) (dcons "mesh" (Node (dcons "n" (Leaf 2) dnil)) dnil))
          "" ".").
Proof.
  apply dict_section_flatten_dict; [apply config_example_plain|reflexivity|].
  apply config_example_keys, elem_of_cons. by left.
Defined.

Lemma dict_section_leaf_raises_witness :
  dict_section (flatten_dict config_example "" ".") "verbose"
  = Raise (ValueError "substring not found").
Proof.
  apply (dict_section_leaf_raises _ _ 0); [apply config_example_plain|reflexivity|].
  apply config_example_keys, elem_of_cons. right. apply elem_of_cons. by left.
Defined.

(** ** The 2D driver *)

Section loops2.
Context {T : Type} `{Inhabited T}.

Lemma FOR_RANGE_1D_insert_at (m : nat) (g : nat → T) (j0 j1 : nat) (l : list T) :
  FOR_RANGE_1D j0 j1 (λ j l, <[m + j := g j]> l) l
  = imap (λ k x, if bool_decide (m + j0 ≤ k < m + j1) then g (k - m) else x) l.
Proof.
  unfold FOR_RANGE_1D.
  transitivity (foldl (λ l k, <[k := g (k - m)]> l) l (seq (m + j0) (j1 - j0))).
  - generalize (j1 - j0) as n. intros n. revert l j0.
    induction n as [|n IH]; intros l j0; [done|].
    cbn. rewrite IH. replace (m + S j0) with (S (m + j0)) by lia.
    replace (m + j0 - m) with j0 by lia. done.
  - pose proof (FOR_RANGE_1D_insert (λ k, g (k - m)) (m + j0) (m + j0 + (j1 - j0)) l) as E.
    unfold FOR_RANGE_1D in E. replace (m + j0 + (j1 - j0) - (m + j0)) with (j1 - j0) in E by lia.
    rewrite E. apply imap_ext. intros k x _.
    apply (f_equal (λ b : bool, if b then _ else _)), bool_decide_ext.
    destruct (decide (j0 ≤ j1)); [lia|]. lia.
Qed.

Lemma foldl_rows_insert (g : nat → nat → T) (nj j0 j1 i0 n : nat) (l : list T) :
  j1 ≤ nj →
  foldl (λ l i, FOR_RANGE_1D j0 j1 (λ j l, <[i * nj + j := g i j]> l) l) l (seq i0 n)
  = imap (λ c x,
      if bool_decide (i0 ≤ c / nj < i0 + n ∧ j0 ≤ c mod nj < j1)
      then g (c / nj) (c mod nj) else x) l.
Proof.
  intros Hj. induction n as [|n IH].
  - cbn. apply list_eq. intros c. rewrite list_lookup_imap.
    rewrite bool_decide_eq_false_2 by lia. by destruct (l !! c).
  - rewrite seq_S, foldl_snoc, IH, FOR_RANGE_1D_insert_at.
    apply list_eq. intros c. rewrite !list_lookup_imap.
    destruct (l !! c) as [x|]; [cbn|done]. f_equal.
    pose proof (Nat.div_mod_eq c nj) as Hc.
    destruct (decide ((i0 + n) * nj + j0 ≤ c < (i0 + n) * nj + j1)) as [Hrow|Hrow].
    + assert (c / nj = i0 + n) as Eq.
      { symmetry. apply (Nat.div_unique c nj (i0 + n) (c - (i0 + n) * nj)); lia. }
      assert (c mod nj = c - (i0 + n) * nj) as Er by (rewrite Eq in Hc; lia).
      rewrite !bool_decide_eq_true_2 by lia. by rewrite Eq, Er.
    + rewrite (bool_decide_eq_false_2 _ Hrow).
      apply (f_equal (λ b : bool, if b then _ else _)), bool_decide_ext.
      split; [lia|]. intros [Hq Hr]. split; [|done].
      destruct (decide (c / nj = i0 + n)) as [Eq|]; [|lia].
      destruct Hrow. rewrite Eq in Hc. lia.
Qed.

Lemma FOR_RANGE_2D_insert (g : nat → nat → T) (nj i0 i1 j0 j1 : nat) (l : list T) :
  j1 ≤ nj →
  FOR_RANGE_2D i0 i1 j0 j1 (λ i j l, <[i * nj + j := g i j]> l) l
  = imap (λ c x,
      if bool_decide (i0 ≤ c / nj < i1 ∧ j0 ≤ c mod nj < j1)
      then g (c / nj) (c mod nj) else x) l.
Proof.
  intros Hj. unfold FOR_RANGE_2D. unfold FOR_RANGE_1D at 1.
  rewrite foldl_rows_insert by done. apply imap_ext. intros c x _.
  apply (f_equal (λ b : bool, if b then _ else _)), bool_decide_ext. lia.
Qed.
End loops2.

Section kernel2d.
Context {euler : lib_euler 2}.

Lemma same_frame_refl A : same_frame A A.
Proof. done. Qed.

Lemma same_frame_sym A B : same_frame A B → same_frame B A.
Proof.
  intros (E0 & E1 & El & G). repeat split; try done. intros c Hc. symmetry. apply G.
  by rewrite E0, E1.
Qed.

Lemma same_frame_trans A B C : same_frame A B → same_frame B C → same_frame A C.
Proof.
  intros (E0 & E1 & El & G) (E0' & E1' & El' & G').
  repeat split; try congruence. intros c Hc. rewrite G by done. apply G'.
  by rewrite <- E0, <- E1.
Qed.

Lemma zone_stage2d_same_frame self U dt dx θ A rk :
  same_frame A (zone_stage2d self U dt dx θ A rk).
Proof.
  unfold zone_stage2d. repeat split; cbn; [by rewrite length_imap|].
  intros c Hc. rewrite list_lookup_imap. destruct (cells2 A !! c); [cbn|done].
  by rewrite decide_False.
Qed.

Lemma zone_stages2d_same_frame self U dt dx θ rks :
  ∀ X, same_frame X (foldl (zone_stage2d self U dt dx θ) X rks).
Proof.
  induction rks as [|rk rks IH]; intros X; [apply same_frame_refl|].
  cbn [foldl]. eapply same_frame_trans; [apply zone_stage2d_same_frame|apply IH].
Qed.

Lemma kernel_stage2d self A B U dt dx rk θ :
  same_frame A B →
  Array2 (shape0 B) (shape1 B)
    (FluxPerZoneSolver2D.update_prim_kernel self (cells2 A) (cells2 B) U dt dx rk θ
       (shape0 A) (shape1 A))
  = zone_stage2d self U dt dx θ A rk.
Proof.
  intros (E0 & E1 & El & G). unfold zone_stage2d, FluxPerZoneSolver2D.update_prim_kernel.
  rewrite <- E0, <- E1. f_equal.
  rewrite FOR_RANGE_2D_insert by lia. apply list_eq. intros c.
  rewrite !list_lookup_imap. case_decide as Hc.
  - rewrite bool_decide_eq_true_2 by exact Hc.
    destruct (cells2 A !! c) as [x|] eqn:Hx.
    + destruct (lookup_lt_is_Some_2 (cells2 B) c) as [y ->]; [|done].
      rewrite <- El. by eapply lookup_lt_Some.
    + rewrite (proj2 (lookup_ge_None (cells2 B) c)); [done|].
      rewrite <- El. by apply lookup_ge_None.
  - rewrite bool_decide_eq_false_2 by exact Hc.
    rewrite <- (G c Hc). by destruct (cells2 A !! c).
Qed.

(** With the blend coefficient 0 the Runge-Kutta kernel computes what the
    forward kernel does, whatever [urk] holds. *)
Lemma ucc_rk0 s1 s2 X θ nj i j U1 U2 dt dx :
  plm s1 = plm s2 →
  FluxPerZoneSolver2D.ucc s1 X θ nj i j U1 dt dx 0%Qc
  = FluxPerZoneSolver2D.ucc s2 X θ nj i j U2 dt dx 0%Qc.
Proof.
  intros E. unfold FluxPerZoneSolver2D.ucc, FluxPerZoneSolver2D.pilp,
    FluxPerZoneSolver2D.picm, FluxPerZoneSolver2D.picp, FluxPerZoneSolver2D.pirm,
    FluxPerZoneSolver2D.pjlp, FluxPerZoneSolver2D.pjcm, FluxPerZoneSolver2D.pjcp,
    FluxPerZoneSolver2D.pjrm.
  rewrite E. apply for_q_ext. intros q.
  destruct (runge_kutta s1), (runge_kutta s2); try done; ring.
Qed.

Lemma zone_stage2d_rk0 s1 s2 U1 U2 dt dx θ X :
  plm s1 = plm s2 →
  zone_stage2d s1 U1 dt dx θ X 0%Qc = zone_stage2d s2 U2 dt dx θ X 0%Qc.
Proof.
  intros E. unfold zone_stage2d. f_equal. apply imap_ext. intros c pc _.
  case_decide; [|done]. f_equal. by apply ucc_rk0.
Qed.

Lemma prim_to_cons_array_kernel2d P U :
  length U = length P →
  FluxPerZoneSolver2D.prim_to_cons_array_kernel P U (length P) = prim_to_cons <$> P.
Proof.
  intros Hlen. unfold FluxPerZoneSolver2D.prim_to_cons_array_kernel, FOR_EACH_1D.
  rewrite FOR_RANGE_1D_insert. apply list_eq. intros c.
  rewrite list_lookup_imap, list_lookup_fmap.
  destruct (P !! c) as [x|] eqn:Hx.
  - destruct (lookup_lt_is_Some_2 U c) as [y ->].
    { rewrite Hlen. by eapply lookup_lt_Some. }
    cbn. rewrite bool_decide_eq_true_2.
    + f_equal. f_equal. by apply list_lookup_total_correct.
    + apply lookup_lt_Some in Hx. lia.
  - rewrite (proj2 (lookup_ge_None U c)); [done|].
    rewrite Hlen. by apply lookup_ge_None.
Qed.
End kernel2d.

Section runs2d.
Context {euler : lib_euler 2}.

Lemma zone2d_update_prim_run self (s : state array2) prd pwr urk PRD PWR URK dt dx rk θ :
  arrays s !! prd = Some PRD → arrays s !! pwr = Some PWR →
  from_option (λ l, arrays s !! l = Some URK) (URK = FluxPerZoneSolver2D.null2) urk →
  FluxPerZoneSolver2D.update_prim self prd pwr urk dt dx rk θ s
  = (Ok (), State (<[pwr := Array2 (shape0 PWR) (shape1 PWR)
                       (FluxPerZoneSolver2D.update_prim_kernel self (cells2 PRD)
                          (cells2 PWR) (cells2 URK) dt dx rk θ (shape0 PRD) (shape1 PRD))]>
                     (arrays s))
                  (launched s ++ [update_prim_launch [prd; pwr] urk rk])).
Proof.
  intros Hprd Hpwr Hurk. unfold FluxPerZoneSolver2D.update_prim.
  mrun ltac:(by apply read_ok). mrun ltac:(by apply read_ok).
  mrun ltac:(by apply read_opt_ok). done.
Qed.

Lemma zone2d_prim_to_cons_array_run (s : state array2) p u P U :
  arrays s !! p = Some P → arrays s !! u = Some U →
  FluxPerZoneSolver2D.prim_to_cons_array p u s
  = (Ok (), State (<[u := Array2 (shape0 U) (shape1 U)
                     (FluxPerZoneSolver2D.prim_to_cons_array_kernel (cells2 P) (cells2 U)
                        (shape0 P * shape1 P))]> (arrays s))
                  (launched s ++ [prim_to_cons_array_launch p u])).
Proof.
  intros Hp Hu. unfold FluxPerZoneSolver2D.prim_to_cons_array.
  mrun ltac:(by apply read_ok). mrun ltac:(by apply read_ok). done.
Qed.

Lemma zone2d_stages_run self urk U dt dx θ rks :
  ∀ (s : state array2) prd pwr X Y,
    prd ≠ pwr → urk ≠ prd → urk ≠ pwr →
    arrays s !! prd = Some X → arrays s !! pwr = Some Y →
    arrays s !! urk = Some U → same_frame X Y →
    ∃ s',
      for_in rks (λ rk '(prd, pwr),
        FluxPerZoneSolver2D.update_prim self prd pwr (Some urk) dt dx rk θ;;
        mret (pwr, prd)) (prd, pwr) s
      = (Ok (if Nat.even (length rks) then (prd, pwr) else (pwr, prd)), s') ∧
      arrays s' !! (if Nat.even (length rks) then prd else pwr)
      = Some (foldl (zone_stage2d self (cells2 U) dt dx θ) X rks) ∧
      (length rks ≤ 1 → arrays s' !! prd = Some X) ∧
      ∀ l, l ≠ prd → l ≠ pwr → arrays s' !! l = arrays s !! l.
Proof.
  induction rks as [|rk rks IH]; intros s prd pwr X Y Hne Hu1 Hu2 HX HY HU HG.
  - exists s. by cbn.
  - cbn [for_in].
    mrun ltac:(mrun ltac:(by eapply zone2d_update_prim_run); reflexivity).
    rewrite kernel_stage2d by done.
    set (X' := zone_stage2d self (cells2 U) dt dx θ X rk).
    edestruct (IH (State (<[pwr := X']> (arrays s))
                     (launched s ++ [update_prim_launch [prd; pwr] (Some urk) rk]))
                 pwr prd X' X) as (s' & Hrun & Hres & Hone & Hfr); try done.
    { cbn. by rewrite lookup_insert_eq. }
    { cbn. by rewrite lookup_insert_ne. }
    { cbn. by rewrite lookup_insert_ne. }
    { apply same_frame_sym, zone_stage2d_same_frame. }
    exists s'. rewrite Hrun. cbn [length]. rewrite Nat.even_succ, <- Nat.negb_even.
    split; [by destruct (Nat.even (length rks))|].
    split; [cbn [foldl]; fold X'; rewrite <- Hres; by destruct (Nat.even (length rks))|].
    split.
    + intros Hlen. destruct rks; [|cbn in Hlen; lia].
      cbn in Hrun. injection Hrun as <-. cbn. by rewrite lookup_insert_ne.
    + intros l Hl1 Hl2. rewrite Hfr by done. cbn. by rewrite lookup_insert_ne.
Qed.
End runs2d.

Section driver2d.
Context {euler1 : lib_euler 1} {euler : lib_euler 2} {mem : memory}.

Lemma empty_like2_run (s : state array2) xp p P :
  arrays s !! p = Some P →
  empty_like2 (Some xp) p s
  = (Ok (fresh (dom (arrays s))),
     State (<[fresh (dom (arrays s)) :=
                Array2 (shape0 P) (shape1 P)
                  (uninitialised (NCONS 2) (fresh (dom (arrays s)))
                     <$> seq 0 (length (cells2 P)))]> (arrays s))
           (launched s)).
Proof. intros Hp. unfold empty_like2. mrun ltac:(by apply read_ok). done. Qed.

Lemma update_prim2d_rk (s : state array2) p P dt dx recon θ ti exec rks :
  arrays s !! p = Some P → well_shaped P →
  recon ∈ ["pcm"; "plm"] → exec ∈ ["cpu"; "gpu"] →
  (ti, Some rks) ∈ [("rk1", Some [0%Qc]); ("rk2", Some [0%Qc; c0_5]);
                    ("rk3", Some [0; Q2Qc 3 / Q2Qc 4; 1 / Q2Qc 3]%Qc)] →
  let pwr := fresh (dom (arrays s)) in
  let r := if Nat.even (length rks) then p else pwr in
  ∃ s',
    update_prim2d p dt dx "per_zone" recon θ ti exec s = (Ok r, s') ∧
    arrays s' !! r
    = Some (foldl (zone_stage2d (solver_of ti recon) (prim_to_cons <$> cells2 P) dt dx θ)
              P rks) ∧
    p ≠ pwr ∧
    (length rks ≤ 1 → arrays s' !! p = Some P) ∧
    ∀ l, is_Some (arrays s !! l) → l ≠ p → arrays s' !! l = arrays s !! l.
Proof.
  intros Hp Hshape Hrecon Hexec Hti pwr r.
  set (urk := fresh (dom (<[pwr := P]> (arrays s)))).
  assert (ti ∈ ["fwd"; "rk1"; "rk2"; "rk3"] ∧ ti ≠ "fwd") as [Hti' Hfwd].
  { rewrite !elem_of_cons, elem_of_nil in Hti. rewrite !elem_of_cons.
    destruct Hti as [E | [E | [E | []]]]; injection E as -> _; split; auto; done. }
  assert (stage_coefficients (A:=array2) ti s = (Ok (Some rks), s)) as Hrks.
  { rewrite !elem_of_cons, elem_of_nil in Hti.
    destruct Hti as [E | [E | [E | []]]]; injection E as -> ->; reflexivity. }
  destruct (numpy_or_cupy_valid exec Hexec) as [xp Hxp].
  assert (p ≠ pwr) as Hne1 by (apply fresh_loc_ne; by eexists).
  assert (urk ≠ p) as Hne2.
  { apply not_eq_sym, fresh_loc_ne. rewrite lookup_insert_ne by done. by eexists. }
  assert (urk ≠ pwr) as Hne3.
  { apply not_eq_sym, fresh_loc_ne. rewrite lookup_insert_eq. by eexists. }
  unfold update_prim2d. rewrite Hxp.
  mrun ltac:(exact Hrks).
  rewrite decide_False by (intros Hn; by apply Hn).
  mrun ltac:(by apply get_run). mrun ltac:(reflexivity).
  mrun ltac:(by apply copy_run).
  rewrite decide_False by done.
  mrun ltac:(apply empty_like2_run; cbn; by rewrite lookup_insert_ne).
  cbn [arrays launched]. fold pwr. fold urk.
  mrun ltac:(apply zone2d_prim_to_cons_array_run; cbn;
             [by rewrite !lookup_insert_ne | by rewrite lookup_insert_eq]).
  mrun ltac:(reflexivity).
  cbn [arrays launched shape0 shape1 cells2].
  rewrite <- Hshape, prim_to_cons_array_kernel2d by (by rewrite length_fmap, length_seq).
  set (U := Array2 (shape0 P) (shape1 P) (prim_to_cons <$> cells2 P)).
  edestruct (zone2d_stages_run (solver_of ti recon) urk U dt dx θ rks
     (State (<[urk := U]> (<[urk := Array2 (shape0 P) (shape1 P)
                                      (uninitialised (NCONS 2) urk
                                         <$> seq 0 (length (cells2 P)))]>
               (<[pwr := P]> (arrays s))))
            (launched s ++ [prim_to_cons_array_launch p urk])) p pwr P P)
    as (s' & Hrun & Hres & Hone & Hfr); try done.
  { cbn. by rewrite !lookup_insert_ne. }
  { cbn. rewrite lookup_insert_ne by done. rewrite lookup_insert_ne by done.
    by rewrite lookup_insert_eq. }
  { cbn. by rewrite lookup_insert_eq. }
  exists s'. mrun ltac:(exact Hrun). subst r.
  split; [by destruct (Nat.even (length rks))|].
  split; [exact Hres|].
  split; [done|].
  split; [exact Hone|].
  intros l Hl Hne.
  assert (l ≠ pwr) by by apply fresh_loc_ne.
  assert (l ≠ urk).
  { apply fresh_loc_ne. by rewrite lookup_insert_ne. }
  rewrite Hfr by done. cbn. by rewrite !lookup_insert_ne.
Qed.

Lemma update_prim2d_fwd (s : state array2) p P dt dx recon θ exec :
  arrays s !! p = Some P →
  recon ∈ ["pcm"; "plm"] →
  let pwr := fresh (dom (arrays s)) in
  update_prim2d p dt dx "per_zone" recon θ "fwd" exec s
  = (Ok pwr,
     State (<[pwr := zone_stage2d (solver_of "fwd" recon) [] dt dx θ P 0%Qc]>
              (<[pwr := P]> (arrays s)))
           (launched s ++ [update_prim_launch [p; pwr] None 0%Qc])).
Proof.
  intros Hp Hrecon pwr.
  assert (p ≠ pwr) as Hne1 by (apply fresh_loc_ne; by eexists).
  unfold update_prim2d.
  mrun ltac:(reflexivity).
  rewrite decide_False by (intros Hn; by apply Hn).
  mrun ltac:(apply get_run; [by constructor | done]). mrun ltac:(reflexivity).
  mrun ltac:(by apply copy_run).
  rewrite decide_True by done.
  mrun ltac:(eapply zone2d_update_prim_run; cbn;
             [by rewrite lookup_insert_ne | by rewrite lookup_insert_eq | done]).
  rewrite kernel_stage2d by apply same_frame_refl. done.
Qed.

(** The outcome of [update_prim2d] on every valid configuration. *)
Lemma update_prim2d_run (s : state array2) p P dt dx recon θ ti exec :
  arrays s !! p = Some P → well_shaped P →
  recon ∈ ["pcm"; "plm"] → exec ∈ ["cpu"; "gpu"] → ti ∈ ["fwd"; "rk1"; "rk2"; "rk3"] →
  ∃ r s',
    update_prim2d p dt dx "per_zone" recon θ ti exec s = (Ok r, s') ∧
    arrays s' !! r
    = Some (foldl (zone_stage2d (solver_of ti recon) (prim_to_cons <$> cells2 P) dt dx θ)
              P (stages_of ti)) ∧
    r = (if Nat.even (length (stages_of ti)) then p else fresh (dom (arrays s))) ∧
    (length (stages_of ti) ≤ 1 → arrays s' !! p = Some P) ∧
    (∀ l, is_Some (arrays s !! l) → l ≠ p → arrays s' !! l = arrays s !! l).
Proof.
  intros Hp Hshape Hre Hexec Hti.
  destruct (stages_of_cases ti Hti) as [-> | Hin].
  - change (stages_of "fwd") with [0%Qc]. cbn [foldl length Nat.even].
    rewrite (update_prim2d_fwd s p P) by done.
    assert (p ≠ fresh (dom (arrays s))) as Hne0 by (apply fresh_loc_ne; by eexists).
    eexists _, _. split; [reflexivity|]. cbn [arrays].
    rewrite lookup_insert_eq.
    split; [|split; [done|split]].
    + apply (f_equal Some). by apply zone_stage2d_rk0.
    + intros _. by rewrite !lookup_insert_ne.
    + intros l Hl Hne.
      assert (l ≠ fresh (dom (arrays s))) by by apply fresh_loc_ne.
      by rewrite !lookup_insert_ne.
  - destruct (update_prim2d_rk s p P dt dx recon θ ti exec (stages_of ti))
      as (s' & Hrun & Hres & Hne & Hone & Hfr); try done.
    eexists _, s'. split; [exact Hrun|]. split; [exact Hres|]. done.
Qed.
End driver2d.

Section uniform2d.
Context {euler : lib_euler 2}.

Lemma index_in_grid ni nj i j : i < ni → j < nj → i * nj + j < ni * nj.
Proof. intros Hi Hj. nia. Qed.

Lemma at_ij_replicate (x : cell (NCONS 2)) m nj i j :
  i * nj + j < m → FluxPerZoneSolver2D.at_ij (replicate m x) nj i j = x.
Proof. intros Hi. unfold FluxPerZoneSolver2D.at_ij. by apply lookup_total_replicate_2. Qed.

Lemma face_uniform (b : bool) (p0 : cell (NCONS 2)) (θ sgn : Qc) :
  (if b then
     for_q (NCONS 2) (λ q,
       at_q p0 q + sgn * (c0_5 * plm_minmod (at_q p0 q) (at_q p0 q) (at_q p0 q) θ))%Qc
   else for_q (NCONS 2) (λ q, at_q p0 q)) = p0.
Proof.
  destruct b; [|apply for_q_at_q].
  etrans; [|apply (for_q_at_q _ p0)]. apply for_q_ext. intros q.
  rewrite plm_minmod_diag. ring.
Qed.

Lemma ucc_uniform self θ ni nj i j p0 dt dx rk :
  interior2 ni nj i j →
  FluxPerZoneSolver2D.ucc self (replicate (ni * nj) p0) θ nj i j
    (prim_to_cons <$> replicate (ni * nj) p0) dt dx rk
  = prim_to_cons p0.
Proof.
  intros [Hi Hj].
  unfold FluxPerZoneSolver2D.ucc, FluxPerZoneSolver2D.pilp,
    FluxPerZoneSolver2D.picm, FluxPerZoneSolver2D.picp, FluxPerZoneSolver2D.pirm,
    FluxPerZoneSolver2D.pjlp, FluxPerZoneSolver2D.pjcm, FluxPerZoneSolver2D.pjcp,
    FluxPerZoneSolver2D.pjrm.
  cbv zeta. rewrite fmap_replicate.
  rewrite !at_ij_replicate by (apply index_in_grid; lia).
  pose proof (face_uniform (plm self) p0 θ 1) as Ep.
  pose proof (face_uniform (plm self) p0 θ (-1)) as Em.
  assert (∀ f g : fin (NCONS 2) → Qc, (∀ q, f q = g q) →
            (if plm self then for_q (NCONS 2) f else for_q (NCONS 2) (λ q, at_q p0 q))
            = (if plm self then for_q (NCONS 2) g else for_q (NCONS 2) (λ q, at_q p0 q)))
    as Hext.
  { intros f g E. destruct (plm self); [by apply for_q_ext|done]. }
  rewrite (Hext (λ q, at_q p0 q + c0_5 * plm_minmod (at_q p0 q) (at_q p0 q) (at_q p0 q) θ)%Qc
             (λ q, at_q p0 q + 1 * (c0_5 * plm_minmod (at_q p0 q) (at_q p0 q) (at_q p0 q) θ))%Qc)
    by (intros q; ring).
  rewrite (Hext (λ q, at_q p0 q - c0_5 * plm_minmod (at_q p0 q) (at_q p0 q) (at_q p0 q) θ)%Qc
             (λ q, at_q p0 q + -1 * (c0_5 * plm_minmod (at_q p0 q) (at_q p0 q) (at_q p0 q) θ))%Qc)
    by (intros q; ring).
  rewrite Ep, Em.
  etrans; [|apply (for_q_at_q _ (prim_to_cons p0))]. apply for_q_ext. intros q.
  destruct (runge_kutta self); unfold Qcdiv; ring.
Qed.

Lemma zone_stage2d_uniform self dt dx θ ni nj p0 rk :
  cons_to_prim (prim_to_cons p0) = p0 →
  zone_stage2d self (prim_to_cons <$> replicate (ni * nj) p0) dt dx θ
    (Array2 ni nj (replicate (ni * nj) p0)) rk
  = Array2 ni nj (replicate (ni * nj) p0).
Proof.
  intros Hround. unfold zone_stage2d. cbn [shape0 shape1 cells2]. f_equal.
  apply list_eq. intros c.
  rewrite list_lookup_imap.
  destruct (replicate (ni * nj) p0 !! c) as [pc|] eqn:Hc; [|done].
  apply lookup_replicate in Hc as [-> Hlt]. cbn. f_equal.
  case_decide as Hint; [|done]. by rewrite ucc_uniform.
Qed.

Lemma zone_stages2d_uniform self dt dx θ ni nj p0 rks :
  cons_to_prim (prim_to_cons p0) = p0 →
  foldl (zone_stage2d self (prim_to_cons <$> replicate (ni * nj) p0) dt dx θ)
    (Array2 ni nj (replicate (ni * nj) p0)) rks
  = Array2 ni nj (replicate (ni * nj) p0).
Proof.
  intros Hround. induction rks as [|rk rks IH]; [done|].
  cbn [foldl]. by rewrite zone_stage2d_uniform.
Qed.
End uniform2d.

(** X26: what [update_prim2d] computes.  On every valid configuration it
    returns the input taken through one stage per coefficient of
    [time_integration] ([fwd] and [rk1]: one stage of coefficient 0, [rk2]:
    0 and 1/2, [rk3]: 0, 3/4 and 1/3), every stage blending with
    [U_rk = prim_to_cons(P)] taken once from the input.  The two buffers
    trade places after every stage: [rk2] returns the input object, the
    others a new array; [fwd] and [rk1] leave the input as it was, and no
    other array of the caller changes. *)
Theorem update_prim2d_stages {euler1 : lib_euler 1} {euler : lib_euler 2} {mem : memory}
    (s : state array2) p P dt dx reconstruction plm_theta time_integration exec_mode :
  arrays s !! p = Some P → well_shaped P →
  reconstruction ∈ ["pcm"; "plm"] → exec_mode ∈ ["cpu"; "gpu"] →
  time_integration ∈ ["fwd"; "rk1"; "rk2"; "rk3"] →
  ∃ r s',
    update_prim2d p dt dx "per_zone" reconstruction plm_theta time_integration exec_mode s
    = (Ok r, s') ∧
    arrays s' !! r
    = Some (foldl (zone_stage2d (solver_of time_integration reconstruction)
                     (prim_to_cons <$> cells2 P) dt dx plm_theta)
              P (stages_of time_integration)) ∧
    r = (if decide (time_integration = "rk2") then p else fresh (dom (arrays s))) ∧
    (time_integration ∈ ["fwd"; "rk1"] → arrays s' !! p = Some P) ∧
    (∀ l, is_Some (arrays s !! l) → l ≠ p → arrays s' !! l = arrays s !! l).
Proof.
  intros Hp Hshape Hre Hexec Hti.
  destruct (update_prim2d_run s p P dt dx reconstruction plm_theta time_integration
              exec_mode) as (r & s' & Hrun & Hres & Hr & Hone & Hfr); [done..|].
  exists r, s'. split; [exact Hrun|]. split; [exact Hres|].
  rewrite !elem_of_cons, elem_of_nil in Hti.
  split; [|split; [|exact Hfr]].
  - rewrite Hr. destruct Hti as [-> | [-> | [-> | [-> | []]]]]; reflexivity.
  - rewrite !elem_of_cons, elem_of_nil. intros [-> | [-> | []]]; apply Hone; vm_compute; lia.
Qed.

Lemma update_prim2d_stages_witness :
  ∃ r s',
    update_prim2d (euler2:=upwind2) (mem:=sevens) 5 c0_25 1%Qc "per_zone" "plm" (Q2Qc 2)
      "rk3" "cpu" grid5_state = (Ok r, s') ∧
    arrays s' !! r
    = Some (foldl (zone_stage2d (euler:=upwind2) (solver_of "rk3" "plm")
                     (@prim_to_cons 2 upwind2 <$> cells2 grid5) c0_25 1%Qc (Q2Qc 2))
              grid5 (stages_of "rk3")) ∧
    r = (if decide ("rk3" = "rk2") then 5 else fresh (dom (arrays grid5_state))) ∧
    ("rk3" ∈ ["fwd"; "rk1"] → arrays s' !! 5 = Some grid5) ∧
    (∀ l, is_Some (arrays grid5_state !! l) → l ≠ 5 →
          arrays s' !! l = arrays grid5_state !! l).
Proof.
  assert (H1 : arrays grid5_state !! 5 = Some grid5) by reflexivity.
  assert (H2 : well_shaped grid5) by reflexivity.
  assert (H3 : "plm" ∈ ["pcm"; "plm"]) by (vm_compute; repeat constructor).
  assert (H4 : "cpu" ∈ ["cpu"; "gpu"]) by (vm_compute; constructor).
  assert (H5 : "rk3" ∈ ["fwd"; "rk1"; "rk2"; "rk3"]) by (vm_compute; repeat constructor).
  exact (update_prim2d_stages (euler1:=ideal_gas) (euler:=upwind2) (mem:=sevens)
           grid5_state 5 grid5 c0_25 1%Qc "plm" (Q2Qc 2) "rk3" "cpu" H1 H2 H3 H4 H5).
Defined.

(** X27: [update_prim2d] never changes the frame of guard cells.  On every
    valid configuration the array it returns has the shape of the input and
    holds the input's cell at every [(i, j)] less than two cells away from an
    edge of the grid: [i < 2], [i >= ni - 2], [j < 2] or [j >= nj - 2]. *)
Theorem update_prim2d_guard_frame {euler1 : lib_euler 1} {euler : lib_euler 2}
    {mem : memory}
    (s : state array2) p P dt dx reconstruction plm_theta time_integration exec_mode :
  arrays s !! p = Some P → well_shaped P →
  reconstruction ∈ ["pcm"; "plm"] → exec_mode ∈ ["cpu"; "gpu"] →
  time_integration ∈ ["fwd"; "rk1"; "rk2"; "rk3"] →
  ∃ r s' R,
    update_prim2d p dt dx "per_zone" reconstruction plm_theta time_integration exec_mode s
    = (Ok r, s') ∧
    arrays s' !! r = Some R ∧
    shape0 R = shape0 P ∧ shape1 R = shape1 P ∧
    ∀ i j, i < shape0 P → j < shape1 P →
      (i < 2 ∨ shape0 P - 2 ≤ i ∨ j < 2 ∨ shape1 P - 2 ≤ j) →
      FluxPerZoneSolver2D.at_ij (cells2 R) (shape1 P) i j
      = FluxPerZoneSolver2D.at_ij (cells2 P) (shape1 P) i j.
Proof.
  intros Hp Hshape Hre Hexec Hti.
  destruct (update_prim2d_run s p P dt dx reconstruction plm_theta time_integration
              exec_mode) as (r & s' & Hrun & Hres & _); [done..|].
  eexists r, s', _. split; [exact Hrun|]. split; [exact Hres|].
  destruct (zone_stages2d_same_frame (solver_of time_integration reconstruction)
              (prim_to_cons <$> cells2 P) dt dx plm_theta (stages_of time_integration) P)
    as (E0 & E1 & _ & G).
  split; [done|]. split; [done|]. intros i j Hi Hj Hedge.
  unfold FluxPerZoneSolver2D.at_ij. rewrite !list_lookup_total_alt. f_equal.
  symmetry. apply G.
  assert ((i * shape1 P + j) / shape1 P = i) as ->.
  { symmetry. apply (Nat.div_unique _ (shape1 P) i j); lia. }
  assert ((i * shape1 P + j) mod shape1 P = j) as ->.
  { symmetry. apply (Nat.mod_unique _ (shape1 P) i j); lia. }
  unfold interior2. lia.
Qed.

Lemma update_prim2d_guard_frame_witness :
  ∃ r s' R,
    update_prim2d (euler2:=upwind2) (mem:=sevens) 5 c0_25 1%Qc "per_zone" "plm" (Q2Qc 2)
      "rk2" "cpu" grid5_state = (Ok r, s') ∧
    arrays s' !! r = Some R ∧
    shape0 R = shape0 grid5 ∧ shape1 R = shape1 grid5 ∧
    ∀ i j, i < shape0 grid5 → j < shape1 grid5 →
      (i < 2 ∨ shape0 grid5 - 2 ≤ i ∨ j < 2 ∨ shape1 grid5 - 2 ≤ j) →
      FluxPerZoneSolver2D.at_ij (cells2 R) (shape1 grid5) i j
      = FluxPerZoneSolver2D.at_ij (cells2 grid5) (shape1 grid5) i j.
Proof.
  assert (H1 : arrays grid5_state !! 5 = Some grid5) by reflexivity.
  assert (H2 : well_shaped grid5) by reflexivity.
  assert (H3 : "plm" ∈ ["pcm"; "plm"]) by (vm_compute; repeat constructor).
  assert (H4 : "cpu" ∈ ["cpu"; "gpu"]) by (vm_compute; constructor).
  assert (H5 : "rk2" ∈ ["fwd"; "rk1"; "rk2"; "rk3"]) by (vm_compute; repeat constructor).
  exact (update_prim2d_guard_frame (euler1:=ideal_gas) (euler:=upwind2) (mem:=sevens)
           grid5_state 5 grid5 c0_25 1%Qc "plm" (Q2Qc 2) "rk2" "cpu" H1 H2 H3 H4 H5).
Defined.

(** X28: in two dimensions too, [fwd] and [rk1] are observationally
    equivalent.  On every valid configuration, and whatever the two runs
    find in uninitialised memory, [update_prim2d] returns with both the same
    new array object holding the same values, and leaves the input as it
    was. *)
Theorem update_prim2d_fwd_equals_rk1 {euler1 : lib_euler 1} {euler : lib_euler 2}
    (mem1 mem2 : memory)
    (s : state array2) p P dt dx reconstruction plm_theta exec_mode :
  arrays s !! p = Some P → well_shaped P →
  reconstruction ∈ ["pcm"; "plm"] → exec_mode ∈ ["cpu"; "gpu"] →
  ∃ r s1 s2 R,
    update_prim2d (mem:=mem1) p dt dx "per_zone" reconstruction plm_theta "fwd" exec_mode s
    = (Ok r, s1) ∧
    update_prim2d (mem:=mem2) p dt dx "per_zone" reconstruction plm_theta "rk1" exec_mode s
    = (Ok r, s2) ∧
    arrays s !! r = None ∧
    arrays s1 !! r = Some R ∧ arrays s2 !! r = Some R ∧
    arrays s1 !! p = Some P ∧ arrays s2 !! p = Some P.
Proof.
  intros Hp Hshape Hre Hexec.
  destruct (update_prim2d_run (mem:=mem1) s p P dt dx reconstruction plm_theta "fwd"
              exec_mode) as (r1 & s1 & Hrun1 & Hres1 & -> & Hone1 & _);
    [done..|rewrite !elem_of_cons; auto|].
  destruct (update_prim2d_run (mem:=mem2) s p P dt dx reconstruction plm_theta "rk1"
              exec_mode) as (r2 & s2 & Hrun2 & Hres2 & -> & Hone2 & _);
    [done..|rewrite !elem_of_cons; auto|].
  eexists _, s1, s2, _. split; [exact Hrun1|]. split; [exact Hrun2|].
  split; [apply fresh_loc_None|]. split; [exact Hres1|].
  split; [|split; [apply Hone1; vm_compute; lia|apply Hone2; vm_compute; lia]].
  etrans; [exact Hres2|]. apply (f_equal Some).
  change (stages_of "rk1") with [0%Qc]. change (stages_of "fwd") with [0%Qc].
  cbn [foldl]. by apply zone_stage2d_rk0.
Qed.

Lemma update_prim2d_fwd_equals_rk1_witness :
  ∃ r s1 s2 R,
    update_prim2d (euler2:=upwind2) (mem:=sevens) 5 c0_25 1%Qc "per_zone" "plm" (Q2Qc 2)
      "fwd" "cpu" grid5_state = (Ok r, s1) ∧
    update_prim2d (euler2:=upwind2) (mem:=nines) 5 c0_25 1%Qc "per_zone" "plm" (Q2Qc 2)
      "rk1" "cpu" grid5_state = (Ok r, s2) ∧
    arrays grid5_state !! r = None ∧
    arrays s1 !! r = Some R ∧ arrays s2 !! r = Some R ∧
    arrays s1 !! 5 = Some grid5 ∧ arrays s2 !! 5 = Some grid5.
Proof.
  assert (H1 : arrays grid5_state !! 5 = Some grid5) by reflexivity.
  assert (H2 : well_shaped grid5) by reflexivity.
  assert (H3 : "plm" ∈ ["pcm"; "plm"]) by (vm_compute; repeat constructor).
  assert (H4 : "cpu" ∈ ["cpu"; "gpu"]) by (vm_compute; constructor).
  exact (update_prim2d_fwd_equals_rk1 (euler1:=ideal_gas) (euler:=upwind2) sevens nines
           grid5_state 5 grid5 c0_25 1%Qc "plm" (Q2Qc 2) "cpu" H1 H2 H3 H4).
Defined.

(** X29: a uniform state is a fixed point of a first-order 2D step.  If every
    cell of the [[ni, nj]] input holds the same primitive state [p0], the
    conversion to conserved variables and back returns [p0], and [dx] is not
    zero, then with [time_integration] [fwd] or [rk1], and every valid
    reconstruction and [exec_mode], [update_prim2d] returns an array holding
    [p0] in every cell: the two fluxes along each axis are equal, so that
    their differences are zero, and the blend of [rk1] has the coefficient 0. *)
Theorem update_prim2d_uniform_state {euler1 : lib_euler 1} {euler : lib_euler 2}
    {mem : memory}
    (s : state array2) p ni nj p0 dt dx reconstruction plm_theta time_integration
    exec_mode :
  arrays s !! p = Some (Array2 ni nj (replicate (ni * nj) p0)) →
  cons_to_prim (prim_to_cons p0) = p0 → dx ≠ 0%Qc →
  reconstruction ∈ ["pcm"; "plm"] → exec_mode ∈ ["cpu"; "gpu"] →
  time_integration ∈ ["fwd"; "rk1"] →
  ∃ r s',
    update_prim2d p dt dx "per_zone" reconstruction plm_theta time_integration exec_mode s
    = (Ok r, s') ∧
    arrays s' !! r = Some (Array2 ni nj (replicate (ni * nj) p0)).
Proof.
  intros Hp Hround Hdx Hre Hexec Hti.
  destruct (update_prim2d_run s p _ dt dx reconstruction plm_theta time_integration
              exec_mode Hp) as (r & s' & Hrun & Hres & _); [|done..| |].
  { unfold well_shaped. cbn. by rewrite length_replicate. }
  { rewrite !elem_of_cons in Hti. rewrite !elem_of_cons. tauto. }
  exists r, s'. split; [exact Hrun|]. rewrite Hres. cbn [cells2].
  by rewrite zone_stages2d_uniform.
Qed.

Lemma update_prim2d_uniform_state_witness :
  ∃ r s',
    update_prim2d (euler2:=upwind2) (mem:=sevens) 5 c0_25 1%Qc "per_zone" "plm" (Q2Qc 2)
      "rk1" "cpu" still_grid = (Ok r, s') ∧
    arrays s' !! r = Some (Array2 6 5 (replicate (6 * 5) (numbered_cell2 1))).
Proof.
  assert (H1 : arrays still_grid !! 5
               = Some (Array2 6 5 (replicate (6 * 5) (numbered_cell2 1)))) by reflexivity.
  assert (H2 : @cons_to_prim 2 upwind2 (@prim_to_cons 2 upwind2 (numbered_cell2 1))
               = numbered_cell2 1) by reflexivity.
  assert (H0 : 1%Qc ≠ 0%Qc) by (intros E; discriminate E).
  assert (H3 : "plm" ∈ ["pcm"; "plm"]) by (vm_compute; repeat constructor).
  assert (H4 : "cpu" ∈ ["cpu"; "gpu"]) by (vm_compute; constructor).
  assert (H5 : "rk1" ∈ ["fwd"; "rk1"]) by (vm_compute; repeat constructor).
  exact (update_prim2d_uniform_state (euler1:=ideal_gas) (euler:=upwind2) (mem:=sevens)
           still_grid 5 6 5 (numbered_cell2 1) c0_25 1%Qc "plm" (Q2Qc 2) "rk1" "cpu"
           H1 H2 H0 H3 H4 H5).
Defined.



